(** * ADIOS2 staging: the MPMD test harness and the Python engine glue

    Shallow embedding of
    - [testing/adios2/engine/staging-common/TestStagingMPMD.cpp]
      (the M-writers x N-readers harness: [CreateRunParams], [MainWriters],
      [GetValue], [CheckData], [MainReaders], [TestCommon], the [TEST_P]s),
    - [bindings/python/include/EnginePy.h]
      ([DefineVariableInADIOS], [WriteVariableInADIOS]),
    together with a model of the engine the harness drives (variable
    registry, selections, redistribution, step controller).  The engine is
    not part of the two source files; its definitions are taken from the
    specification and are marked as such. *)

From Stdlib Require Import ZArith Lia List Bool.
From Stdlib Require Import Floats.SpecFloat.
From stdpp Require Import base option list gmap strings.

Local Open Scope Z_scope.

(** ** C++ scalar types *)

Module CTypes.

(** [size_t] is a 64-bit unsigned integer: arithmetic wraps modulo 2^64. *)
Definition SIZE_MOD : Z := 2 ^ 64.
Definition wrap64 (z : Z) : Z := z mod SIZE_MOD.
Definition add64 (a b : Z) : Z := wrap64 (a + b).
Definition sub64 (a b : Z) : Z := wrap64 (a - b).
Definition mul64 (a b : Z) : Z := wrap64 (a * b).

(** [int] is a 32-bit signed integer.  Conversion of an [int] to [size_t]
    (the usual arithmetic conversion in [rank % npx], [offsx + j],
    [j < ndx]) is reduction modulo 2^64. *)
Definition INT_MAX : Z := 2 ^ 31 - 1.
Definition INT_MIN : Z := - 2 ^ 31.
Definition wrap_int (z : Z) : Z := (z + 2 ^ 31) mod 2 ^ 32 - 2 ^ 31.
Definition int_to_size_t (i : Z) : Z := wrap64 i.
Definition size_t_to_int (s : Z) : Z := wrap_int s.

(** [for (int k = 0; k < n; ++k) body], with [n] a [size_t]: the body runs
    for k = 0, ..., n-1 in this order.  The counter is an [int]; where [n]
    exceeds [INT_MAX] the C++ loop overflows it, which is undefined, and
    the theorems below keep [n] within the range of [int]. *)
Definition for_range {S : Type} (n : Z) (body : Z -> S -> S) (s : S) : S :=
  fold_left (fun acc k => body (Z.of_nat k) acc) (seq 0 (Z.to_nat n)) s.

End CTypes.

(** ** IEEE 754 binary32, the C++ [float] *)

Module F32.

Definition prec : Z := 24.
Definition emax : Z := 128.

Definition float : Type := spec_float.

(** Conversion of an integer to [float], round to nearest even. *)
Definition of_Z (z : Z) : float := binary_normalize prec emax z 0 false.

Definition fadd : float -> float -> float := SFadd prec emax.
Definition fmul : float -> float -> float := SFmul prec emax.
Definition fdiv : float -> float -> float := SFdiv prec emax.

(** [==] and [!=] on floats: a NaN differs from everything, itself
    included; the two zeros are equal. *)
Definition feqb (x y : float) : bool := SFeqb x y.
Definition fneb (x y : float) : bool := negb (feqb x y).

(** The literal [1000.0f]. *)
Definition f1000 : float := Eval cbv in of_Z 1000.
(** The value of a value-initialised [float]. *)
Definition fzero : float := S754_zero false.

(** A float that is not a NaN and whose sign bit is [s]. *)
Definition has_sign (s : bool) (x : float) : Prop :=
  match x with
  | S754_zero s' | S754_infinity s' | S754_finite s' _ _ => s' = s
  | S754_nan => False
  end.

End F32.

(** ** The engine, as the specification describes it *)

Module Engine.

(** Modelled from the spec: the failures of the public surface (sections
    6 and 7). *)
Inductive Error : Type :=
| DuplicateDefinition
| InvalidSelection
| UnknownVariable
| InvalidState
| StreamUnavailable.

(** A call returns a value or fails. *)
Inductive result (A : Type) : Type :=
| Ok (a : A)
| Err (e : Error).
Arguments Ok {A} a.
Arguments Err {A} e.

(** Modelled from the spec: the element type tag of a Variable (section
    3), "a tagged variant over a closed set of numeric element types"
    (section 9). *)
Inductive ElemType : Type :=
| TInt8 | TInt16 | TInt32 | TInt64
| TUInt8 | TUInt16 | TUInt32 | TUInt64
| TFloat | TDouble.

#[global] Instance ElemType_eq_dec : EqDecision ElemType.
Proof. solve_decision. Defined.

Abbreviation Dims := (list Z).

(** Modelled from the spec: the Variable of section 3, [adios2::Variable]
    (name, element type tag, global shape); [Variable] is a reserved word. *)
Record VariableDef : Type := mkVariable
  { var_name : string; var_type : ElemType; var_shape : Dims }.

(** Modelled from the spec: the Selection of section 3 (offset and count,
    one entry per dimension). *)
Record Selection : Type := mkSelection
  { sel_offset : Dims; sel_count : Dims }.

(** Modelled from the spec: the StepPayload of section 3 (variable,
    selection, buffer). *)
Record StepPayload (A : Type) : Type := mkPayload
  { pl_var : VariableDef; pl_sel : Selection; pl_buf : list A }.
Arguments mkPayload {A} _ _ _.
Arguments pl_var {A} _.
Arguments pl_sel {A} _.
Arguments pl_buf {A} _.

(** Modelled from the spec: the Selection invariant of section 3, checked
    at construction (section 4.2): same rank as the shape, and in every
    dimension [offset + count <= globalShape], the offset non-negative and
    the count not 0. *)
Fixpoint valid_dims (shape off cnt : Dims) : bool :=
  match shape, off, cnt with
  | [], [], [] => true
  | g :: shape', o :: off', c :: cnt' =>
      (0 <=? o) && (0 <? c) && (o + c <=? g) && valid_dims shape' off' cnt'
  | _, _, _ => false
  end.

Definition valid_selection (shape : Dims) (sel : Selection) : bool :=
  valid_dims shape (sel_offset sel) (sel_count sel).

(** A region as one interval (first index, extent) per dimension. *)
Abbreviation Box := (list (Z * Z)).

(** The region of a selection. *)
Definition box_of (sel : Selection) : Box :=
  zip (sel_offset sel) (sel_count sel).

(** The point [p] lies in the region. *)
Definition in_box (b : Box) (p : Dims) : Prop :=
  Forall2 (fun oc x => oc.1 <= x < oc.1 + oc.2) b p.

(** Modelled from the spec: the intersection of section 4.4, step 2, "per
    dimension max(offset) / min(offset+count)". *)
Definition intersect (s r : Box) : Box :=
  zip_with (fun a b =>
              let lo := Z.max a.1 b.1 in
              let hi := Z.min (a.1 + a.2) (b.1 + b.2) in
              (lo, hi - lo)) s r.

(** The region has a point. *)
Definition nonempty (b : Box) : bool :=
  forallb (fun oc => 0 <? oc.2) b.

(** Modelled from the spec: the row-major linearization of section 4.2,
    the position of the point [p] in a buffer that holds the region [b]. *)
Fixpoint linearize (b : Box) (p : Dims) (acc : Z) : Z :=
  match b, p with
  | (o, c) :: b', x :: p' => linearize b' p' (acc * c + (x - o))
  | _, _ => acc
  end.

(** The number of points of a region. *)
Definition volume (b : Box) : Z :=
  fold_right (fun oc v => oc.2 * v) 1 b.

(** The indices o, o+1, ..., o+c-1. *)
Definition range (o c : Z) : list Z :=
  (fun k => o + Z.of_nat k) <$> seq 0 (Z.to_nat c).

(** Modelled from the spec: the points of a region in the row-major order
    of section 4.2 (last dimension fastest). *)
Fixpoint points (b : Box) : list Dims :=
  match b with
  | [] => [[]]
  | (o, c) :: b' =>
      flat_map (fun x => (fun p => x :: p) <$> points b') (range o c)
  end.

(** Modelled from the spec: section 4.4, step 3: copy the elements of the
    intersection from the writer's buffer (linearized relative to the
    writer's selection [s]) into the reader's buffer (linearized relative
    to the reader's selection [r]), in row-major order. *)
Definition copy_element {A : Type} (r s : Box) (src : list A)
    (dst : list A) (p : Dims) : list A :=
  match src !! Z.to_nat (linearize s p 0) with
  | Some v => <[Z.to_nat (linearize r p 0) := v]> dst
  | None => dst
  end.

Definition copy_region {A : Type} (r s : Box) (src dst : list A) : list A :=
  fold_left (copy_element r s src) (points (intersect s r)) dst.

(** Modelled from the spec: section 4.4, step 1: the payloads of the
    variable whose selection intersects the request. *)
Definition intersecting {A : Type} (v : VariableDef) (r : Selection)
    (pl : StepPayload A) : bool :=
  bool_decide (var_name (pl_var pl) = var_name v)
  && nonempty (intersect (box_of (pl_sel pl)) (box_of r)).

(** Modelled from the spec: the Redistribution Engine of section 4.4: the
    payloads of a Sealed step are processed in arrival order; elements no
    payload covers keep the destination's contents.  [Get] fails with
    [InvalidSelection] on a selection that violates the invariant. *)
Definition redistribute {A : Type} (v : VariableDef) (r : Selection)
    (payloads : list (StepPayload A)) (dst : list A) : list A :=
  fold_left (fun d pl => copy_region (box_of r) (box_of (pl_sel pl))
                                     (pl_buf pl) d)
            (filter (fun pl => intersecting v r pl = true) payloads) dst.

Definition Get {A : Type} (v : VariableDef) (r : Selection)
    (payloads : list (StepPayload A)) (dst : list A) : result (list A) :=
  if valid_selection (var_shape v) r
  then Ok (redistribute v r payloads dst)
  else Err InvalidSelection.

(** Modelled from the spec: [Put] of section 4.5 queues a StepPayload
    against the active step, and fails with [InvalidSelection]. *)
Definition Put {A : Type} (v : VariableDef) (s : Selection) (buf : list A)
    (queue : list (StepPayload A)) : result (list (StepPayload A)) :=
  if valid_selection (var_shape v) s
  then Ok (queue ++ [mkPayload v s buf])
  else Err InvalidSelection.

(** Whether a point lies in a region can be decided. *)
#[global] Instance in_box_dec b p : Decision (in_box b p).
Proof. unfold in_box. apply Forall2_dec. intros [o c] x. apply _. Defined.

(** A payload whose selection has the rank of the request [r] and whose
    buffer holds, for every point of its selection, the value of the
    point. *)
Definition consistent {A : Type} (r : Selection) (value : Dims -> A)
    (pl : StepPayload A) : Prop :=
  length (box_of (pl_sel pl)) = length (box_of r) /\
  forall p, in_box (box_of (pl_sel pl)) p ->
    pl_buf pl !! Z.to_nat (linearize (box_of (pl_sel pl)) p 0) = Some (value p).

(** Modelled from the spec: the Variable Registry of section 4.1.  A
    handle is the address of the registered variable (a C++ reference, never
    null); the registry maps names to handles and handles to the variables
    they refer to. *)
Record Registry : Type := mkRegistry
  { reg_names : gmap string positive;
    reg_objects : gmap positive VariableDef;
    reg_next : positive }.

(** The registry of a process that has defined nothing. *)
Definition empty_registry : Registry := mkRegistry ∅ ∅ 1%positive.

(** Modelled from the spec: [Define(name, type, globalShape)] of section
    4.1: "Fails with DuplicateDefinition if the name is already defined with
    a different shape/type in the same process; idempotent (returns existing
    handle) if identical." *)
Definition Define (name : string) (ty : ElemType) (shape : Dims)
    (reg : Registry) : result (positive * Registry) :=
  match reg_names reg !! name with
  | Some h =>
      match reg_objects reg !! h with
      | Some v =>
          if decide (var_type v = ty /\ var_shape v = shape)
          then Ok (h, reg)
          else Err DuplicateDefinition
      | None => Err DuplicateDefinition
      end
  | None =>
      let h := reg_next reg in
      Ok (h, mkRegistry (<[name := h]> (reg_names reg))
                        (<[h := mkVariable name ty shape]> (reg_objects reg))
                        (Pos.succ h))
  end.

(** Modelled from the spec: [Lookup(name)] of section 4.1; [None] is
    NotFound. *)
Definition Lookup (name : string) (reg : Registry) : option positive :=
  reg_names reg !! name.

(** Modelled from the spec: [DefineVariable(name, type, globalShape[,
    localOffset, localCount])] of section 6.  The optional local offset and
    count are the selection a later [Put] uses by default; they are not
    part of the variable's identity. *)
Definition DefineVariable (name : string) (ty : ElemType) (shape : Dims)
    (local : option Selection) (reg : Registry)
    : result (positive * Registry) :=
  Define name ty shape reg.

(** Modelled from the spec: the calls of [Define] a process makes, one
    after the other, each with its name, type and global shape.  A call that
    fails with DuplicateDefinition leaves the registry as it is (section 7:
    logic errors fail "immediately and locally"). *)
Definition Defines (calls : list (string * ElemType * Dims))
    (reg : Registry) : Registry :=
  fold_left (fun r call =>
               match Define call.1.1 call.1.2 call.2 r with
               | Ok (_, r') => r'
               | Err _ => r
               end) calls reg.

(** *** The step controller *)

(** Modelled from the spec: the statuses of [BeginStep] (section 6),
    [adios2::StepStatus]. *)
Inductive StepStatus : Type := OK | NotReady | EndOfStream.

(** Modelled from the spec: the modes of [BeginStep] that section 4.3
    elaborates, [adios2::StepMode]. *)
Inductive StepMode : Type := Append | NextAvailable.

(** Modelled from the spec: the states of the Step Controller of section
    4.3. *)
Inductive ControllerState : Type := Idle | StepActive | Closed.

(** Modelled from the spec: what the writer side of a stream does as time
    passes, in ticks of a clock.  [seal_time !! k] is the tick at which the
    step with sequence number k becomes Sealed, that is, at which the last
    writer process of the group has ended it (the group-wide seal of
    section 4.3); [close_time] is the tick at which the last writer process
    has closed the stream, if they ever all do.  The engine keeps every
    Sealed step until the reader has retired it (no buffering-depth policy
    is configured). *)
Record Timeline : Type := mkTimeline
  { seal_time : list nat; close_time : option nat }.

(** Every element is at most the next. *)
Fixpoint nondecreasing (l : list nat) : bool :=
  match l with
  | a :: l' =>
      match l' with
      | b :: _ => (a <=? b)%nat && nondecreasing l'
      | [] => true
      end
  | [] => true
  end.

(** Modelled from the spec: steps are sealed in the order of their
    sequence numbers (section 5, "steps are strictly ordered by sequence
    number"), and the writers close after their last step. *)
Definition wf_timeline (tl : Timeline) : bool :=
  nondecreasing (seal_time tl)
  && match close_time tl with
     | Some tc => forallb (fun ts => (ts <=? tc)%nat) (seal_time tl)
     | None => true
     end.

(** Modelled from the spec: the step with sequence number [k] is Sealed,
    hence visible to readers, at tick [t]. *)
Definition available (tl : Timeline) (k t : nat) : bool :=
  match seal_time tl !! k with
  | Some ts => (ts <=? t)%nat
  | None => false
  end.

(** Modelled from the spec: the writer side has closed the stream by tick
    [t]. *)
Definition closed (tl : Timeline) (t : nat) : bool :=
  match close_time tl with
  | Some tc => (tc <=? t)%nat
  | None => false
  end.

(** Modelled from the spec: the run of one writer process: the ticks of
    its [EndStep]s, in step order, and the tick of its [Close], if it
    closes. *)
Record WriterRun : Type := mkWriterRun
  { end_times : list nat; closed_at : option nat }.

(** Modelled from the spec: a writer ends its steps one after the other
    and closes after the last. *)
Definition wf_writer (w : WriterRun) : bool :=
  nondecreasing (end_times w)
  && match closed_at w with
     | Some tc => forallb (fun ts => (ts <=? tc)%nat) (end_times w)
     | None => true
     end.

(** The later of two ticks, if both happen. *)
Definition later (a b : option nat) : option nat :=
  match a, b with
  | Some x, Some y => Some (Nat.max x y)
  | _, _ => None
  end.

(** Modelled from the spec: the timeline of a stream written by a group of
    processes.  A step is Sealed when every writer process has ended it
    (section 3, section 4.3: "readers must never observe a partially-sealed
    step"), and the stream is closed when every writer process has closed
    it (section 8). *)
Definition group_timeline (ws : list WriterRun) : Timeline :=
  match ws with
  | [] => mkTimeline [] None
  | w :: ws' =>
      mkTimeline
        (fold_left (fun acc w' => zip_with Nat.max acc (end_times w'))
                   ws' (end_times w))
        (fold_left (fun acc w' => later acc (closed_at w'))
                   ws' (closed_at w))
  end.

(** Modelled from the spec: the reader's handle: the controller state and
    the number of steps admitted so far, which is the sequence number of
    the next not-yet-admitted step (of the current step while StepActive). *)
Record ReaderHandle : Type := mkReader
  { ctl : ControllerState; next_step : nat }.

(** Modelled from the spec: the wait of [BeginStep(NextAvailable, timeout)]
    of sections 4.3 and 5, as a poll loop with one poll per tick: OK as soon
    as the next step is Sealed, EndOfStream as soon as the writer side has
    closed with nothing left, NotReady when [timeout] ticks have passed. *)
Fixpoint wait (tl : Timeline) (next t timeout : nat) : StepStatus * nat :=
  if available tl next t then (OK, t)
  else if closed tl t then (EndOfStream, t)
  else match timeout with
       | O => (NotReady, t)
       | S timeout' => wait tl next (S t) timeout'
       end.

(** Modelled from the spec: the reader's [BeginStep] of section 4.3,
    called at tick [now]; the result carries the tick at which it returns.
    "Calling BeginStep while already StepActive is a logic error
    (InvalidState)." *)
Definition BeginStep (mode : StepMode) (timeout : nat) (tl : Timeline)
    (now : nat) (h : ReaderHandle)
    : result (StepStatus * nat * ReaderHandle) :=
  match ctl h, mode with
  | Idle, NextAvailable =>
      match wait tl (next_step h) now timeout with
      | (OK, t) => Ok (OK, t, mkReader StepActive (next_step h))
      | (status, t) => Ok (status, t, h)
      end
  | _, _ => Err InvalidState
  end.

(** Modelled from the spec: the reader's [EndStep] of section 4.3: retires
    the admission of the current step, StepActive to Idle.  "Calling
    EndStep from Idle is a logic error." *)
Definition EndStep (h : ReaderHandle) : result ReaderHandle :=
  match ctl h with
  | StepActive => Ok (mkReader Idle (S (next_step h)))
  | _ => Err InvalidState
  end.

(** Modelled from the spec: [Close] on a reader releases its admission
    state. *)
Definition Close (h : ReaderHandle) : ReaderHandle :=
  mkReader Closed (next_step h).

End Engine.

(** ** The harness, TestStagingMPMD.cpp *)

Module Harness.
Import CTypes F32 Engine.

(** [struct RunParams]: 2D decomposition of processes,
    [npx_w] x [npy_w] writers and [npx_r] x [npy_r] readers. *)
Record RunParams : Type := mkRunParams
  { npx_w : Z; npy_w : Z; npx_r : Z; npy_r : Z }.

Definition CreateRunParams : list RunParams :=
  [ (* 2 process test *)
    mkRunParams 1 1 1 1;
    (* 3 process tests *)
    mkRunParams 2 1 1 1;
    mkRunParams 1 2 1 1;
    mkRunParams 1 1 2 1;
    mkRunParams 1 1 1 2;
    (* 4 process tests *)
    mkRunParams 2 1 2 1;
    mkRunParams 2 1 1 2;
    (* 8 process tests *)
    mkRunParams 1 1 1 7;
    mkRunParams 1 7 1 1;
    mkRunParams 2 2 2 2;
    (* 16 process tests *)
    mkRunParams 3 5 1 1;
    mkRunParams 1 1 5 3 ].

(** [float GetValue(size_t gndx, size_t gndy, size_t offsx, size_t offsy,
    int step)]:
    [return 1000.0f * step + offsx * gndx + offsy / 1000.0f;]
    [step] is converted to [float]; [offsx * gndx] is a [size_t] product,
    converted to [float]; [offsy] is converted to [float] and divided. *)
Definition GetValue (gndx gndy offsx offsy : Z) (step : Z) : float :=
  fadd (fadd (fmul f1000 (of_Z step)) (of_Z (mul64 offsx gndx)))
       (fdiv (of_Z offsy) f1000).

(** [v[idx]] on a [std::vector<float>] with an [int] index.  An index out
    of range is undefined behaviour in C++; here a store out of range
    leaves the vector as it is and a load out of range yields nothing. *)
Definition store (a : list float) (idx : Z) (v : float) : list float :=
  if idx <? 0 then a else <[Z.to_nat idx := v]> a.
Definition load (a : list float) (idx : Z) : option float :=
  if idx <? 0 then None else a !! Z.to_nat idx.

(** The body of the two loops of [MainWriters]:
    [myArray[idx] = GetValue(gndx, gndy, offsx + j, offsy + i, step); ++idx;] *)
Definition fill_cell (gndx gndy offsx offsy step j i : Z)
    (st : Z * list float) : Z * list float :=
  let '(idx, myArray) := st in
  (wrap_int (idx + 1),
   store myArray idx
     (GetValue gndx gndy (add64 offsx (int_to_size_t j))
               (add64 offsy (int_to_size_t i)) step)).

(** [int idx = 0; for (int j = 0; j < ndx; ++j) for (int i = 0; i < ndy; ++i) ...] *)
Definition fill (gndx gndy offsx offsy ndx ndy step : Z)
    (myArray : list float) : list float :=
  snd (for_range ndx
         (fun j => for_range ndy (fill_cell gndx gndy offsx offsy step j))
         (0, myArray)).

(** [size_t ndx = 50; size_t ndy = 60;] in [MainWriters]. *)
Definition w_ndx : Z := 50.
Definition w_ndy : Z := 60.

(** The local variables of [MainWriters] and [MainReaders] that describe
    the block of a rank: the global extents, the offsets and the extents of
    the block. *)
Record Geometry : Type := mkGeometry
  { g_gndx : Z; g_gndy : Z; g_offsx : Z; g_offsy : Z; g_ndx : Z; g_ndy : Z }.

(** The geometry of a writer rank: [gndx = npx * ndx], [gndy = npy * ndy],
    [posx = rank % npx], [posy = rank / npx], [offsx = posx * ndx],
    [offsy = posy * ndy].  The [int] rank is converted to [size_t]; with
    [npx = 0] the C++ division is undefined (here it yields 0). *)
Definition writer_geometry (npx npy rank : Z) : Geometry :=
  let ndx := w_ndx in
  let ndy := w_ndy in
  let gndx := mul64 npx ndx in
  let gndy := mul64 npy ndy in
  let posx := int_to_size_t rank mod npx in
  let posy := int_to_size_t rank / npx in
  let offsx := mul64 posx ndx in
  let offsy := mul64 posy ndy in
  mkGeometry gndx gndy offsx offsy ndx ndy.

(** [io.DefineVariable<float>("myArray", {gndx, gndy}, {offsx, offsy},
    {ndx, ndy}, adios2::ConstantDims)] *)
Definition myArray_var (gndx gndy : Z) : VariableDef :=
  mkVariable "myArray" TFloat [gndx; gndy].

(** The selection [{offsx, offsy}, {ndx, ndy}] of a block. *)
Definition geometry_selection (g : Geometry) : Selection :=
  mkSelection [g_offsx g; g_offsy g] [g_ndx g; g_ndy g].

(** [MainWriters]: the step loop.  In every step the rank fills [myArray]
    and puts it with the selection of the variable's definition; the
    result is the list of the payloads the rank contributed, one per
    step, in step order (the rank's k-th [BeginStep(Append)] opens step
    k).  A [Put] that fails ends the run of the rank. *)
Definition MainWriters_step (g : Geometry) (step : Z)
    (st : list float * result (list (StepPayload float)))
    : list float * result (list (StepPayload float)) :=
  let '(myArray, out) := st in
  let myArray' :=
    fill (g_gndx g) (g_gndy g) (g_offsx g) (g_offsy g) (g_ndx g) (g_ndy g)
         step myArray in
  (myArray',
   match out with
   | Ok q => Put (myArray_var (g_gndx g) (g_gndy g))
                 (geometry_selection g) myArray' q
   | Err e => Err e
   end).

(** [MainWriters(comm, npx, npy, steps, sleeptime)] of the writer [rank]:
    [std::vector<float> myArray(ndx * ndy)], then the step loop. *)
Definition MainWriters (npx npy rank steps : Z)
    : result (list (StepPayload float)) :=
  let g := writer_geometry npx npy rank in
  let myArray := replicate (Z.to_nat (mul64 (g_ndx g) (g_ndy g))) fzero in
  snd (for_range steps (MainWriters_step g) (myArray, Ok [])).

(** What the rank put in the step with sequence number [step], if it got
    that far. *)
Definition contribution (npx npy steps step rank : Z)
    : option (StepPayload float) :=
  match MainWriters npx npy rank steps with
  | Ok run => run !! Z.to_nat step
  | Err _ => None
  end.

(** The ranks of a communicator of [n] processes. *)
Definition ranks (n : Z) : list Z := Z.of_nat <$> seq 0 (Z.to_nat n).

(** Modelled from the spec: the step [step] of the stream once it is
    Sealed (section 3): the contributions of all [npx * npy] writer ranks.
    The step is not Sealed, and readers do not see it, unless every rank
    has contributed. *)
Definition sealed_step (npx npy steps step : Z)
    : option (list (StepPayload float)) :=
  mapM (contribution npx npy steps step) (ranks (npx * npy)).

(** The value [CheckData] expects for cell (j, i) of the block:
    [expectedValue = GetValue(gndx, gndy, offsx + j, offsy + i, step)]. *)
Definition expected_value (gndx gndy offsx offsy step j i : Z) : float :=
  GetValue gndx gndy (add64 offsx (int_to_size_t j))
           (add64 offsy (int_to_size_t i)) step.

(** The body of the two loops of [CheckData]; the state is [idx] and
    whether no exception has been thrown so far. *)
Definition check_cell (array : list float)
    (gndx gndy offsx offsy step j i : Z) (st : Z * bool) : Z * bool :=
  let '(idx, ok) := st in
  let expectedValue := expected_value gndx gndy offsx offsy step j i in
  let differs :=
    match load array idx with
    | Some received => fneb received expectedValue
    | None => true
    end in
  (wrap_int (idx + 1), ok && negb differs).

(** [CheckData]: [true] when it returns, [false] when it throws
    [std::ios_base::failure]. *)
Definition CheckData (array : list float)
    (gndx gndy offsx offsy ndx ndy step rank : Z) : bool :=
  snd (for_range ndx
         (fun j => for_range ndy
                     (check_cell array gndx gndy offsx offsy step j))
         (0, true)).

(** [MainReaders], "2D decomposition of global array reading":
    [ndx = gndx / npx], [ndy = gndy / npy], [offsx = ndx * posx],
    [offsy = ndy * posy], and the last rank along a dimension takes the
    rest.  With [npx = 0] or [npy = 0] the C++ division is undefined (here
    it yields 0). *)
Definition reader_geometry (gndx gndy npx npy rank : Z) : Geometry :=
  let posx := int_to_size_t rank mod npx in
  let posy := int_to_size_t rank / npx in
  let ndx := gndx / npx in
  let ndy := gndy / npy in
  let offsx := mul64 ndx posx in
  let offsy := mul64 ndy posy in
  let ndx :=
    if posx =? sub64 npx 1
    then sub64 gndx (mul64 ndx (sub64 npx 1)) (* all the rest of rows *)
    else ndx in
  let ndy :=
    if posy =? sub64 npy 1
    then sub64 gndy (mul64 ndy (sub64 npy 1)) (* all the rest of columns *)
    else ndy in
  mkGeometry gndx gndy offsx offsy ndx ndy.

(** The block of a rank holds the global coordinate (x, y). *)
Definition covers (g : Geometry) (x y : Z) : Prop :=
  g_offsx g <= x < g_offsx g + g_ndx g /\
  g_offsy g <= y < g_offsy g + g_ndy g.

(** What one pass of the reader's loop does once [BeginStep] has returned
    OK on a step with the given payloads: inquire the variable, compute
    the selection, resize the buffer, get, end the step, check. *)
Inductive ReadOutcome : Type :=
| Checked (myArray : list float)     (* [CheckData] returned *)
| CheckFailed (myArray : list float) (* [CheckData] threw *)
| MissingVariable                    (* "Missing 'myArray' variable." *)
| EngineError (e : Error).

(** Modelled from the spec: [io.InquireVariable<float>(name)] on the
    reader's side, the Lookup of section 4.1: the variable of that name as
    the payloads of the step declare it, [nullptr] ([None]) if there is
    none. *)
Definition InquireVariable (name : string)
    (payloads : list (StepPayload float)) : option VariableDef :=
  pl_var <$> head (filter (fun pl => var_name (pl_var pl) = name) payloads).

(** The body of the loop of [MainReaders] after [BeginStep] has returned
    OK, up to [CheckData]. *)
Definition reader_pass (npx npy rank step : Z)
    (payloads : list (StepPayload float)) (myArray : list float)
    : ReadOutcome :=
  match InquireVariable "myArray" payloads with
  | None => MissingVariable
  | Some vMyArray =>
      let gndx := nth 0 (var_shape vMyArray) 0 in
      let gndy := nth 1 (var_shape vMyArray) 0 in
      let g := reader_geometry gndx gndy npx npy rank in
      let elementsSize := mul64 (g_ndx g) (g_ndy g) in
      let myArray := resize (Z.to_nat elementsSize) fzero myArray in
      match Get vMyArray (geometry_selection g) payloads myArray with
      | Err e => EngineError e
      | Ok myArray =>
          if CheckData myArray gndx gndy (g_offsx g) (g_offsy g)
                       (g_ndx g) (g_ndy g) step rank
          then Checked myArray
          else CheckFailed myArray
      end
  end.

(** [TestCommon]: who does what.  [MPI_Comm_split(MPI_COMM_WORLD, color,
    wrank, &comm)] orders the ranks of a colour by [wrank]. *)
Definition nwriters (p : RunParams) : Z :=
  size_t_to_int (mul64 (npx_w p) (npy_w p)).
Definition nreaders (p : RunParams) : Z :=
  size_t_to_int (mul64 (npx_r p) (npy_r p)).

(** What [TestCommon] makes of a process of [MPI_COMM_WORLD]. *)
Inductive Role : Type :=
| Skipped            (* writers+readers > available processors *)
| Writer (rank : Z)
| Reader (rank : Z)
| NotParticipating.

(** [if (nwriters + nreaders > numprocs) return;] then the colours: the
    first [nwriters] processes write, the next [nreaders] read. *)
Definition TestCommon_role (p : RunParams) (numprocs wrank : Z) : Role :=
  if numprocs <? wrap_int (nwriters p + nreaders p) then Skipped
  else if wrank <? nwriters p then Writer wrank
  else if wrank <? wrap_int (nwriters p + nreaders p)
       then Reader (wrank - nwriters p)
  else NotParticipating.

(** The cell (j, i) of a buffer that holds the block of [g] carries the
    value of its global coordinate for the step. *)
Definition block_filled (g : Geometry) (step : Z) (buf : list float) : Prop :=
  Z.of_nat (length buf) = g_ndx g * g_ndy g /\
  forall j i, 0 <= j < g_ndx g -> 0 <= i < g_ndy g ->
    buf !! Z.to_nat (j * g_ndy g + i)
    = Some (GetValue (g_gndx g) (g_gndy g) (g_offsx g + j) (g_offsy g + i) step).

(** The value of a global coordinate in a step. *)
Definition cell_value (gndx gndy step : Z) (p : Dims) : float :=
  match p with
  | [x; y] => GetValue gndx gndy x y step
  | _ => fzero
  end.

(** The payloads of a sealed step, in any arrival order: each is the
    filled block of a writer rank, and every writer rank has its block
    among them. *)
Definition written_by (npx_w npy_w step : Z)
    (pls : list (StepPayload float)) : Prop :=
  (forall pl, pl ∈ pls ->
     exists wr, 0 <= wr < npx_w * npy_w /\
       exists buf,
         pl = mkPayload (myArray_var (npx_w * 50) (npy_w * 60))
                (geometry_selection (writer_geometry npx_w npy_w wr)) buf /\
         block_filled (writer_geometry npx_w npy_w wr) step buf) /\
  (forall wr, 0 <= wr < npx_w * npy_w ->
     exists pl, pl ∈ pls /\
       exists buf,
         pl = mkPayload (myArray_var (npx_w * 50) (npy_w * 60))
                (geometry_selection (writer_geometry npx_w npy_w wr)) buf /\
         block_filled (writer_geometry npx_w npy_w wr) step buf).

(** The decompositions of the test matrix, as (npx, npy), and the number
    of processes a set of parameters needs ([nwriters + nreaders]). *)
Definition writer_decompositions : list (Z * Z) :=
  (fun p => (npx_w p, npy_w p)) <$> CreateRunParams.
Definition reader_decompositions : list (Z * Z) :=
  (fun p => (npx_r p, npy_r p)) <$> CreateRunParams.
Definition total_processes (p : RunParams) : Z :=
  wrap_int (nwriters p + nreaders p).

(** The four [TEST_P]s: name, steps, writer sleep time, reader sleep
    time (milliseconds). *)
Record Scenario : Type := mkScenario
  { sc_name : string; sc_steps : Z;
    sc_writer_sleeptime : Z; sc_reader_sleeptime : Z }.

Definition scenarios : list Scenario :=
  [ mkScenario "SingleStep" 1 0 0;
    mkScenario "MultipleSteps" 10 0 0;
    mkScenario "SlowWriter" 5 500 0;
    mkScenario "SlowReader" 5 0 500 ].

(** [reader.BeginStep(adios2::StepMode::NextAvailable, 60.0f)] *)
Definition reader_timeout : Z := 60.

(** How a run of [MainReaders] ends. *)
Inductive RunResult : Type :=
| Finished (status : StepStatus) (trace : list (nat * Z)) (t : nat)
    (* the loop was left on a status other than OK, the reader closed *)
| Threw (o : ReadOutcome) (trace : list (nat * Z))
| LogicError (e : Error)
| OutOfFuel.

(** The [while (true)] loop of [MainReaders].  [pass k step myArray] is
    what the body does with the admitted step, whose sequence number is
    [k], and with the loop's counter [step]; [timeout] is the length of the
    60.0f of [BeginStep] and [sleeptime] the length of the loop's sleep, in
    ticks; [busy k] is the time the body takes on step [k].  [trace]
    records, for every admitted step, its sequence number and the value of
    the counter [step] that [CheckData] was called with. *)
Fixpoint MainReaders_loop (fuel : nat) (tl : Timeline)
    (pass : nat -> Z -> list float -> ReadOutcome)
    (timeout sleeptime : nat) (busy : nat -> nat)
    (now : nat) (reader : ReaderHandle) (step : Z) (myArray : list float)
    (trace : list (nat * Z)) : RunResult :=
  match fuel with
  | O => OutOfFuel
  | S fuel' =>
      match BeginStep NextAvailable timeout tl now reader with
      | Err e => LogicError e
      | Ok (OK, t, reader) =>
          let k := next_step reader in
          match pass k step myArray with
          | Checked myArray =>
              match EndStep reader with
              | Err e => LogicError e
              | Ok reader =>
                  MainReaders_loop fuel' tl pass timeout sleeptime busy
                    (t + busy k + sleeptime) reader (wrap_int (step + 1))
                    myArray (trace ++ [(k, step)])
              end
          | o => Threw o (trace ++ [(k, step)])
          end
      | Ok (status, t, reader) => Finished status trace t
      end
  end.

(** The trace of a run that admitted the steps with sequence numbers
    0, 1, ..., k-1, in this order and without a gap, the i-th of them with
    the counter [step] at i. *)
Definition in_order (k : nat) : list (nat * Z) :=
  (fun i => (i, Z.of_nat i)) <$> seq 0 k.

(** The writer is never more than [timeout] ticks late: the first step is
    sealed within [timeout] ticks of [prev], every next one within
    [timeout] ticks of the one before, and the stream is closed within
    [timeout] ticks of the last. *)
Fixpoint paced_from (timeout prev : nat) (seals : list nat)
    (close : option nat) : bool :=
  match seals with
  | ts :: seals' =>
      (ts <=? prev + timeout)%nat && paced_from timeout ts seals' close
  | [] =>
      match close with
      | Some tc => (tc <=? prev + timeout)%nat
      | None => false
      end
  end.

(** The same, counted from tick 0, where the reader starts. *)
Definition paced (timeout : nat) (tl : Timeline) : bool :=
  paced_from timeout 0 (seal_time tl) (close_time tl).

(** The body of the loop on the stream of a run with [npx_w] x [npy_w]
    writers and [steps] steps. *)
Definition harness_pass (npx_w npy_w steps npx npy rank : Z)
    (k : nat) (step : Z) (myArray : list float) : ReadOutcome :=
  match sealed_step npx_w npy_w steps (Z.of_nat k) with
  | Some payloads => reader_pass npx npy rank step payloads myArray
  | None => EngineError StreamUnavailable
  end.

(** [MainReaders(comm, npx, npy, sleeptime)] of the reader [rank], started
    at tick 0 with [int step = 0] and an empty [myArray].  [unit] is the
    number of ticks in one unit of the timeout of [BeginStep]. *)
Definition MainReaders (fuel : nat) (tl : Timeline)
    (npx_w npy_w steps npx npy rank : Z)
    (unit sleeptime : nat) (busy : nat -> nat) : RunResult :=
  MainReaders_loop fuel tl (harness_pass npx_w npy_w steps npx npy rank)
    (Z.to_nat reader_timeout * unit) sleeptime busy
    0 (mkReader Idle 0) 0 [] [].

End Harness.

(** ** The Python engine glue, EnginePy.h *)

Module EnginePy.
Import Engine.

(** [class VariablePy] is declared in VariablePy.h, which is not among the
    sources; these are the fields that EnginePy.h reads and writes.
    [m_VariablePtr] is a [void *]: an address, 0 for [nullptr]. *)
Record VariablePy : Type := mkVariablePy
  { m_Name : string;
    m_LocalDimensions : Dims;
    m_GlobalDimensions : Dims;
    m_GlobalOffsets : Dims;
    m_VariablePtr : Z;
    m_IsVariableDefined : bool }.

(** The data of a numpy array. *)
Abbreviation pyArray := (list Z).

(** [template <class T> void DefineVariableInADIOS(VariablePy &variable)]:
    [auto &var = m_ADIOSPy.DefineVariable<T>(variable.m_Name,
       variable.m_LocalDimensions, variable.m_GlobalDimensions,
       variable.m_GlobalOffsets);
     variable.m_VariablePtr = &var;
     variable.m_IsVariableDefined = true;]
    The state of [m_ADIOSPy] is its variable registry, and
    [ADIOSPy::DefineVariable], which is not among the sources, is the
    [DefineVariable] of the engine above; an exception of it leaves
    [variable] as it was. *)
Definition DefineVariableInADIOS (T : ElemType) (m_ADIOSPy : Registry)
    (variable : VariablePy) : result (Registry * VariablePy) :=
  match DefineVariable (m_Name variable) T (m_GlobalDimensions variable)
          (Some (mkSelection (m_GlobalOffsets variable)
                             (m_LocalDimensions variable)))
          m_ADIOSPy with
  | Ok (var, adios') =>
      Ok (adios',
          mkVariablePy (m_Name variable) (m_LocalDimensions variable)
                       (m_GlobalDimensions variable) (m_GlobalOffsets variable)
                       (Zpos var) true)
  | Err e => Err e
  end.

(** [*reinterpret_cast<Variable<T> *>(ptr)]: the object at the address,
    read as a [Variable<T>].  Defined only when the address is that of a
    registered variable of element type [T]; a null pointer, a stray
    address and an object of another element type are undefined
    behaviour ([None]). *)
Definition deref (T : ElemType) (m_ADIOSPy : Registry) (ptr : Z)
    : option VariableDef :=
  match ptr with
  | Zpos h =>
      match reg_objects m_ADIOSPy !! h with
      | Some v => if decide (var_type v = T) then Some v else None
      | None => None
      end
  | _ => None
  end.

(** [template <class T> void WriteVariableInADIOS(VariablePy &variable,
      const pyArray &array)]:
    [m_Engine->Write( *reinterpret_cast<Variable<T> *>(variable.m_VariablePtr),
                     PyArrayToPointer<T>(array));]
    [Engine::Write] is not among the sources: the engine is the list of
    the writes it has received.  There is no check of [m_VariablePtr] or
    [m_IsVariableDefined]. *)
Definition WriteVariableInADIOS (T : ElemType) (m_ADIOSPy : Registry)
    (m_Engine : list (VariableDef * pyArray))
    (variable : VariablePy) (array : pyArray)
    : option (list (VariableDef * pyArray)) :=
  match deref T m_ADIOSPy (m_VariablePtr variable) with
  | Some var => Some (m_Engine ++ [(var, array)])
  | None => None
  end.

End EnginePy.

Import CTypes F32 Engine Harness EnginePy.

(** C9. [GetValue] does not depend on its [gndy] argument. *)
Theorem GetValue_gndy_irrelevant :
  forall gndx gndy gndy' x y step,
    GetValue gndx gndy x y step = GetValue gndx gndy' x y step.
Proof. intros. reflexivity. Qed.


(** * Proofs *)

(** ** Machine arithmetic inside its range *)

Lemma wrap64_small z : 0 <= z < 2 ^ 64 -> wrap64 z = z.
Proof. intros H. unfold wrap64, SIZE_MOD. apply Z.mod_small. exact H. Qed.

Lemma wrap_int_small z : - 2 ^ 31 <= z <= INT_MAX -> wrap_int z = z.
Proof.
  unfold wrap_int, INT_MAX. intros H.
  rewrite Z.mod_small by lia. lia.
Qed.

Lemma INT_MAX_lt_size : INT_MAX < 2 ^ 64.
Proof. unfold INT_MAX. lia. Qed.

(** ** The loop rule for [for_range] *)

Section ForRange.
Context {S : Type}.
Variable P : Z -> S -> Prop.
Variable n : Z.
Variable body : Z -> S -> S.

Lemma for_range_prefix (s : S) (m : nat) :
  P 0 s ->
  (forall k t, 0 <= k < n -> P k t -> P (k + 1) (body k t)) ->
  (Z.of_nat m <= Z.max 0 n) ->
  P (Z.of_nat m)
    (fold_left (fun acc k => body (Z.of_nat k) acc) (seq 0 m) s).
Proof.
  intros H0 Hstep. induction m as [|m IH]; intros Hm.
  - exact H0.
  - rewrite seq_S, fold_left_app. simpl.
    replace (Z.of_nat (Datatypes.S m)) with (Z.of_nat m + 1) by lia.
    apply Hstep; [lia|]. apply IH. lia.
Qed.

Lemma for_range_inv (s : S) :
  P 0 s ->
  (forall k t, 0 <= k < n -> P k t -> P (k + 1) (body k t)) ->
  P (Z.max 0 n) (for_range n body s).
Proof.
  intros H0 Hstep. unfold for_range.
  replace (Z.max 0 n) with (Z.of_nat (Z.to_nat n)) by lia.
  apply for_range_prefix; auto. lia.
Qed.
End ForRange.

(** ** The writer's fill loop *)

Lemma store_length a idx v : length (store a idx v) = length a.
Proof. unfold store. destruct (idx <? 0); [reflexivity | apply length_insert]. Qed.

Lemma load_store_eq a idx v :
  0 <= idx < Z.of_nat (length a) -> load (store a idx v) idx = Some v.
Proof.
  intros H. unfold load, store.
  destruct (idx <? 0) eqn:E; [lia|].
  apply list_lookup_insert_eq. lia.
Qed.

Lemma load_store_ne a idx idx' v :
  0 <= idx -> idx <> idx' -> load (store a idx v) idx' = load a idx'.
Proof.
  intros H Hne. unfold load, store.
  destruct (idx' <? 0) eqn:E'; [reflexivity|].
  destruct (idx <? 0) eqn:E; [reflexivity|].
  apply list_lookup_insert_ne. lia.
Qed.

Section Fill.
Variables gndx gndy offsx offsy ndx ndy step : Z.
Variable a : list float.
Hypothesis Hndx : 0 <= ndx.
Hypothesis Hndy : 0 <= ndy.
Hypothesis Hint : ndx * ndy <= INT_MAX.
Hypothesis Hlen : Z.of_nat (length a) = ndx * ndy.

Let cell (j i : Z) : float :=
  GetValue gndx gndy (add64 offsx (int_to_size_t j))
           (add64 offsy (int_to_size_t i)) step.

Let filled (J I : Z) (st : Z * list float) : Prop :=
  st.1 = J * ndy + I /\ length st.2 = length a /\
  forall j i, (0 <= j < J /\ 0 <= i < ndy) \/ (j = J /\ 0 <= i < I) ->
              load st.2 (j * ndy + i) = Some (cell j i).

Lemma fill_row_inv J t :
  0 <= J < ndx -> filled J 0 t ->
  filled J ndy (for_range ndy (fill_cell gndx gndy offsx offsy step J) t).
Proof.
  intros HJ Ht.
  replace ndy with (Z.max 0 ndy) at 1 by lia.
  apply (for_range_inv (filled J)); [exact Ht|].
  intros I [idx arr] HI (Hidx & Hl & Hcells). simpl in *. subst idx.
  assert (Hpos : 0 <= J * ndy + I < ndx * ndy) by nia.
  repeat split; simpl.
  - rewrite wrap_int_small by (unfold INT_MAX in *; lia). lia.
  - rewrite store_length. exact Hl.
  - intros j i Hji.
    destruct (Z.eq_dec (j * ndy + i) (J * ndy + I)) as [E|E].
    + assert (j = J /\ i = I) as [-> ->] by nia.
      rewrite load_store_eq by lia. reflexivity.
    + rewrite load_store_ne by lia.
      apply Hcells. destruct Hji as [?|[-> ?]]; [left; lia|right].
      split; [reflexivity|]. assert (i <> I) by (intros ->; lia). lia.
Qed.

Lemma fill_inv :
  filled ndx 0
    (for_range ndx
       (fun j => for_range ndy (fill_cell gndx gndy offsx offsy step j))
       (0, a)).
Proof.
  replace ndx with (Z.max 0 ndx) at 1 by lia.
  apply (for_range_inv (fun J => filled J 0)).
  - split; [simpl; lia|]. split; [reflexivity|]. intros j i [?|?]; lia.
  - intros J t HJ Ht.
    pose proof (fill_row_inv J t HJ Ht) as (H1 & H2 & H3).
    repeat split.
    + rewrite H1. lia.
    + exact H2.
    + intros j i Hji. apply H3.
      destruct (Z.eq_dec j J) as [->|]; [right; lia|left; lia].
Qed.

Lemma fill_length :
  length (fill gndx gndy offsx offsy ndx ndy step a) = length a.
Proof. unfold fill. apply fill_inv. Qed.

Lemma fill_lookup j i :
  0 <= j < ndx -> 0 <= i < ndy ->
  fill gndx gndy offsx offsy ndx ndy step a !! Z.to_nat (j * ndy + i)
  = Some (GetValue gndx gndy (add64 offsx (int_to_size_t j))
                   (add64 offsy (int_to_size_t i)) step).
Proof.
  intros Hj Hi. unfold fill.
  destruct fill_inv as (_ & _ & H).
  specialize (H j i (or_introl (conj Hj Hi))).
  unfold load in H. destruct (j * ndy + i <? 0) eqn:E; [nia|]. exact H.
Qed.
End Fill.

(** ** The reader's check loop *)

Section CheckLoop.
Variables gndx gndy offsx offsy ndx ndy step rank : Z.
Variable array : list float.
Hypothesis Hndx : 0 <= ndx.
Hypothesis Hndy : 0 <= ndy.
Hypothesis Hint : ndx * ndy <= INT_MAX.

Let cell_ok (j i : Z) : Prop :=
  exists v, load array (j * ndy + i) = Some v /\
            feqb v (expected_value gndx gndy offsx offsy step j i) = true.

Let checked (J I : Z) (st : Z * bool) : Prop :=
  st.1 = J * ndy + I /\
  (st.2 = true <->
   forall j i, (0 <= j < J /\ 0 <= i < ndy) \/ (j = J /\ 0 <= i < I) ->
               cell_ok j i).

Lemma check_row_inv J t :
  0 <= J < ndx -> checked J 0 t ->
  checked J ndy
    (for_range ndy (check_cell array gndx gndy offsx offsy step J) t).
Proof.
  intros HJ Ht.
  replace ndy with (Z.max 0 ndy) at 1 by lia.
  apply (for_range_inv (checked J)); [exact Ht|].
  intros I [idx ok] HI (Hidx & Hok). simpl in *. subst idx.
  assert (Hpos : 0 <= J * ndy + I < ndx * ndy) by nia.
  split; simpl.
  - rewrite wrap_int_small by (unfold INT_MAX in *; lia). lia.
  - rewrite andb_true_iff, negb_true_iff, Hok. split.
    + intros [Hprev Hcur] j i Hji.
      destruct (Z.eq_dec j J) as [->|Hne].
      * destruct (Z.eq_dec i I) as [->|HneI].
        -- destruct (load array (J * ndy + I)) as [v|] eqn:E; [|discriminate].
           exists v. split; [exact E|].
           unfold fneb in Hcur. apply negb_false_iff in Hcur. exact Hcur.
        -- apply Hprev. destruct Hji as [?|?]; [left; lia|right; lia].
      * apply Hprev. left. lia.
    + intros Hall. split.
      * intros j i Hji. apply Hall. destruct Hji as [?|?]; [left|right]; lia.
      * destruct (Hall J I) as (v & -> & Hv); [right; lia|].
        simpl. unfold fneb. rewrite Hv. reflexivity.
Qed.

Lemma CheckData_spec :
  CheckData array gndx gndy offsx offsy ndx ndy step rank = true <->
  forall j i, 0 <= j < ndx -> 0 <= i < ndy ->
    exists v, load array (j * ndy + i) = Some v /\
              feqb v (expected_value gndx gndy offsx offsy step j i) = true.
Proof.
  unfold CheckData.
  assert (H : checked ndx 0
                (for_range ndx
                   (fun j => for_range ndy
                      (check_cell array gndx gndy offsx offsy step j))
                   (0, true))).
  { replace ndx with (Z.max 0 ndx) at 1 by lia.
    apply (for_range_inv (fun J => checked J 0)).
    - split; [simpl; lia|]. split; [|reflexivity]. intros _ j i [?|?]; lia.
    - intros J t HJ Ht.
      destruct (check_row_inv J t HJ Ht) as (H1 & H2).
      split; [rewrite H1; lia|]. rewrite H2. split.
      + intros Hall j i Hji. apply Hall.
        destruct (Z.eq_dec j J) as [->|]; [right; lia|left; lia].
      + intros Hall j i Hji. apply Hall.
        destruct Hji as [?|?]; [left; lia|lia]. }
  destruct H as (_ & ->). split.
  - intros Hall j i Hj Hi. apply Hall. left. lia.
  - intros Hall j i [[Hj Hi]|[_ ?]]; [apply Hall; assumption|lia].
Qed.
End CheckLoop.

(** ** binary32: the values of [GetValue] are never NaN *)

Section Float32.

Lemma feqb_refl s x : has_sign s x -> feqb x x = true.
Proof.
  unfold feqb, SFeqb. destruct x as [b|b| |b m e]; simpl; intros H.
  - reflexivity.
  - destruct b; reflexivity.
  - contradiction.
  - rewrite Z.compare_refl.
    change (Pos.compare_cont Eq m m) with (Pos.compare m m).
    rewrite Pos.compare_refl. destruct b; reflexivity.
Qed.

Lemma shr_1_nonneg mrs : 0 <= shr_m mrs -> 0 <= shr_m (shr_1 mrs).
Proof.
  destruct mrs as [m r s]. simpl.
  destruct m as [|p|p]; simpl; try lia; destruct p; simpl; lia.
Qed.

Lemma iter_shr_1_nonneg p :
  forall mrs, 0 <= shr_m mrs -> 0 <= shr_m (SpecFloat.iter_pos shr_1 p mrs).
Proof.
  induction p as [p IH|p IH|]; intros mrs H; simpl.
  - apply IH, IH, shr_1_nonneg, H.
  - apply IH, IH, H.
  - apply shr_1_nonneg, H.
Qed.

Lemma shr_fexp_nonneg m e l :
  0 <= m -> 0 <= shr_m (shr_fexp prec emax m e l).1.
Proof.
  intros H. unfold shr_fexp, shr.
  assert (H0 : 0 <= shr_m (shr_record_of_loc m l)).
  { destruct l as [|[]]; simpl; exact H. }
  destruct (fexp prec emax (Zdigits2 m + e) - e); simpl; try exact H0.
  apply iter_shr_1_nonneg, H0.
Qed.

Lemma round_nearest_even_nonneg m l : 0 <= m -> 0 <= round_nearest_even m l.
Proof.
  intros H. unfold round_nearest_even.
  destruct l as [|[]]; try lia. destruct (Z.even m); lia.
Qed.

Lemma binary_round_aux_sign s m e l :
  0 <= m -> has_sign s (binary_round_aux prec emax s m e l).
Proof.
  intros H. unfold binary_round_aux.
  pose proof (shr_fexp_nonneg m e l H) as H1.
  destruct (shr_fexp prec emax m e l) as [mrs' e']. simpl in H1.
  pose proof (round_nearest_even_nonneg (shr_m mrs') (loc_of_shr_record mrs') H1)
    as H2.
  pose proof (shr_fexp_nonneg _ e' loc_Exact H2) as H3.
  destruct (shr_fexp prec emax _ e' loc_Exact) as [mrs'' e'']. simpl in H3.
  destruct (shr_m mrs'') as [|q|q]; simpl; try reflexivity; try lia.
  destruct (e'' <=? emax - prec); reflexivity.
Qed.

Lemma binary_round_sign s m e : has_sign s (binary_round prec emax s m e).
Proof.
  unfold binary_round. destruct (shl_align m e _) as [mz ez].
  apply binary_round_aux_sign. lia.
Qed.

Lemma of_Z_sign z : 0 <= z -> has_sign false (of_Z z).
Proof.
  intros H. unfold of_Z, binary_normalize.
  destruct z as [|p|p]; [reflexivity|apply binary_round_sign|lia].
Qed.

Lemma fmul_f1000_sign s y : has_sign s y -> has_sign s (fmul f1000 y).
Proof.
  unfold fmul, f1000. destruct y as [b|b| |b m e]; simpl; try tauto.
  intros <-. apply binary_round_aux_sign. lia.
Qed.

Lemma fadd_sign x y :
  has_sign false x -> has_sign false y -> has_sign false (fadd x y).
Proof.
  unfold fadd.
  destruct x as [b|b| |b m e]; destruct y as [c|c| |c n f]; simpl;
    try tauto; intros -> ->; simpl; try reflexivity.
  apply binary_round_sign.
Qed.

Lemma fdiv_f1000_sign x : has_sign false x -> has_sign false (fdiv x f1000).
Proof.
  unfold fdiv, f1000.
  destruct x as [b|b| |b m e]; simpl; intros H; try contradiction; subst b;
    try reflexivity.
  unfold SFdiv_core_binary.
  set (e' := Z.min _ _).
  set (m' := match e - -14 - e' with Z0 => _ | Zpos _ => _ | Zneg _ => _ end).
  assert (Hm : 0 <= m').
  { subst m'. destruct (e - -14 - e'); try lia. apply Z.shiftl_nonneg. lia. }
  pose proof (Z.div_eucl_eq m' 16384000 ltac:(lia)) as Heq.
  pose proof (Z.mod_pos_bound m' 16384000 ltac:(lia)) as Hr.
  unfold Z.modulo in Hr.
  destruct (Z.div_eucl m' 16384000) as [q r].
  apply binary_round_aux_sign. nia.
Qed.

Lemma GetValue_sign gndx gndy offsx offsy step :
  0 <= step -> 0 <= offsy ->
  has_sign false (GetValue gndx gndy offsx offsy step).
Proof.
  intros Hs Hy. unfold GetValue.
  apply fadd_sign; [apply fadd_sign|].
  - apply fmul_f1000_sign, of_Z_sign, Hs.
  - apply of_Z_sign. unfold mul64, wrap64, SIZE_MOD.
    apply Z.mod_pos_bound. lia.
  - apply fdiv_f1000_sign, of_Z_sign, Hy.
Qed.

Lemma GetValue_feqb gndx gndy offsx offsy step :
  0 <= step -> 0 <= offsy ->
  feqb (GetValue gndx gndy offsx offsy step)
       (GetValue gndx gndy offsx offsy step) = true.
Proof. intros. eapply feqb_refl, GetValue_sign; assumption. Qed.

End Float32.

(** ** The reader's 2D decomposition *)

(** One dimension: [n] blocks of [g / n] elements over an extent [g], the
    last block taking the rest. *)
Section Blocks.
Variables g n : Z.
Hypothesis Hn : 1 <= n <= g.

Let b : Z := g / n.
Let off (k : Z) : Z := b * k.
Let cnt (k : Z) : Z := if k =? n - 1 then g - b * (n - 1) else b.

Lemma block_size_pos : 1 <= b /\ b * n <= g.
Proof.
  subst b. split.
  - apply Z.div_le_lower_bound; lia.
  - rewrite Z.mul_comm. apply Z.mul_div_le. lia.
Qed.

Lemma block_valid k : 0 <= k < n -> 0 <= off k /\ 0 < cnt k /\ off k + cnt k <= g.
Proof.
  intros Hk. pose proof block_size_pos as [Hb Hbn]. subst off cnt. simpl.
  destruct (k =? n - 1) eqn:E.
  - apply Z.eqb_eq in E. subst k. nia.
  - apply Z.eqb_neq in E. nia.
Qed.

Lemma block_unique k x :
  0 <= k < n -> off k <= x < off k + cnt k -> k = Z.min (x / b) (n - 1).
Proof.
  intros Hk Hx. pose proof block_size_pos as [Hb Hbn]. subst off cnt.
  simpl in Hx.
  destruct (k =? n - 1) eqn:E.
  - apply Z.eqb_eq in E. subst k.
    assert (n - 1 <= x / b) by (apply Z.div_le_lower_bound; lia). lia.
  - apply Z.eqb_neq in E.
    assert (x / b = k); [|lia].
    symmetry. apply (Z.div_unique x b k (x - b * k)); lia.
Qed.

Lemma block_exists x :
  0 <= x < g ->
  let k := Z.min (x / b) (n - 1) in
  0 <= k < n /\ off k <= x < off k + cnt k.
Proof.
  intros Hx k. pose proof block_size_pos as [Hb Hbn].
  assert (Hq : 0 <= x / b) by (apply Z.div_pos; lia).
  assert (Hlo : b * (x / b) <= x) by (apply Z.mul_div_le; lia).
  assert (Hhi : x < b * (x / b) + b).
  { pose proof (Z.mod_pos_bound x b ltac:(lia)).
    pose proof (Z.div_mod x b ltac:(lia)). lia. }
  subst k off cnt. simpl. split; [lia|].
  destruct (Z.min (x / b) (n - 1) =? n - 1) eqn:E.
  - apply Z.eqb_eq in E. rewrite E. nia.
  - apply Z.eqb_neq in E. replace (Z.min (x / b) (n - 1)) with (x / b) by lia.
    lia.
Qed.
End Blocks.

Lemma rank_position npx npy rank :
  1 <= npx -> 0 <= rank < npx * npy ->
  0 <= rank mod npx < npx /\ 0 <= rank / npx < npy /\
  rank = rank / npx * npx + rank mod npx.
Proof.
  intros Hx Hr.
  pose proof (Z.mod_pos_bound rank npx ltac:(lia)).
  pose proof (Z.div_mod rank npx ltac:(lia)).
  assert (0 <= rank / npx) by (apply Z.div_pos; lia).
  assert (rank / npx < npy) by (apply Z.div_lt_upper_bound; lia).
  lia.
Qed.

Lemma reader_geometry_eq gndx gndy npx npy rank :
  1 <= npx -> 1 <= npy -> 0 <= gndx < 2 ^ 64 -> 0 <= gndy < 2 ^ 64 ->
  0 <= rank < npx * npy -> npx * npy <= INT_MAX ->
  reader_geometry gndx gndy npx npy rank =
  mkGeometry gndx gndy
    (gndx / npx * (rank mod npx)) (gndy / npy * (rank / npx))
    (if rank mod npx =? npx - 1
     then gndx - gndx / npx * (npx - 1) else gndx / npx)
    (if rank / npx =? npy - 1
     then gndy - gndy / npy * (npy - 1) else gndy / npy).
Proof.
  intros Hx Hy Hgx Hgy Hr Hn.
  destruct (rank_position npx npy rank Hx Hr) as (Hpx & Hpy & _).
  assert (Hbx : 0 <= gndx / npx /\ gndx / npx * npx <= gndx).
  { split; [apply Z.div_pos; lia|].
    rewrite Z.mul_comm. apply Z.mul_div_le. lia. }
  assert (Hby : 0 <= gndy / npy /\ gndy / npy * npy <= gndy).
  { split; [apply Z.div_pos; lia|].
    rewrite Z.mul_comm. apply Z.mul_div_le. lia. }
  pose proof INT_MAX_lt_size as Hi.
  assert (Hrk : wrap64 rank = rank) by (apply wrap64_small; lia).
  unfold reader_geometry, int_to_size_t, mul64, sub64. rewrite Hrk.
  rewrite (wrap64_small (npx - 1)) by nia.
  rewrite (wrap64_small (npy - 1)) by nia.
  rewrite (wrap64_small (gndx / npx * (rank mod npx))) by nia.
  rewrite (wrap64_small (gndy / npy * (rank / npx))) by nia.
  rewrite (wrap64_small (gndx / npx * (npx - 1))) by nia.
  rewrite (wrap64_small (gndy / npy * (npy - 1))) by nia.
  rewrite (wrap64_small (gndx - _)) by nia.
  rewrite (wrap64_small (gndy - _)) by nia.
  reflexivity.
Qed.

(** C7. For a reader decomposition npx x npy with 1 <= npx <= gndx and
    1 <= npy <= gndy (extents are [size_t] values, the number of ranks an
    [int]), the selection every reader rank computes has strictly positive
    counts and stays inside the global shape, the selections of two
    different ranks share no coordinate, and every coordinate of the
    gndx x gndy array lies in the selection of some rank. *)
Theorem reader_selections_tile gndx gndy npx npy :
  1 <= npx <= gndx -> 1 <= npy <= gndy ->
  gndx < 2 ^ 64 -> gndy < 2 ^ 64 -> npx * npy <= INT_MAX ->
  (forall rank, 0 <= rank < npx * npy ->
     let g := reader_geometry gndx gndy npx npy rank in
     0 <= g_offsx g /\ 0 <= g_offsy g /\ 0 < g_ndx g /\ 0 < g_ndy g /\
     g_offsx g + g_ndx g <= gndx /\ g_offsy g + g_ndy g <= gndy /\
     valid_selection [gndx; gndy] (geometry_selection g) = true) /\
  (forall r1 r2 x y,
     0 <= r1 < npx * npy -> 0 <= r2 < npx * npy ->
     covers (reader_geometry gndx gndy npx npy r1) x y ->
     covers (reader_geometry gndx gndy npx npy r2) x y -> r1 = r2) /\
  (forall x y, 0 <= x < gndx -> 0 <= y < gndy ->
     exists rank, 0 <= rank < npx * npy /\
                  covers (reader_geometry gndx gndy npx npy rank) x y).
Proof.
  intros Hx Hy Hgx Hgy Hn. split; [|split].
  - intros rank Hr g. subst g.
    rewrite reader_geometry_eq by lia. simpl.
    destruct (rank_position npx npy rank ltac:(lia) Hr) as (Hpx & Hpy & _).
    pose proof (block_valid gndx npx Hx (rank mod npx) Hpx) as Bx.
    pose proof (block_valid gndy npy Hy (rank / npx) Hpy) as By.
    simpl in Bx, By. destruct Bx as (? & ? & ?), By as (? & ? & ?).
    unfold valid_selection. simpl.
    repeat split; try assumption.
    repeat (apply andb_true_intro; split); try reflexivity;
      try (apply Z.leb_le; assumption); apply Z.ltb_lt; assumption.
  - intros r1 r2 x y H1 H2. rewrite !reader_geometry_eq by lia.
    unfold covers. simpl. intros [Cx1 Cy1] [Cx2 Cy2].
    destruct (rank_position npx npy r1 ltac:(lia) H1) as (Hpx1 & Hpy1 & E1).
    destruct (rank_position npx npy r2 ltac:(lia) H2) as (Hpx2 & Hpy2 & E2).
    pose proof (block_unique gndx npx Hx _ x Hpx1 Cx1) as Ux1.
    pose proof (block_unique gndx npx Hx _ x Hpx2 Cx2) as Ux2.
    pose proof (block_unique gndy npy Hy _ y Hpy1 Cy1) as Uy1.
    pose proof (block_unique gndy npy Hy _ y Hpy2 Cy2) as Uy2.
    simpl in Ux1, Ux2, Uy1, Uy2.
    rewrite <- Ux2 in Ux1. rewrite <- Uy2 in Uy1.
    rewrite Ux1, Uy1 in E1. lia.
  - intros x y Hxr Hyr.
    destruct (block_exists gndx npx Hx x Hxr) as (Kx & Cx).
    destruct (block_exists gndy npy Hy y Hyr) as (Ky & Cy).
    set (kx := Z.min (x / (gndx / npx)) (npx - 1)) in *.
    set (ky := Z.min (y / (gndy / npy)) (npy - 1)) in *.
    assert (Hmod : (ky * npx + kx) mod npx = kx).
    { rewrite Z.add_comm, Z.mod_add by lia. apply Z.mod_small. lia. }
    assert (Hdiv : (ky * npx + kx) / npx = ky).
    { rewrite Z.add_comm, Z.div_add by lia. rewrite Z.div_small by lia. lia. }
    exists (ky * npx + kx). split; [nia|].
    rewrite reader_geometry_eq by nia.
    unfold covers. simpl. rewrite Hmod, Hdiv. split; assumption.
Qed.

(** ** The writer's run *)

Lemma writer_geometry_eq npx npy rank :
  1 <= npx -> 1 <= npy -> 0 <= rank < npx * npy -> npx * npy <= INT_MAX ->
  writer_geometry npx npy rank =
  mkGeometry (npx * 50) (npy * 60)
             (rank mod npx * 50) (rank / npx * 60) 50 60.
Proof.
  intros Hx Hy Hr Hn.
  destruct (rank_position npx npy rank Hx Hr) as (Hpx & Hpy & _).
  pose proof INT_MAX_lt_size as Hi.
  assert (Hrk : wrap64 rank = rank) by (apply wrap64_small; lia).
  assert (Hnx : npx <= INT_MAX) by nia.
  assert (Hny : npy <= INT_MAX) by nia.
  unfold writer_geometry, int_to_size_t, mul64, w_ndx, w_ndy. rewrite Hrk.
  unfold INT_MAX in *.
  rewrite !wrap64_small by lia. reflexivity.
Qed.

Lemma fill_block_filled g step a :
  0 <= g_ndx g -> 0 <= g_ndy g -> g_ndx g * g_ndy g <= INT_MAX ->
  0 <= g_offsx g -> 0 <= g_offsy g ->
  g_offsx g + g_ndx g < 2 ^ 64 -> g_offsy g + g_ndy g < 2 ^ 64 ->
  Z.of_nat (length a) = g_ndx g * g_ndy g ->
  block_filled g step
    (fill (g_gndx g) (g_gndy g) (g_offsx g) (g_offsy g) (g_ndx g) (g_ndy g)
          step a).
Proof.
  intros Hx Hy Hint Hox Hoy Hbx Hby Hlen. split.
  - rewrite fill_length by assumption. exact Hlen.
  - intros j i Hj Hi. rewrite fill_lookup by assumption.
    unfold add64, int_to_size_t.
    rewrite (wrap64_small j), (wrap64_small i) by lia.
    rewrite !wrap64_small by lia. reflexivity.
Qed.

Lemma MainWriters_payloads npx npy rank steps :
  1 <= npx -> 1 <= npy -> 0 <= rank < npx * npy -> npx * npy <= INT_MAX ->
  0 <= steps ->
  let g := writer_geometry npx npy rank in
  exists pls,
    MainWriters npx npy rank steps = Ok pls /\
    Z.of_nat (length pls) = steps /\
    forall k, 0 <= k < steps ->
      exists buf,
        pls !! Z.to_nat k
        = Some (mkPayload (myArray_var (g_gndx g) (g_gndy g))
                          (geometry_selection g) buf) /\
        block_filled g k buf.
Proof.
  intros Hx Hy Hr Hn Hs g. subst g.
  destruct (rank_position npx npy rank Hx Hr) as (Hpx & Hpy & _).
  assert (Hnx : npx <= INT_MAX) by nia.
  assert (Hny : npy <= INT_MAX) by nia.
  unfold MainWriters. rewrite writer_geometry_eq by assumption.
  set (g := mkGeometry (npx * 50) (npy * 60)
                       (rank mod npx * 50) (rank / npx * 60) 50 60).
  set (Inv := fun (K : Z) (st : list float * result (list (StepPayload float))) =>
    Z.of_nat (length st.1) = g_ndx g * g_ndy g /\
    exists pls, st.2 = Ok pls /\ Z.of_nat (length pls) = K /\
      forall k, 0 <= k < K ->
        exists buf,
          pls !! Z.to_nat k
          = Some (mkPayload (myArray_var (g_gndx g) (g_gndy g))
                            (geometry_selection g) buf) /\
          block_filled g k buf).
  assert (HInv : Inv (Z.max 0 steps)
            (for_range steps (MainWriters_step g)
               (replicate (Z.to_nat (mul64 (g_ndx g) (g_ndy g))) fzero, Ok []))).
  { apply (for_range_inv Inv).
    - split.
      + reflexivity.
      + exists []. repeat split. intros k Hk. lia.
    - intros K [arr out] HK (Hlen & pls & Hout & Hpl & Hcells).
      simpl in Hlen, Hout. subst out.
      assert (Hfilled : block_filled g K
        (fill (g_gndx g) (g_gndy g) (g_offsx g) (g_offsy g)
              (g_ndx g) (g_ndy g) K arr)).
      { apply fill_block_filled; simpl; unfold INT_MAX in *; lia. }
      assert (Hvalid : valid_selection
                (var_shape (myArray_var (g_gndx g) (g_gndy g)))
                (geometry_selection g) = true).
      { unfold valid_selection. simpl.
        repeat (apply andb_true_intro; split); try reflexivity;
          try apply Z.leb_le; try apply Z.ltb_lt; lia. }
      unfold MainWriters_step, Put. rewrite Hvalid.
      split.
      + apply Hfilled.
      + eexists. split; [reflexivity|]. split.
        * rewrite length_app. simpl. lia.
        * intros k Hk. destruct (Z.eq_dec k K) as [->|Hne].
          -- eexists. split; [|exact Hfilled].
             replace (Z.to_nat K) with (length pls + 0)%nat by lia.
             rewrite lookup_app_r by lia.
             replace (length pls + 0 - length pls)%nat with 0%nat by lia.
             reflexivity.
          -- destruct (Hcells k ltac:(lia)) as (buf & Hb & Hf).
             exists buf. split; [|exact Hf].
             rewrite lookup_app_l by lia. exact Hb. }
  destruct HInv as (_ & pls & Hout & Hlen & Hcells).
  exists pls. rewrite Z.max_r in * by lia. repeat split; assumption.
Qed.

(** ** Regions, their points and the row-major linearization *)

Lemma range_spec o c x : x ∈ range o c <-> o <= x < o + c.
Proof.
  unfold range. rewrite list_elem_of_fmap. split.
  - intros (k & -> & Hk). apply list_elem_of_In, in_seq in Hk. lia.
  - intros H. exists (Z.to_nat (x - o)). split; [lia|].
    apply list_elem_of_In, in_seq. lia.
Qed.

Lemma points_in_box b : forall p, p ∈ points b <-> in_box b p.
Proof.
  unfold in_box. induction b as [|[o c] b IH]; intros p; simpl.
  - rewrite list_elem_of_singleton. split.
    + intros ->. constructor.
    + intros H. inversion H. reflexivity.
  - rewrite list_elem_of_In, in_flat_map. split.
    + intros (x & Hx & Hp).
      apply list_elem_of_In, list_elem_of_fmap in Hp as (p' & -> & Hp').
      constructor; [|apply IH, Hp'].
      apply list_elem_of_In, range_spec in Hx. exact Hx.
    + intros H. inversion H as [|oc x b' p' Hx Hp']; subst.
      exists x. split.
      * apply list_elem_of_In, range_spec. exact Hx.
      * apply list_elem_of_In, list_elem_of_fmap.
        exists p'. split; [reflexivity|]. apply IH, Hp'.
Qed.

Lemma linearize_split b p :
  in_box b p ->
  forall acc, linearize b p acc = acc * volume b + linearize b p 0 /\
              0 <= linearize b p 0 < volume b.
Proof.
  unfold in_box. induction 1 as [|[o c] x b p Hx Hp IH]; intros acc.
  - simpl. lia.
  - simpl in Hx. cbn [linearize volume fold_right snd].
    fold (volume b).
    destruct (IH (acc * c + (x - o))) as [E1 B].
    destruct (IH (0 * c + (x - o))) as [E0 _].
    rewrite E1, E0. split; [ring|]. nia.
Qed.

Lemma linearize_bound b p :
  in_box b p -> 0 <= linearize b p 0 < volume b.
Proof. intros H. apply (linearize_split b p H 0). Qed.

Lemma linearize_inj b p :
  in_box b p -> forall q, in_box b q ->
  linearize b p 0 = linearize b q 0 -> p = q.
Proof.
  unfold in_box. induction 1 as [|[o c] x b p Hx Hp IH]; intros q Hq E.
  - inversion Hq. reflexivity.
  - inversion Hq as [|oc y b' q' Hy Hq']; subst. simpl in Hx, Hy.
    cbn [linearize] in E.
    destruct (linearize_split b p Hp (0 * c + (x - o))) as [Ep Bp].
    destruct (linearize_split b q' Hq' (0 * c + (y - o))) as [Eq Bq].
    rewrite Ep, Eq in E.
    assert (x = y) by nia. subst y.
    f_equal. apply IH; [assumption|lia].
Qed.

Lemma in_box_intersect s r p :
  length s = length r ->
  in_box (intersect s r) p <-> in_box s p /\ in_box r p.
Proof.
  unfold in_box, intersect. revert r p.
  induction s as [|[a n] s IH]; intros [|[b m] r] p Hlen; simpl in Hlen;
    try discriminate.
  - simpl. split.
    + intros H. inversion H. split; constructor.
    + intros [H _]. exact H.
  - simpl. split.
    + intros H. inversion H as [|oc x s' p' Hx Hp']; subst. simpl in Hx.
      apply IH in Hp' as [Hs Hr]; [|lia].
      split; constructor; simpl; try assumption; lia.
    + intros [Hs Hr].
      inversion Hs as [|oc x s' p' Hx Hp']; subst.
      inversion Hr as [|oc' x' r' p'' Hx' Hp'']; subst. simpl in Hx, Hx'.
      constructor; [simpl; lia|]. apply IH; [lia|]. split; assumption.
Qed.

Lemma in_box_nonempty b p : in_box b p -> nonempty b = true.
Proof.
  unfold in_box, nonempty. induction 1 as [|[o c] x b p Hx Hp IH]; simpl.
  - reflexivity.
  - simpl in Hx. rewrite IH, andb_true_r. apply Z.ltb_lt. lia.
Qed.

(** ** The redistribution *)

Section Copy.
Context {A : Type}.
Variables r s : Box.
Variable src : list A.

Lemma copy_element_length dst p :
  length (copy_element r s src dst p) = length dst.
Proof.
  unfold copy_element. destruct (src !! _); [apply length_insert|reflexivity].
Qed.

Lemma fold_copy_length ps : forall dst,
  length (fold_left (copy_element r s src) ps dst) = length dst.
Proof.
  induction ps as [|p ps IH]; intros dst; simpl; [reflexivity|].
  rewrite IH. apply copy_element_length.
Qed.

Lemma fold_copy_lookup ps dst q :
  (forall p, p ∈ ps ->
     in_box r p /\ is_Some (src !! Z.to_nat (linearize s p 0))) ->
  in_box r q -> Z.of_nat (length dst) = volume r ->
  (q ∈ ps ->
   fold_left (copy_element r s src) ps dst !! Z.to_nat (linearize r q 0)
   = src !! Z.to_nat (linearize s q 0)) /\
  (q ∉ ps ->
   fold_left (copy_element r s src) ps dst !! Z.to_nat (linearize r q 0)
   = dst !! Z.to_nat (linearize r q 0)).
Proof.
  intros Hps Hq Hlen. pose proof (linearize_bound r q Hq) as Bq.
  induction ps as [|p ps IH] using rev_ind.
  - split; [intros H; inversion H|reflexivity].
  - rewrite fold_left_app. simpl.
    assert (Hps' : forall p', p' ∈ ps ->
              in_box r p' /\ is_Some (src !! Z.to_nat (linearize s p' 0))).
    { intros p' Hp'. apply Hps, elem_of_app. left. exact Hp'. }
    specialize (IH Hps') as [IHin IHout].
    destruct (Hps p) as [Hp [v Hv]].
    { apply elem_of_app. right. apply list_elem_of_singleton. reflexivity. }
    pose proof (linearize_bound r p Hp) as Bp.
    unfold copy_element at 1 3. rewrite Hv.
    destruct (decide (p = q)) as [->|Hne].
    + rewrite list_lookup_insert_eq by (rewrite fold_copy_length; lia).
      split; [intros _; symmetry; exact Hv|].
      intros H. exfalso. apply H, elem_of_app. right.
      apply list_elem_of_singleton. reflexivity.
    + assert (Hlin : Z.to_nat (linearize r p 0) <> Z.to_nat (linearize r q 0)).
      { intros E. apply Hne. apply (linearize_inj r p Hp q Hq). lia. }
      rewrite list_lookup_insert_ne by exact Hlin.
      split; intros H.
      * apply IHin. apply elem_of_app in H as [H|H]; [exact H|].
        apply list_elem_of_singleton in H. congruence.
      * apply IHout. intros H'. apply H, elem_of_app. left. exact H'.
Qed.

Lemma copy_region_length dst : length (copy_region r s src dst) = length dst.
Proof. apply fold_copy_length. Qed.

Hypothesis Hrank : length s = length r.
Hypothesis Hsrc :
  forall p, in_box s p -> is_Some (src !! Z.to_nat (linearize s p 0)).

Lemma copy_region_lookup dst q :
  in_box r q -> Z.of_nat (length dst) = volume r ->
  (in_box s q ->
   copy_region r s src dst !! Z.to_nat (linearize r q 0)
   = src !! Z.to_nat (linearize s q 0)) /\
  (~ in_box s q ->
   copy_region r s src dst !! Z.to_nat (linearize r q 0)
   = dst !! Z.to_nat (linearize r q 0)).
Proof.
  intros Hq Hlen. unfold copy_region.
  destruct (fold_copy_lookup (points (intersect s r)) dst q) as [Hin Hout];
    try assumption.
  { intros p Hp. apply points_in_box, in_box_intersect in Hp as [Hs Hr];
      [|exact Hrank]. split; [exact Hr|apply Hsrc, Hs]. }
  split; intros H.
  - apply Hin, points_in_box, in_box_intersect; [exact Hrank|]. split; assumption.
  - apply Hout. intros H'. apply H.
    apply points_in_box, in_box_intersect in H' as [Hs _]; [exact Hs|exact Hrank].
Qed.
End Copy.

Section Redistribute.
Context {A : Type}.
Variable v : VariableDef.
Variable r : Selection.
Variable value : Dims -> A.

Lemma redistribute_length (payloads : list (StepPayload A)) (dst : list A) :
  length (redistribute v r payloads dst) = length dst.
Proof.
  unfold redistribute. generalize (filter (fun pl => intersecting v r pl = true) payloads).
  intros l. revert dst. induction l as [|pl l IH]; intros dst; simpl.
  - reflexivity.
  - rewrite IH. apply copy_region_length.
Qed.

Lemma fold_payloads_lookup (pls : list (StepPayload A)) (dst : list A) q :
  (forall pl, pl ∈ pls -> consistent r value pl) ->
  in_box (box_of r) q -> Z.of_nat (length dst) = volume (box_of r) ->
  (exists pl, pl ∈ pls /\ in_box (box_of (pl_sel pl)) q) ->
  fold_left (fun d pl => copy_region (box_of r) (box_of (pl_sel pl)) (pl_buf pl) d)
            pls dst !! Z.to_nat (linearize (box_of r) q 0) = Some (value q).
Proof.
  intros Hcons Hq Hlen.
  induction pls as [|pl0 pls IH] using rev_ind; intros (pl & Hpl & Hcov).
  - inversion Hpl.
  - rewrite fold_left_app. simpl.
    destruct (Hcons pl0) as [Hrank Hbuf].
    { apply elem_of_app. right. apply list_elem_of_singleton. reflexivity. }
    assert (Hlen' : forall l, Z.of_nat (length (fold_left
              (fun d pl => copy_region (box_of r) (box_of (pl_sel pl)) (pl_buf pl) d)
              l dst)) = volume (box_of r)).
    { intros l. rewrite <- Hlen. f_equal. clear. revert dst.
      induction l as [|x l IHl]; intros dst; simpl; [reflexivity|].
      rewrite IHl. apply copy_region_length. }
    destruct (copy_region_lookup (box_of r) (box_of (pl_sel pl0)) (pl_buf pl0)
                Hrank (fun p Hp => ex_intro _ _ (Hbuf p Hp)) _ q Hq (Hlen' pls))
      as [Hin Hout].
    destruct (decide (in_box (box_of (pl_sel pl0)) q)) as [Hc|Hnc].
    + rewrite Hin by exact Hc. apply Hbuf, Hc.
    + rewrite Hout by exact Hnc. apply IH.
      * intros pl' Hpl'. apply Hcons, elem_of_app. left. exact Hpl'.
      * exists pl. split; [|exact Hcov].
        apply elem_of_app in Hpl as [H|H]; [exact H|].
        apply list_elem_of_singleton in H. subst pl. contradiction.
Qed.

Lemma redistribute_lookup (payloads : list (StepPayload A)) (dst : list A) q :
  (forall pl, pl ∈ payloads -> var_name (pl_var pl) = var_name v ->
              consistent r value pl) ->
  in_box (box_of r) q -> Z.of_nat (length dst) = volume (box_of r) ->
  (exists pl, pl ∈ payloads /\ var_name (pl_var pl) = var_name v /\
              in_box (box_of (pl_sel pl)) q) ->
  redistribute v r payloads dst !! Z.to_nat (linearize (box_of r) q 0)
  = Some (value q).
Proof.
  intros Hcons Hq Hlen (pl & Hpl & Hname & Hcov). unfold redistribute.
  apply fold_payloads_lookup; try assumption.
  - intros pl' Hpl'. apply list_elem_of_filter in Hpl' as [Hint Hin].
    apply Hcons; [exact Hin|].
    unfold intersecting in Hint. apply andb_true_iff in Hint as [Hn _].
    apply bool_decide_eq_true in Hn. exact Hn.
  - exists pl. split; [|exact Hcov].
    apply list_elem_of_filter. split; [|exact Hpl].
    unfold intersecting. apply andb_true_iff. split.
    + apply bool_decide_eq_true. exact Hname.
    + apply (in_box_nonempty _ q), in_box_intersect.
      * apply (Hcons pl Hpl Hname).
      * split; assumption.
Qed.
End Redistribute.

(** ** A sealed step of the harness *)

Lemma ranks_spec n rank : rank ∈ ranks n <-> 0 <= rank < n.
Proof.
  unfold ranks. rewrite list_elem_of_fmap. split.
  - intros (k & -> & Hk). apply list_elem_of_In, in_seq in Hk. lia.
  - intros H. exists (Z.to_nat rank). split; [lia|].
    apply list_elem_of_In, in_seq. lia.
Qed.

Section SealedStep.
Variables npx npy steps step : Z.
Hypothesis Hx : 1 <= npx.
Hypothesis Hy : 1 <= npy.
Hypothesis Hn : npx * npy <= INT_MAX.
Hypothesis Hstep : 0 <= step < steps.

Lemma contribution_spec rank :
  0 <= rank < npx * npy ->
  let g := writer_geometry npx npy rank in
  exists buf,
    contribution npx npy steps step rank
    = Some (mkPayload (myArray_var (g_gndx g) (g_gndy g))
                      (geometry_selection g) buf) /\
    block_filled g step buf.
Proof.
  intros Hr g.
  destruct (MainWriters_payloads npx npy rank steps Hx Hy Hr Hn ltac:(lia))
    as (pls & Hrun & _ & Hk).
  destruct (Hk step Hstep) as (buf & Hb & Hf).
  exists buf. unfold contribution. rewrite Hrun. split; assumption.
Qed.

Lemma sealed_step_spec :
  exists contribs,
    sealed_step npx npy steps step = Some contribs /\
    (forall pl, pl ∈ contribs ->
       exists rank, 0 <= rank < npx * npy /\
                    contribution npx npy steps step rank = Some pl) /\
    (forall rank, 0 <= rank < npx * npy ->
       exists pl, pl ∈ contribs /\
                  contribution npx npy steps step rank = Some pl).
Proof.
  unfold sealed_step.
  destruct (mapM (contribution npx npy steps step) (ranks (npx * npy)))
    as [contribs|] eqn:E.
  - exists contribs. split; [reflexivity|].
    apply mapM_Some_1 in E. split.
    + intros pl Hpl. apply list_elem_of_lookup in Hpl as [i Hi].
      destruct (Forall2_lookup_r _ _ _ _ _ E Hi) as (rank & Hrk & Hc).
      exists rank. split; [|exact Hc].
      apply ranks_spec. eapply list_elem_of_lookup_2, Hrk.
    + intros rank Hr. apply ranks_spec, list_elem_of_lookup in Hr as [i Hi].
      destruct (Forall2_lookup_l _ _ _ _ _ E Hi) as (pl & Hpl & Hc).
      exists pl. split; [|exact Hc].
      eapply list_elem_of_lookup_2, Hpl.
  - exfalso. apply mapM_None_1, Exists_exists in E as (rank & Hr & Hnone).
    apply ranks_spec in Hr.
    destruct (contribution_spec rank Hr) as (buf & Hc & _).
    rewrite Hc in Hnone. discriminate.
Qed.
End SealedStep.

(** ** One pass of the reader over a sealed step *)

Lemma block_inside g n k :
  1 <= n -> 0 <= g -> 0 <= k < n ->
  let b := g / n in
  let cnt := if k =? n - 1 then g - b * (n - 1) else b in
  0 <= b * k /\ 0 <= cnt /\ b * k + cnt <= g /\
  (n <= g -> 0 < cnt).
Proof.
  intros Hn Hg Hk b cnt.
  assert (Hb : 0 <= b) by (apply Z.div_pos; lia).
  assert (Hbn : b * n <= g) by (subst b; rewrite Z.mul_comm; apply Z.mul_div_le; lia).
  assert (Hpos : n <= g -> 1 <= b) by (intros; apply Z.div_le_lower_bound; lia).
  subst cnt. destruct (k =? n - 1) eqn:E.
  - apply Z.eqb_eq in E. subst k. repeat split; nia.
  - apply Z.eqb_neq in E. repeat split; nia.
Qed.

Lemma in_box_2d ox cx oy cy p :
  in_box [(ox, cx); (oy, cy)] p <->
  exists x y, p = [x; y] /\ ox <= x < ox + cx /\ oy <= y < oy + cy.
Proof.
  unfold in_box. split.
  - intros H. inversion H as [|? x ? p1 Hx H1]; subst.
    inversion H1 as [|? y ? p2 Hy H2]; subst. inversion H2; subst.
    exists x, y. simpl in *. auto.
  - intros (x & y & -> & Hx & Hy).
    constructor. { simpl. lia. }
    constructor. { simpl. lia. }
    constructor.
Qed.

Lemma block_filled_consistent g step buf r :
  length (box_of r) = 2%nat -> 0 <= g_ndy g ->
  block_filled g step buf ->
  consistent r (cell_value (g_gndx g) (g_gndy g) step)
    (mkPayload (myArray_var (g_gndx g) (g_gndy g)) (geometry_selection g) buf).
Proof.
  intros Hr Hndy [Hlen Hcells]. split; [rewrite Hr; reflexivity|].
  simpl. intros p Hp.
  apply in_box_2d in Hp as (x & y & -> & Hx & Hy). simpl.
  specialize (Hcells (x - g_offsx g) (y - g_offsy g) ltac:(lia) ltac:(lia)).
  replace (g_offsx g + (x - g_offsx g)) with x in Hcells by lia.
  replace (g_offsy g + (y - g_offsy g)) with y in Hcells by lia.
  rewrite <- Hcells. f_equal; lia.
Qed.

Lemma head_filter_name (name : string) (pls : list (StepPayload float)) pl0 :
  pl0 ∈ pls -> var_name (pl_var pl0) = name ->
  exists pl, pl ∈ pls /\ var_name (pl_var pl) = name /\
             InquireVariable name pls = Some (pl_var pl).
Proof.
  intros Hin Hname. unfold InquireVariable.
  destruct (filter (fun pl => var_name (pl_var pl) = name) pls) as [|pl l] eqn:E.
  - assert (H : pl0 ∈ filter (fun pl => var_name (pl_var pl) = name) pls)
      by (apply list_elem_of_filter; split; assumption).
    rewrite E in H. inversion H.
  - assert (H : pl ∈ filter (fun pl => var_name (pl_var pl) = name) pls)
      by (rewrite E; apply elem_of_cons; left; reflexivity).
    apply list_elem_of_filter in H as [H1 H2].
    exists pl. repeat split; assumption.
Qed.

Section ReaderPass.
Variables npx_w npy_w npx_r npy_r step rank : Z.
Variable pls : list (StepPayload float).
Variable myArray : list float.
Hypothesis Hxw : 1 <= npx_w.
Hypothesis Hyw : 1 <= npy_w.
Hypothesis Hxr : 1 <= npx_r.
Hypothesis Hyr : 1 <= npy_r.
Hypothesis Hnw : npx_w * npy_w <= INT_MAX.
Hypothesis Hnr : npx_r * npy_r <= INT_MAX.
Hypothesis Hstep : 0 <= step.
Hypothesis Hrank : 0 <= rank < npx_r * npy_r.

Let gndx : Z := npx_w * 50.
Let gndy : Z := npy_w * 60.
Let g : Geometry := reader_geometry gndx gndy npx_r npy_r rank.

(** The block of the rank can be indexed by an [int]. *)
Hypothesis Hblock : g_ndx g * g_ndy g <= INT_MAX.

(** Every payload of the step is the block of some writer rank, and every
    writer rank has its block in the step. *)
Let written (wrank : Z) (pl : StepPayload float) : Prop :=
  exists buf,
    pl = mkPayload (myArray_var gndx gndy)
           (geometry_selection (writer_geometry npx_w npy_w wrank)) buf /\
    block_filled (writer_geometry npx_w npy_w wrank) step buf.
Hypothesis Hall :
  forall pl, pl ∈ pls -> exists wrank, 0 <= wrank < npx_w * npy_w /\ written wrank pl.
Hypothesis Hex :
  forall wrank, 0 <= wrank < npx_w * npy_w -> exists pl, pl ∈ pls /\ written wrank pl.

Lemma reader_block_bounds :
  g = mkGeometry gndx gndy (g_offsx g) (g_offsy g) (g_ndx g) (g_ndy g) /\
  0 <= g_offsx g /\ 0 <= g_ndx g /\ g_offsx g + g_ndx g <= gndx /\
  0 <= g_offsy g /\ 0 <= g_ndy g /\ g_offsy g + g_ndy g <= gndy /\
  (npx_r <= gndx -> 0 < g_ndx g) /\ (npy_r <= gndy -> 0 < g_ndy g).
Proof.
  destruct (rank_position npx_r npy_r rank Hxr Hrank) as (Hpx & Hpy & _).
  assert (Hgx : 0 <= gndx < 2 ^ 64) by (subst gndx; unfold INT_MAX in *; nia).
  assert (Hgy : 0 <= gndy < 2 ^ 64) by (subst gndy; unfold INT_MAX in *; nia).
  subst g. rewrite reader_geometry_eq by assumption. simpl.
  pose proof (block_inside gndx npx_r (rank mod npx_r) Hxr ltac:(lia) Hpx) as Bx.
  pose proof (block_inside gndy npy_r (rank / npx_r) Hyr ltac:(lia) Hpy) as By.
  simpl in Bx, By. intuition.
Qed.

Lemma inquire_myArray :
  InquireVariable "myArray" pls = Some (myArray_var gndx gndy).
Proof.
  destruct (Hex 0) as (pl0 & Hin0 & buf0 & -> & _); [nia|].
  destruct (head_filter_name "myArray" pls _ Hin0 eq_refl) as (pl & Hin & _ & ->).
  destruct (Hall pl Hin) as (wrank & _ & buf & -> & _). reflexivity.
Qed.

Lemma payload_consistent pl :
  pl ∈ pls ->
  consistent (geometry_selection g) (cell_value gndx gndy step) pl.
Proof.
  intros Hin. destruct (Hall pl Hin) as (wrank & Hw & buf & -> & Hf).
  rewrite writer_geometry_eq in * by assumption.
  apply (block_filled_consistent
           (mkGeometry (npx_w * 50) (npy_w * 60) (wrank mod npx_w * 50)
                       (wrank / npx_w * 60) 50 60));
    [reflexivity|simpl; lia|exact Hf].
Qed.

Lemma payload_covers x y :
  0 <= x < gndx -> 0 <= y < gndy ->
  exists pl, pl ∈ pls /\ var_name (pl_var pl) = "myArray" /\
             in_box (box_of (pl_sel pl)) [x; y] /\
             pl_buf pl !! Z.to_nat
               (linearize (box_of (pl_sel pl)) [x; y] 0)
             = Some (GetValue gndx gndy x y step).
Proof.
  intros Hx Hy.
  pose proof (Z.div_mod x 50 ltac:(lia)).
  pose proof (Z.mod_pos_bound x 50 ltac:(lia)).
  pose proof (Z.div_mod y 60 ltac:(lia)).
  pose proof (Z.mod_pos_bound y 60 ltac:(lia)).
  assert (Hwx : 0 <= x / 50 < npx_w) by (subst gndx; lia).
  assert (Hwy : 0 <= y / 60 < npy_w) by (subst gndy; lia).
  set (wrank := y / 60 * npx_w + x / 50).
  assert (Hmod : wrank mod npx_w = x / 50).
  { subst wrank. rewrite Z.add_comm, Z.mod_add by lia. apply Z.mod_small. lia. }
  assert (Hdiv : wrank / npx_w = y / 60).
  { subst wrank. rewrite Z.add_comm, Z.div_add by lia.
    rewrite Z.div_small by lia. lia. }
  assert (Hw : 0 <= wrank < npx_w * npy_w) by (subst wrank; nia).
  destruct (Hex wrank Hw) as (pl & Hin & Hwr).
  pose proof (payload_consistent pl Hin) as [_ Hbuf].
  destruct Hwr as (buf & -> & _).
  assert (Hbox : in_box (box_of (pl_sel
            (mkPayload (myArray_var gndx gndy)
               (geometry_selection (writer_geometry npx_w npy_w wrank)) buf)))
            [x; y]).
  { rewrite writer_geometry_eq by assumption. simpl.
    apply in_box_2d. exists x, y. rewrite Hmod, Hdiv.
    repeat split; simpl; lia. }
  exists (mkPayload (myArray_var gndx gndy)
            (geometry_selection (writer_geometry npx_w npy_w wrank)) buf).
  repeat split; try assumption.
  apply (Hbuf [x; y] Hbox).
Qed.

(** The pass either checks the whole block successfully, every cell holding
    the value of its global coordinate, or the engine refuses the selection
    because the rank's block is empty. *)
Lemma reader_pass_spec :
  (exists buf,
     reader_pass npx_r npy_r rank step pls myArray = Checked buf /\
     forall j i, 0 <= j < g_ndx g -> 0 <= i < g_ndy g ->
       buf !! Z.to_nat (j * g_ndy g + i)
       = Some (GetValue gndx gndy (g_offsx g + j) (g_offsy g + i) step)) \/
  (reader_pass npx_r npy_r rank step pls myArray = EngineError InvalidSelection /\
   (g_ndx g = 0 \/ g_ndy g = 0)).
Proof.
  destruct reader_block_bounds
    as (Eg & Hox & Hnx & Hbx & Hoy & Hny & Hby & _ & _).
  unfold reader_pass. rewrite inquire_myArray.
  cbn [myArray_var var_shape nth]. fold gndx gndy g.
  assert (Hvol : g_ndx g * g_ndy g <= INT_MAX) by exact Hblock.
  assert (Hgx : gndx < 2 ^ 64) by (subst gndx; unfold INT_MAX in *; nia).
  assert (Hgy : gndy < 2 ^ 64) by (subst gndy; unfold INT_MAX in *; nia).
  pose proof payload_covers as Hcovers.
  pose proof payload_consistent as Hconsistent.
  clearbody g gndx gndy.
  unfold Get.
  destruct (valid_selection (var_shape (myArray_var gndx gndy))
              (geometry_selection g)) eqn:Hvalid.
  - left.
    unfold valid_selection in Hvalid. simpl in Hvalid.
    rewrite !andb_true_iff in Hvalid.
    destruct Hvalid as [[[_ Hpx%Z.ltb_lt] _] [[[_ Hpy%Z.ltb_lt] _] _]].
    set (dst := resize (Z.to_nat (mul64 (g_ndx g) (g_ndy g))) fzero myArray).
    set (v := myArray_var gndx gndy).
    set (buf := redistribute v (geometry_selection g) pls dst).
    assert (Hcells : forall j i, 0 <= j < g_ndx g -> 0 <= i < g_ndy g ->
              buf !! Z.to_nat (j * g_ndy g + i)
              = Some (GetValue gndx gndy (g_offsx g + j) (g_offsy g + i) step)).
    { intros j i Hj Hi.
      assert (Hq : in_box (box_of (geometry_selection g))
                     [g_offsx g + j; g_offsy g + i]).
      { simpl. apply in_box_2d. eexists _, _. split; [reflexivity|]. lia. }
      destruct (Hcovers (g_offsx g + j) (g_offsy g + i))
        as (pl & Hin & Hname & Hcov & _); [lia|lia|].
      pose proof (redistribute_lookup v (geometry_selection g)
                    (cell_value gndx gndy step) pls dst
                    [g_offsx g + j; g_offsy g + i]) as Hlook.
      replace (linearize (box_of (geometry_selection g))
                 [g_offsx g + j; g_offsy g + i] 0)
        with (j * g_ndy g + i) in Hlook by (simpl; lia).
      apply Hlook.
      - intros pl' Hin' _. apply Hconsistent, Hin'.
      - exact Hq.
      - subst dst. rewrite length_resize. unfold mul64.
        rewrite wrap64_small by (pose proof INT_MAX_lt_size; nia).
        simpl. nia.
      - exists pl. repeat split; assumption. }
    exists buf. split; [|exact Hcells].
    replace (CheckData buf gndx gndy (g_offsx g) (g_offsy g) (g_ndx g) (g_ndy g)
               step rank) with true; [reflexivity|].
    symmetry. apply CheckData_spec; try lia.
    intros j i Hj Hi.
    exists (GetValue gndx gndy (g_offsx g + j) (g_offsy g + i) step). split.
    + unfold load. destruct (j * g_ndy g + i <? 0) eqn:E; [nia|].
      apply Hcells; assumption.
    + unfold expected_value, add64, int_to_size_t.
      pose proof INT_MAX_lt_size as Hi64.
      rewrite (wrap64_small j), (wrap64_small i) by nia.
      rewrite !wrap64_small by nia.
      apply GetValue_feqb; lia.
  - right. split; [reflexivity|].
    unfold valid_selection in Hvalid. simpl in Hvalid.
    destruct (Z.eq_dec (g_ndx g) 0) as [?|Hx0]; [left; assumption|].
    destruct (Z.eq_dec (g_ndy g) 0) as [?|Hy0]; [right; assumption|].
    exfalso.
    assert (Hv : (0 <=? g_offsx g) && (0 <? g_ndx g)
                 && (g_offsx g + g_ndx g <=? gndx)
                 && ((0 <=? g_offsy g) && (0 <? g_ndy g)
                     && (g_offsy g + g_ndy g <=? gndy) && true) = true).
    { repeat (apply andb_true_intro; split); try reflexivity;
        try (apply Z.leb_le; lia); apply Z.ltb_lt; lia. }
    rewrite Hv in Hvalid. discriminate.
Qed.

(** A rank whose block is empty gets nothing: its selection has a count
    of 0, which the engine refuses. *)
Lemma reader_pass_empty_block :
  g_ndx g = 0 \/ g_ndy g = 0 ->
  reader_pass npx_r npy_r rank step pls myArray = EngineError InvalidSelection.
Proof.
  intros Hempty.
  unfold reader_pass. rewrite inquire_myArray.
  cbn [myArray_var var_shape nth]. fold gndx gndy g.
  clearbody g gndx gndy.
  unfold Get, valid_selection, geometry_selection.
  cbn [var_shape sel_offset sel_count valid_dims].
  assert (Hv : valid_dims (var_shape (myArray_var gndx gndy))
                 [g_offsx g; g_offsy g] [g_ndx g; g_ndy g] = false).
  { simpl. destruct Hempty as [E|E]; rewrite E.
    - rewrite andb_false_r. reflexivity.
    - rewrite !andb_false_r. reflexivity. }
  rewrite Hv. reflexivity.
Qed.

(** A rank whose block is not empty gets its block, and the check
    returns. *)
Lemma reader_pass_block :
  0 < g_ndx g -> 0 < g_ndy g ->
  exists buf,
    reader_pass npx_r npy_r rank step pls myArray = Checked buf /\
    forall j i, 0 <= j < g_ndx g -> 0 <= i < g_ndy g ->
      buf !! Z.to_nat (j * g_ndy g + i)
      = Some (GetValue gndx gndy (g_offsx g + j) (g_offsy g + i) step).
Proof.
  intros Hx Hy.
  destruct reader_pass_spec as [H|(_ & [H|H])]; [exact H|lia|lia].
Qed.

End ReaderPass.

(** ** Who is a reader *)

Lemma reader_role_rank p numprocs wrank rank :
  1 <= npx_w p -> 1 <= npy_w p -> 1 <= npx_r p -> 1 <= npy_r p ->
  npx_w p * npy_w p <= INT_MAX -> npx_r p * npy_r p <= INT_MAX ->
  TestCommon_role p numprocs wrank = Reader rank ->
  0 <= rank < npx_r p * npy_r p.
Proof.
  intros Hxw Hyw Hxr Hyr Hw Hr. unfold TestCommon_role, nwriters, nreaders.
  unfold size_t_to_int, mul64.
  pose proof INT_MAX_lt_size as Hi.
  rewrite !wrap64_small by nia.
  rewrite (wrap_int_small (npx_w p * npy_w p)) by (unfold INT_MAX in *; nia).
  rewrite (wrap_int_small (npx_r p * npy_r p)) by (unfold INT_MAX in *; nia).
  set (total := wrap_int (npx_w p * npy_w p + npx_r p * npy_r p)).
  destruct (numprocs <? total) eqn:E1; [discriminate|].
  destruct (wrank <? npx_w p * npy_w p) eqn:E2; [discriminate|].
  destruct (wrank <? total) eqn:E3; [|discriminate].
  intros [= <-]. apply Z.ltb_ge in E2. apply Z.ltb_lt in E3.
  split; [lia|].
  destruct (Z_le_gt_dec (npx_w p * npy_w p + npx_r p * npy_r p) INT_MAX) as [Hs|Hs].
  - subst total. rewrite wrap_int_small in E3 by (unfold INT_MAX in *; nia). lia.
  - exfalso. subst total. unfold wrap_int, INT_MAX in *.
    assert (H32 : (npx_w p * npy_w p + npx_r p * npy_r p + 2 ^ 31) mod 2 ^ 32
                  = npx_w p * npy_w p + npx_r p * npy_r p + 2 ^ 31 - 2 ^ 32).
    { symmetry. apply (Z.mod_unique _ _ 1); lia. }
    rewrite H32 in E3. nia.
Qed.

Lemma sealed_step_written npx_w npy_w steps step :
  1 <= npx_w -> 1 <= npy_w -> npx_w * npy_w <= INT_MAX -> 0 <= step < steps ->
  exists contribs,
    sealed_step npx_w npy_w steps step = Some contribs /\
    forall pls, pls ≡ₚ contribs -> written_by npx_w npy_w step pls.
Proof.
  intros Hxw Hyw Hnw Hstep.
  destruct (sealed_step_spec npx_w npy_w steps step Hxw Hyw Hnw Hstep)
    as (contribs & Hsealed & Hfrom & Hto).
  exists contribs. split; [exact Hsealed|]. intros pls Hperm.
  assert (Hwritten : forall wr pl, 0 <= wr < npx_w * npy_w ->
            contribution npx_w npy_w steps step wr = Some pl ->
            exists buf,
              pl = mkPayload (myArray_var (npx_w * 50) (npy_w * 60))
                     (geometry_selection (writer_geometry npx_w npy_w wr))
                     buf /\
              block_filled (writer_geometry npx_w npy_w wr) step buf).
  { intros wr pl Hwr Hc.
    pose proof (contribution_spec npx_w npy_w steps step Hxw Hyw Hnw
                  Hstep wr Hwr) as Hspec.
    cbv zeta in Hspec. rewrite writer_geometry_eq in Hspec |- * by assumption.
    destruct Hspec as (buf & Hc' & Hf).
    rewrite Hc' in Hc. injection Hc as <-. exists buf. split; [|exact Hf].
    reflexivity. }
  split.
  - intros pl Hin. rewrite Hperm in Hin.
    destruct (Hfrom pl Hin) as (wr & Hwr & Hc).
    exists wr. split; [exact Hwr|]. apply Hwritten; assumption.
  - intros wr Hwr. destruct (Hto wr Hwr) as (pl & Hin & Hc).
    exists pl. split; [rewrite Hperm; exact Hin|]. apply Hwritten; assumption.
Qed.

(** What [CheckData] expects at the cell (j, i) of a block that lies inside
    the range of [size_t] is [GetValue] at the cell's global coordinate. *)
Lemma expected_value_eq gndx gndy offsx offsy step j i :
  0 <= offsx -> 0 <= offsy -> 0 <= j -> 0 <= i ->
  offsx + j < 2 ^ 64 -> offsy + i < 2 ^ 64 ->
  expected_value gndx gndy offsx offsy step j i
  = GetValue gndx gndy (offsx + j) (offsy + i) step.
Proof.
  intros Hox Hoy Hj Hi Hx Hy.
  unfold expected_value, add64, int_to_size_t.
  rewrite (wrap64_small j), (wrap64_small i) by lia.
  rewrite !wrap64_small by lia. reflexivity.
Qed.

(** [CheckData] on a block inside the range of [size_t]: it returns
    exactly when every cell of the block holds a float equal ([==]) to
    [GetValue] at the cell's global coordinate. *)
Lemma CheckData_cells array gndx gndy offsx offsy ndx ndy step rank :
  0 <= ndx -> 0 <= ndy -> ndx * ndy <= INT_MAX ->
  0 <= offsx -> 0 <= offsy -> offsx + ndx < 2 ^ 64 -> offsy + ndy < 2 ^ 64 ->
  (CheckData array gndx gndy offsx offsy ndx ndy step rank = true <->
   forall j i, 0 <= j < ndx -> 0 <= i < ndy ->
     exists v, array !! Z.to_nat (j * ndy + i) = Some v /\
       feqb v (GetValue gndx gndy (offsx + j) (offsy + i) step) = true).
Proof.
  intros Hx Hy Hint Hox Hoy Hbx Hby.
  rewrite (CheckData_spec gndx gndy offsx offsy ndx ndy step rank array
             Hx Hy Hint).
  split; intros H j i Hj Hi; destruct (H j i Hj Hi) as (v & Hv & Hok);
    exists v; unfold load in *;
    (destruct (j * ndy + i <? 0) eqn:E; [apply Z.ltb_lt in E; nia|]);
    rewrite expected_value_eq in * by lia; split; assumption.
Qed.



(** ** The example scenario *)

Lemma scenario_steps sc :
  In sc scenarios -> sc_steps sc = 1 \/ sc_steps sc = 5 \/ sc_steps sc = 10.
Proof.
  unfold scenarios. simpl. intros [<-|[<-|[<-|[<-|[]]]]]; simpl; auto.
Qed.

(** The position k of a row-major buffer with rows of [ndy] cells is the
    cell (k / ndy, k mod ndy). *)
Lemma row_major_index ndx ndy k :
  0 <= ndx -> 0 <= ndy -> 0 <= k < ndx * ndy ->
  0 <= k / ndy < ndx /\ 0 <= k mod ndy < ndy /\
  k / ndy * ndy + k mod ndy = k.
Proof.
  intros Hx Hy Hk.
  assert (0 < ndy) by nia.
  pose proof (Z.mod_pos_bound k ndy ltac:(lia)).
  pose proof (Z.div_mod k ndy ltac:(lia)).
  assert (0 <= k / ndy) by (apply Z.div_pos; lia).
  assert (k / ndy < ndx) by (apply Z.div_lt_upper_bound; nia).
  lia.
Qed.

(** When [CheckData] throws on an array that holds the whole block, some
    cell of the block holds a float that differs ([!=]) from the value
    expected there. *)
Lemma CheckData_false_cell array gndx gndy offsx offsy ndx ndy step rank :
  0 <= ndx -> 0 <= ndy -> ndx * ndy <= INT_MAX ->
  ndx * ndy <= Z.of_nat (length array) ->
  CheckData array gndx gndy offsx offsy ndx ndy step rank = false ->
  exists j i received,
    0 <= j < ndx /\ 0 <= i < ndy /\
    array !! Z.to_nat (j * ndy + i) = Some received /\
    fneb received (expected_value gndx gndy offsx offsy step j i) = true.
Proof.
  intros Hx Hy Hint Hlen Hthrow.
  pose proof (CheckData_spec gndx gndy offsx offsy ndx ndy step rank array
                Hx Hy Hint) as Hspec.
  set (good := fun k : Z =>
         exists v, array !! Z.to_nat k = Some v /\
           feqb v (expected_value gndx gndy offsx offsy step
                     (k / ndy) (k mod ndy)) = true).
  set (bad := fun k : Z =>
         exists v, array !! Z.to_nat k = Some v /\
           fneb v (expected_value gndx gndy offsx offsy step
                     (k / ndy) (k mod ndy)) = true).
  assert (Hdec : forall k, 0 <= k < ndx * ndy -> {good k} + {bad k}).
  { intros k Hk.
    destruct (array !! Z.to_nat k) as [v|] eqn:E.
    - destruct (feqb v (expected_value gndx gndy offsx offsy step
                          (k / ndy) (k mod ndy))) eqn:Ev.
      + left. exists v. rewrite E. auto.
      + right. exists v. rewrite E. unfold fneb. rewrite Ev. auto.
    - exfalso. apply lookup_ge_None_1 in E. lia. }
  assert (Hsearch : forall n : nat, Z.of_nat n <= ndx * ndy ->
            (forall k, 0 <= k < Z.of_nat n -> good k) \/
            (exists k, 0 <= k < Z.of_nat n /\ bad k)).
  { induction n as [|n IH]; intros Hn.
    - left. intros k Hk. lia.
    - destruct (IH ltac:(lia)) as [Hall|(k & Hk & Hb)].
      + destruct (Hdec (Z.of_nat n) ltac:(lia)) as [Hg|Hb].
        * left. intros k Hk.
          destruct (decide (k = Z.of_nat n)) as [->|Hne];
            [exact Hg|apply Hall; lia].
        * right. exists (Z.of_nat n). split; [lia|exact Hb].
      + right. exists k. split; [lia|exact Hb]. }
  destruct (Hsearch (Z.to_nat (ndx * ndy)) ltac:(nia))
    as [Hall|(k & Hk & v & Hv & Hne)].
  - assert (Htrue : CheckData array gndx gndy offsx offsy ndx ndy step rank
                    = true).
    { apply Hspec. intros j i Hj Hi.
      destruct (Hall (j * ndy + i) ltac:(nia)) as (v & Hv & Hok).
      exists v. split.
      - unfold load.
        destruct (j * ndy + i <? 0) eqn:E; [apply Z.ltb_lt in E; nia|exact Hv].
      - replace ((j * ndy + i) / ndy) with j in Hok by
          (apply Z.div_unique with i; lia).
        replace ((j * ndy + i) mod ndy) with i in Hok by
          (apply Z.mod_unique with j; lia).
        exact Hok. }
    congruence.
  - destruct (row_major_index ndx ndy k Hx Hy ltac:(lia)) as (Hj & Hi & Hkk).
    exists (k / ndy), (k mod ndy), v.
    split; [exact Hj|]. split; [exact Hi|].
    rewrite Hkk. split; [exact Hv|exact Hne].
Qed.

(** C2. In the runs of 1, 5 and 10 steps, in every step every writer rank
    fills cell (j, i) of its 50 x 60 block with [GetValue] of the cell's
    global coordinate (offsx + j, offsy + i), that is with
    1000 * step + (offsx + j) * gndx + (offsy + i) / 1000 computed in
    [float] (the product in [size_t]), and puts that buffer.  The check of
    a reader rank expects the same function of the global coordinate at
    every cell of the rank's own block: [CheckData], as [MainReaders] calls
    it, returns exactly when every cell (j', i') of the array holds a float
    equal to [GetValue] at (offsx' + j', offsy' + i') for the step, so a
    pass of the reader's loop that ends with the check returning has got
    these values in every cell, and one that ends with the check throwing
    has got another value in some cell. *)
Theorem example_scenario_value_formula :
  forall sc npx npy rank step npx_r npy_r rrank,
    In sc scenarios ->
    1 <= npx -> 1 <= npy -> 1 <= npx_r -> 1 <= npy_r ->
    npx * npy <= INT_MAX -> npx_r * npy_r <= INT_MAX ->
    0 <= rank < npx * npy -> 0 <= rrank < npx_r * npy_r ->
    0 <= step < sc_steps sc ->
    let g := writer_geometry npx npy rank in
    let gr := reader_geometry (g_gndx g) (g_gndy g) npx_r npy_r rrank in
    (sc_steps sc = 1 \/ sc_steps sc = 5 \/ sc_steps sc = 10) /\
    g_ndx g = 50 /\ g_ndy g = 60 /\
    (exists run pl,
       MainWriters npx npy rank (sc_steps sc) = Ok run /\
       run !! Z.to_nat step = Some pl /\
       forall j i, 0 <= j < 50 -> 0 <= i < 60 ->
         let x := g_offsx g + j in
         let y := g_offsy g + i in
         pl_buf pl !! Z.to_nat (j * 60 + i)
         = Some (GetValue (g_gndx g) (g_gndy g) x y step) /\
         GetValue (g_gndx g) (g_gndy g) x y step
         = fadd (fadd (fmul f1000 (of_Z step)) (of_Z (mul64 x (g_gndx g))))
                (fdiv (of_Z y) f1000) /\
         forall j' i', 0 <= j' < g_ndx gr -> 0 <= i' < g_ndy gr ->
           g_offsx gr + j' = x -> g_offsy gr + i' = y ->
           expected_value (g_gndx g) (g_gndy g) (g_offsx gr) (g_offsy gr)
                          step j' i'
           = GetValue (g_gndx g) (g_gndy g) x y step) /\
    (g_ndx gr * g_ndy gr <= INT_MAX ->
     (forall array,
        CheckData array (g_gndx g) (g_gndy g) (g_offsx gr) (g_offsy gr)
                  (g_ndx gr) (g_ndy gr) step rrank = true <->
        forall j' i', 0 <= j' < g_ndx gr -> 0 <= i' < g_ndy gr ->
          exists v,
            array !! Z.to_nat (j' * g_ndy gr + i') = Some v /\
            feqb v (GetValue (g_gndx g) (g_gndy g)
                      (g_offsx gr + j') (g_offsy gr + i') step) = true) /\
     (forall pls myArray buf,
        InquireVariable "myArray" pls
        = Some (myArray_var (g_gndx g) (g_gndy g)) ->
        (reader_pass npx_r npy_r rrank step pls myArray = Checked buf ->
         forall j' i', 0 <= j' < g_ndx gr -> 0 <= i' < g_ndy gr ->
           exists v,
             buf !! Z.to_nat (j' * g_ndy gr + i') = Some v /\
             feqb v (GetValue (g_gndx g) (g_gndy g)
                       (g_offsx gr + j') (g_offsy gr + i') step) = true) /\
        (reader_pass npx_r npy_r rrank step pls myArray = CheckFailed buf ->
         exists j' i' v,
           0 <= j' < g_ndx gr /\ 0 <= i' < g_ndy gr /\
           buf !! Z.to_nat (j' * g_ndy gr + i') = Some v /\
           fneb v (GetValue (g_gndx g) (g_gndy g)
                     (g_offsx gr + j') (g_offsy gr + i') step) = true))).
Proof.
  intros sc npx npy rank step npx_r npy_r rrank Hsc Hx Hy Hxr Hyr Hn Hnr
         Hrank Hrrank Hstep g gr.
  split; [apply scenario_steps, Hsc|].
  pose proof (MainWriters_payloads npx npy rank (sc_steps sc) Hx Hy Hrank Hn
                ltac:(lia)) as Hrun.
  cbv zeta in Hrun. fold g in Hrun.
  destruct Hrun as (run & Hrun & _ & Hk).
  destruct (Hk step Hstep) as (buf & Hb & Hlen & Hcells).
  pose proof (reader_block_bounds npx npy npx_r npy_r rrank Hx Hy Hxr Hyr Hn
                Hnr Hrrank) as Hgr.
  cbv zeta in Hgr.
  assert (Eg : g = mkGeometry (npx * 50) (npy * 60)
                     (rank mod npx * 50) (rank / npx * 60) 50 60)
    by (apply writer_geometry_eq; assumption).
  assert (Egr : gr = reader_geometry (npx * 50) (npy * 60) npx_r npy_r rrank)
    by (subst gr; rewrite Eg; reflexivity).
  rewrite <- Egr in Hgr.
  destruct Hgr as (_ & Hox & Hnx & Hbx & Hoy & Hny & Hby & _).
  clearbody g gr. subst g.
  cbn [g_ndx g_ndy g_gndx g_gndy g_offsx g_offsy] in *.
  assert (Hnx' : npx <= INT_MAX) by nia.
  assert (Hny' : npy <= INT_MAX) by nia.
  unfold INT_MAX in Hnx', Hny'.
  split; [reflexivity|]. split; [reflexivity|]. split.
  - eexists run, _. split; [exact Hrun|]. split; [exact Hb|].
    cbn [pl_buf]. intros j i Hj Hi. cbv zeta.
    split; [apply Hcells; assumption|].
    split; [reflexivity|].
    intros j' i' Hj' Hi' Ex Ey.
    rewrite expected_value_eq by lia.
    rewrite Ex, Ey. reflexivity.
  - intros Hblock.
    assert (Hcheck : forall array,
              CheckData array (npx * 50) (npy * 60) (g_offsx gr) (g_offsy gr)
                        (g_ndx gr) (g_ndy gr) step rrank = true <->
              forall j' i', 0 <= j' < g_ndx gr -> 0 <= i' < g_ndy gr ->
                exists v,
                  array !! Z.to_nat (j' * g_ndy gr + i') = Some v /\
                  feqb v (GetValue (npx * 50) (npy * 60)
                            (g_offsx gr + j') (g_offsy gr + i') step) = true).
    { intros array. apply CheckData_cells; lia. }
    split; [exact Hcheck|].
    intros pls myArray rbuf Hinq.
    unfold reader_pass. rewrite Hinq.
    cbn [myArray_var var_shape nth]. rewrite <- Egr.
    unfold Get.
    destruct (valid_selection (var_shape (myArray_var (npx * 50) (npy * 60)))
                (geometry_selection gr));
      [|split; discriminate].
    set (got := redistribute _ _ _ _).
    assert (Hgot : Z.of_nat (length got) = g_ndx gr * g_ndy gr).
    { subst got. rewrite redistribute_length, length_resize. unfold mul64.
      rewrite wrap64_small by (unfold INT_MAX in *; nia). nia. }
    destruct (CheckData got (npx * 50) (npy * 60) (g_offsx gr) (g_offsy gr)
                (g_ndx gr) (g_ndy gr) step rrank) eqn:EC.
    + split; [|discriminate]. intros [= <-]. apply Hcheck, EC.
    + split; [discriminate|]. intros [= <-].
      destruct (CheckData_false_cell got (npx * 50) (npy * 60)
                  (g_offsx gr) (g_offsy gr) (g_ndx gr) (g_ndy gr) step rrank
                  Hnx Hny Hblock ltac:(lia) EC)
        as (j' & i' & v & Hj' & Hi' & Hv & Hne).
      exists j', i', v. split; [exact Hj'|]. split; [exact Hi'|].
      split; [exact Hv|].
      rewrite expected_value_eq in Hne by lia. exact Hne.
Qed.

(** ** The test matrix *)

(** C8, as stated, fails: no set of parameters has a 7 x 1 decomposition,
    on either side (the matrix has 1 x 7 on both sides), and 3 x 5 is a
    writer decomposition only (the readers have 5 x 3). *)
Lemma test_matrix_lacks_7x1_and_reader_3x5 :
  ~ In (7, 1) writer_decompositions /\
  ~ In (7, 1) reader_decompositions /\
  ~ In (3, 5) reader_decompositions.
Proof.
  unfold writer_decompositions, reader_decompositions. simpl.
  repeat split; intros H;
    repeat (destruct H as [H|H]; [discriminate H|]); exact H.
Qed.

(** C8, amended.  The twelve sets of parameters need 2, 3, 4, 8 or 16
    processes, from 2 to 16; the decompositions 1 x 1, 2 x 1, 1 x 2, 2 x 2
    and 1 x 7 occur on the writer side and on the reader side, 3 x 5 on the
    writer side and 5 x 3 on the reader side. *)
Theorem test_matrix_coverage :
  total_processes <$> CreateRunParams = [2; 3; 3; 3; 3; 4; 4; 8; 8; 8; 16; 16] /\
  (forall p, In p CreateRunParams -> 2 <= total_processes p <= 16) /\
  (forall d, In d [(1, 1); (2, 1); (1, 2); (2, 2); (1, 7)] ->
             In d writer_decompositions /\ In d reader_decompositions) /\
  In (3, 5) writer_decompositions /\ In (5, 3) reader_decompositions /\
  (forall d, In d writer_decompositions ->
             In d [(1, 1); (2, 1); (1, 2); (2, 2); (1, 7); (3, 5)]) /\
  (forall d, In d reader_decompositions ->
             In d [(1, 1); (2, 1); (1, 2); (2, 2); (1, 7); (5, 3)]).
Proof.
  split; [reflexivity|]. split; [|split; [|split; [|split; [|split]]]].
  - intros p Hp. unfold CreateRunParams in Hp. simpl in Hp.
    repeat (destruct Hp as [<-|Hp]; [vm_compute; split; discriminate|]).
    destruct Hp.
  - intros d Hd. simpl in Hd.
    repeat (destruct Hd as [<-|Hd]; [split; vm_compute; tauto|]).
    destruct Hd.
  - vm_compute. tauto.
  - vm_compute. tauto.
  - intros d Hd. unfold writer_decompositions in Hd. simpl in Hd.
    repeat (destruct Hd as [<-|Hd]; [simpl; tauto|]). destruct Hd.
  - intros d Hd. unfold reader_decompositions in Hd. simpl in Hd.
    repeat (destruct Hd as [<-|Hd]; [simpl; tauto|]). destruct Hd.
Qed.

(** ** The variable registry *)

Lemma Define_registered name ty shape reg h reg1 :
  Define name ty shape reg = Ok (h, reg1) ->
  reg_names reg1 !! name = Some h /\
  exists v, reg_objects reg1 !! h = Some v /\
            var_type v = ty /\ var_shape v = shape.
Proof.
  unfold Define. intros H.
  destruct (reg_names reg !! name) as [h0|] eqn:En.
  - destruct (reg_objects reg !! h0) as [v|] eqn:Eo; [|discriminate].
    destruct (decide (var_type v = ty /\ var_shape v = shape)) as [[Ht Hs]|];
      [|discriminate].
    injection H as <- <-. split; [exact En|]. exists v. auto.
  - injection H as <- <-. simpl. split; [apply lookup_insert_eq|].
    eexists. split; [apply lookup_insert_eq|]. split; reflexivity.
Qed.

Section Registry.

(** What calls of [Define] keep true of a registry: the handles in use,
    of names and of objects, are below the next free one. *)
Let in_use (reg : Registry) : Prop :=
  (forall n h, reg_names reg !! n = Some h -> (h < reg_next reg)%positive) /\
  (forall h v, reg_objects reg !! h = Some v -> (h < reg_next reg)%positive).

Lemma in_use_empty : in_use empty_registry.
Proof.
  split; intros ? ? H; simpl in H; rewrite lookup_empty in H; discriminate.
Qed.

(** A definition that returns keeps what is registered and adds at most
    the entry of its own name, under a handle that was free. *)
Lemma Define_frame name ty shape reg h reg1 :
  in_use reg ->
  Define name ty shape reg = Ok (h, reg1) ->
  in_use reg1 /\
  (forall other, other <> name ->
     reg_names reg1 !! other = reg_names reg !! other) /\
  (forall h', h' <> h -> reg_objects reg1 !! h' = reg_objects reg !! h') /\
  (forall n h' v, reg_names reg !! n = Some h' ->
     reg_objects reg !! h' = Some v ->
     reg_names reg1 !! n = Some h' /\ reg_objects reg1 !! h' = Some v) /\
  (reg_names reg !! name = None ->
   reg_objects reg !! h = None /\
   forall other, reg_names reg !! other <> Some h).
Proof.
  intros [Hn Ho] H. unfold Define in H.
  destruct (reg_names reg !! name) as [h0|] eqn:En.
  - destruct (reg_objects reg !! h0) as [v0|] eqn:Eo; [|discriminate].
    destruct (decide _); [|discriminate]. injection H as <- <-.
    split; [split; assumption|]. split; [reflexivity|].
    split; [reflexivity|]. split; [auto|discriminate].
  - injection H as <- <-. simpl.
    split; [|split; [|split; [|split]]].
    + split; cbn [reg_names reg_objects reg_next].
      * intros n h. destruct (decide (n = name)) as [->|Hne].
        -- rewrite lookup_insert_eq. intros [= <-]. lia.
        -- rewrite lookup_insert_ne by congruence. intros Hl.
           specialize (Hn _ _ Hl). lia.
      * intros h v. destruct (decide (h = reg_next reg)) as [->|Hne].
        -- intros _. lia.
        -- rewrite lookup_insert_ne by congruence. intros Hl.
           specialize (Ho _ _ Hl). lia.
    + intros other Hne. apply lookup_insert_ne. congruence.
    + intros h' Hne. apply lookup_insert_ne. congruence.
    + intros n h' v Hl Hv. split.
      * rewrite lookup_insert_ne; [exact Hl|]. intros <-. congruence.
      * rewrite lookup_insert_ne; [exact Hv|].
        intros <-. specialize (Ho _ _ Hv). lia.
    + intros _. split.
      * destruct (reg_objects reg !! reg_next reg) as [v|] eqn:E;
          [|reflexivity]. specialize (Ho _ _ E). lia.
      * intros other Hl. specialize (Hn _ _ Hl). lia.
Qed.

Lemma Defines_frame calls : forall reg,
  in_use reg ->
  in_use (Defines calls reg) /\
  forall n h v, reg_names reg !! n = Some h ->
    reg_objects reg !! h = Some v ->
    reg_names (Defines calls reg) !! n = Some h /\
    reg_objects (Defines calls reg) !! h = Some v.
Proof.
  induction calls as [|[[n0 t0] s0] calls IH]; intros reg Hreg.
  - split; [exact Hreg|]. intros n h v Hn Hv. split; assumption.
  - unfold Defines. cbn [fold_left fst snd].
    fold (Defines calls).
    destruct (Define n0 t0 s0 reg) as [[h0 reg0]|e] eqn:E.
    + destruct (Define_frame _ _ _ _ _ _ Hreg E) as (Hreg0 & _ & _ & Hkeep & _).
      destruct (IH reg0 Hreg0) as [Hok Hkeep'].
      split; [exact Hok|]. intros n h v Hn Hv.
      destruct (Hkeep n h v Hn Hv) as [Hn0 Hv0]. apply Hkeep'; assumption.
    + apply IH, Hreg.
Qed.

(** In a registry where the name is registered with a type and a shape,
    defining it again with these returns its handle and the registry as it
    is, and defining it with another type or shape fails. *)
Lemma Define_again name ty shape reg h v :
  reg_names reg !! name = Some h -> reg_objects reg !! h = Some v ->
  var_type v = ty -> var_shape v = shape ->
  Define name ty shape reg = Ok (h, reg) /\
  forall ty' shape', ty' <> ty \/ shape' <> shape ->
    Define name ty' shape' reg = Err DuplicateDefinition.
Proof.
  intros Hn Ho Ht Hs. split.
  - unfold Define. rewrite Hn, Ho.
    destruct (decide (var_type v = ty /\ var_shape v = shape)) as [|Hne];
      [reflexivity|]. exfalso. apply Hne. auto.
  - intros ty' shape' Hdiff. unfold Define. rewrite Hn, Ho.
    destruct (decide (var_type v = ty' /\ var_shape v = shape')) as [[Ht' Hs']|];
      [|reflexivity]. exfalso. destruct Hdiff; congruence.
Qed.

End Registry.

(** C6. Idempotent redefinition.  In a process that has made any calls of
    [Define] before, after a definition of a name has returned, and
    whatever is defined after it, defining the name again with the same
    type and global shape returns the same handle and leaves the registry
    as it is, and defining it with a different type or a different shape
    fails with DuplicateDefinition.  A definition has no effect but the
    registration of its name: the entries of all other names and the
    objects under all other handles are as before, the handle of a new name
    was not in use, and what was registered stays registered under the
    same handle through all later definitions.  The same holds through
    [DefineVariableInADIOS]: the second call stores the same pointer. *)
Theorem idempotent_redefinition before name ty shape h reg1 after :
  let reg := Defines before empty_registry in
  Define name ty shape reg = Ok (h, reg1) ->
  let regn := Defines after reg1 in
  Define name ty shape reg1 = Ok (h, reg1) /\
  Define name ty shape regn = Ok (h, regn) /\
  (forall ty' shape', ty' <> ty \/ shape' <> shape ->
     Define name ty' shape' reg1 = Err DuplicateDefinition /\
     Define name ty' shape' regn = Err DuplicateDefinition) /\
  (forall other, other <> name -> Lookup other reg1 = Lookup other reg) /\
  (forall h', h' <> h -> reg_objects reg1 !! h' = reg_objects reg !! h') /\
  (Lookup name reg = None ->
   reg_objects reg !! h = None /\
   forall other, Lookup other reg <> Some h) /\
  (forall other h' v,
     Lookup other reg = Some h' -> reg_objects reg !! h' = Some v ->
     Lookup other reg1 = Some h' /\ reg_objects reg1 !! h' = Some v /\
     Lookup other regn = Some h' /\ reg_objects regn !! h' = Some v) /\
  (forall local,
     DefineVariable name ty shape local reg1 = Ok (h, reg1) /\
     DefineVariable name ty shape local regn = Ok (h, regn)) /\
  (forall variable,
     m_Name variable = name -> m_GlobalDimensions variable = shape ->
     exists variable' variablen,
       DefineVariableInADIOS ty reg1 variable = Ok (reg1, variable') /\
       m_VariablePtr variable' = Zpos h /\
       DefineVariableInADIOS ty regn variable = Ok (regn, variablen) /\
       m_VariablePtr variablen = Zpos h).
Proof.
  intros reg H regn.
  destruct (Defines_frame before empty_registry in_use_empty) as [Hreg _].
  fold reg in Hreg.
  destruct (Define_frame _ _ _ _ _ _ Hreg H)
    as (Hreg1 & Hnames & Hobjs & Hkeep & Hfresh).
  destruct (Define_registered _ _ _ _ _ _ H) as (Hn & v & Ho & Ht & Hs).
  destruct (Defines_frame after reg1 Hreg1) as [_ Hkeepn].
  fold regn in Hkeepn.
  destruct (Hkeepn name h v Hn Ho) as [Hnn Hon].
  destruct (Define_again name ty shape reg1 h v Hn Ho Ht Hs) as [Hagain Hdiff].
  destruct (Define_again name ty shape regn h v Hnn Hon Ht Hs)
    as [Hagainn Hdiffn].
  split; [exact Hagain|]. split; [exact Hagainn|].
  split; [intros ty' shape' Hd; split; [apply Hdiff|apply Hdiffn]; exact Hd|].
  split; [exact Hnames|]. split; [exact Hobjs|]. split; [exact Hfresh|].
  split.
  - intros other h' v' Hl Hv. unfold Lookup in *.
    destruct (Hkeep other h' v' Hl Hv) as [Hl1 Hv1].
    destruct (Hkeepn other h' v' Hl1 Hv1) as [Hln Hvn].
    repeat split; assumption.
  - split; [|intros variable <- <-; unfold DefineVariableInADIOS, DefineVariable;
              rewrite Hagain, Hagainn; eexists _, _; repeat split].
    intros local. unfold DefineVariable. split; assumption.
Qed.

(** ** The Python engine glue *)

(** C10. When [DefineVariableInADIOS<T>] returns, the [VariablePy] holds a
    non-null pointer, the address under which the registry has the variable
    of the [VariablePy]'s name, of element type [T] and of its global
    dimensions, and [m_IsVariableDefined] is true; the other fields are as
    before.  [WriteVariableInADIOS<T>] on it is then defined and hands the
    variable to the engine, whereas with another element type, or on a
    [VariablePy] whose pointer is still null, it has no defined behaviour:
    it checks nothing. *)
Theorem DefineVariableInADIOS_post T adios variable adios' variable' :
  DefineVariableInADIOS T adios variable = Ok (adios', variable') ->
  m_VariablePtr variable' <> 0 /\
  m_IsVariableDefined variable' = true /\
  m_Name variable' = m_Name variable /\
  m_LocalDimensions variable' = m_LocalDimensions variable /\
  m_GlobalDimensions variable' = m_GlobalDimensions variable /\
  m_GlobalOffsets variable' = m_GlobalOffsets variable /\
  (exists h var,
     m_VariablePtr variable' = Zpos h /\
     Lookup (m_Name variable) adios' = Some h /\
     reg_objects adios' !! h = Some var /\
     var_type var = T /\ var_shape var = m_GlobalDimensions variable /\
     forall engine array,
       WriteVariableInADIOS T adios' engine variable' array
       = Some (engine ++ [(var, array)])) /\
  (forall T' engine array, T' <> T ->
     WriteVariableInADIOS T' adios' engine variable' array = None) /\
  (forall T' engine array undefined,
     m_VariablePtr undefined = 0 ->
     WriteVariableInADIOS T' adios' engine undefined array = None).
Proof.
  unfold DefineVariableInADIOS, DefineVariable. intros H.
  destruct (Define (m_Name variable) T (m_GlobalDimensions variable) adios)
    as [[h reg1]|e] eqn:E; [|discriminate].
  injection H as <- <-. simpl.
  destruct (Define_registered _ _ _ _ _ _ E) as (Hn & v & Ho & Ht & Hs).
  repeat split; try reflexivity; try discriminate.
  - exists h, v. repeat split; try assumption.
    intros engine array. unfold WriteVariableInADIOS, deref. simpl.
    rewrite Ho. destruct (decide (var_type v = T)); [reflexivity|contradiction].
  - intros T' engine array Hne. unfold WriteVariableInADIOS, deref. simpl.
    rewrite Ho. destruct (decide (var_type v = T')); [congruence|reflexivity].
  - intros T' engine array undefined Hnull.
    unfold WriteVariableInADIOS, deref. rewrite Hnull. reflexivity.
Qed.

(** ** The step controller *)

Section Controller.
Local Open Scope nat_scope.

Lemma nondecreasing_lookup l : forall i j a b,
  nondecreasing l = true -> i <= j ->
  l !! i = Some a -> l !! j = Some b -> a <= b.
Proof.
  induction l as [|x l IH]; intros i j a b Hs Hij Hi Hj; [discriminate|].
  assert (Htail : nondecreasing l = true).
  { simpl in Hs. destruct l; [reflexivity|].
    apply andb_true_iff in Hs as [_ Hs]. exact Hs. }
  assert (Hhead : forall k c, l !! k = Some c -> x <= c).
  { clear i j a b Hij Hi Hj. intros k. revert Hs IH Htail.
    induction k as [|k IHk]; intros Hs IH Htail c Hc.
    - destruct l as [|y l]; [discriminate|]. simpl in Hc. injection Hc as ->.
      simpl in Hs. apply andb_true_iff in Hs as [Hs _].
      apply Nat.leb_le in Hs. exact Hs.
    - destruct l as [|y l]; [discriminate|].
      simpl in Hs. apply andb_true_iff in Hs as [Hxy _].
      apply Nat.leb_le in Hxy.
      specialize (IH 0 (S k) y c Htail ltac:(lia) eq_refl Hc). lia. }
  destruct i as [|i], j as [|j]; simpl in Hi, Hj.
  - injection Hi as <-. injection Hj as <-. lia.
  - injection Hi as <-. eapply Hhead, Hj.
  - lia.
  - eapply IH; [exact Htail| |exact Hi|exact Hj]. lia.
Qed.

Variable tl : Timeline.
Hypothesis Hwf : wf_timeline tl = true.

Lemma seal_order i j a b :
  i <= j -> seal_time tl !! i = Some a -> seal_time tl !! j = Some b -> a <= b.
Proof.
  apply nondecreasing_lookup. unfold wf_timeline in Hwf.
  apply andb_true_iff in Hwf as [H _]. exact H.
Qed.

Lemma seal_before_close tc i a :
  close_time tl = Some tc -> seal_time tl !! i = Some a -> a <= tc.
Proof.
  intros Hc Hi. unfold wf_timeline in Hwf.
  apply andb_true_iff in Hwf as [_ H]. rewrite Hc in H.
  rewrite forallb_forall in H.
  apply Nat.leb_le, H, list_elem_of_In. eapply list_elem_of_lookup_2, Hi.
Qed.

Lemma available_lt k t :
  available tl k t = true -> k < length (seal_time tl).
Proof.
  unfold available. destruct (seal_time tl !! k) eqn:E; [|discriminate].
  intros _. eapply lookup_lt_Some, E.
Qed.

Lemma available_mono k t t' :
  available tl k t = true -> t <= t' -> available tl k t' = true.
Proof.
  unfold available. destruct (seal_time tl !! k); [|discriminate].
  intros H Ht. apply Nat.leb_le in H. apply Nat.leb_le. lia.
Qed.

Lemma closed_mono t t' : closed tl t = true -> t <= t' -> closed tl t' = true.
Proof.
  unfold closed. destruct (close_time tl); [|discriminate].
  intros H Ht. apply Nat.leb_le in H. apply Nat.leb_le. lia.
Qed.

(** Once the writer side has closed, a step that is not Sealed never will
    be, nor will any later one. *)
Lemma closed_nothing_left next t :
  closed tl t = true -> available tl next t = false ->
  length (seal_time tl) <= next /\
  forall k t', next <= k -> available tl k t' = false.
Proof.
  intros Hc Ha.
  assert (Hlen : length (seal_time tl) <= next).
  { unfold closed in Hc. destruct (close_time tl) as [tc|] eqn:Ec; [|discriminate].
    apply Nat.leb_le in Hc. unfold available in Ha.
    destruct (seal_time tl !! next) as [ts|] eqn:Es.
    - pose proof (seal_before_close tc next ts Ec Es).
      apply Nat.leb_gt in Ha. lia.
    - apply lookup_ge_None in Es. exact Es. }
  split; [exact Hlen|]. intros k t' Hk. unfold available.
  rewrite (proj2 (lookup_ge_None (seal_time tl) k)) by lia. reflexivity.
Qed.

Lemma wait_spec next timeout : forall now,
  let '(status, t) := wait tl next now timeout in
  now <= t <= now + timeout /\
  (forall t', now <= t' < t ->
     available tl next t' = false /\ closed tl t' = false) /\
  match status with
  | OK => available tl next t = true
  | EndOfStream => available tl next t = false /\ closed tl t = true
  | NotReady =>
      t = now + timeout /\ available tl next t = false /\ closed tl t = false
  end.
Proof.
  induction timeout as [|timeout IH]; intros now; simpl.
  - destruct (available tl next now) eqn:Ea;
      [|destruct (closed tl now) eqn:Ec];
      (split; [lia|]); (split; [intros t' Ht'; lia|]); auto.
  - destruct (available tl next now) eqn:Ea;
      [|destruct (closed tl now) eqn:Ec].
    + split; [lia|]. split; [intros t' Ht'; lia|]. exact Ea.
    + split; [lia|]. split; [intros t' Ht'; lia|]. auto.
    + specialize (IH (S now)).
      destruct (wait tl next (S now) timeout) as [status t].
      destruct IH as (Ht & Hbefore & Hstatus).
      split; [lia|]. split.
      * intros t' Ht'. destruct (Nat.eq_dec t' now) as [->|Hne]; [auto|].
        apply Hbefore. lia.
      * destruct status; [exact Hstatus|intuition lia|exact Hstatus].
Qed.

End Controller.

(** C4. [BeginStep(NextAvailable, timeout)] of an idle reader returns
    exactly one of three statuses, not later than [timeout] ticks after the
    call.  OK: the next not-yet-admitted step is Sealed and the controller
    is StepActive on it.  NotReady: the whole timeout has passed, and at no
    tick of it was the step Sealed or the stream closed.  EndOfStream: the
    writer side has closed the stream and no step that the reader has not
    admitted will ever be Sealed.  The harness calls it with a timeout of
    60 units. *)
Theorem BeginStep_status_contract tl timeout now h :
  wf_timeline tl = true -> ctl h = Idle ->
  (forall fuel tl' npx_w npy_w steps npx npy rank unit sleeptime busy,
     MainReaders fuel tl' npx_w npy_w steps npx npy rank unit sleeptime busy
     = MainReaders_loop fuel tl'
         (harness_pass npx_w npy_w steps npx npy rank)
         (60 * unit) sleeptime busy 0 (mkReader Idle 0) 0 [] []) /\
  exists status t h',
    BeginStep NextAvailable timeout tl now h = Ok (status, t, h') /\
    (now <= t <= now + timeout)%nat /\
    match status with
    | OK =>
        available tl (next_step h) t = true /\
        h' = mkReader StepActive (next_step h)
    | NotReady =>
        t = (now + timeout)%nat /\ h' = h /\
        forall t', (now <= t' <= now + timeout)%nat ->
          available tl (next_step h) t' = false /\ closed tl t' = false
    | EndOfStream =>
        closed tl t = true /\ h' = h /\
        forall k t', (next_step h <= k)%nat -> available tl k t' = false
    end.
Proof.
  intros Hwf Hidle. split.
  { intros. unfold MainReaders.
    change (Z.to_nat reader_timeout) with 60%nat. reflexivity. }
  unfold BeginStep. rewrite Hidle.
  pose proof (wait_spec tl (next_step h) timeout now) as Hw.
  destruct (wait tl (next_step h) now timeout) as [status t].
  destruct Hw as (Ht & Hbefore & Hstatus).
  destruct status.
  - eexists OK, t, _. split; [reflexivity|]. split; [exact Ht|].
    split; [exact Hstatus|reflexivity].
  - destruct Hstatus as (-> & Ha & Hc).
    eexists NotReady, _, _. split; [reflexivity|]. split; [lia|].
    split; [reflexivity|]. split; [reflexivity|].
    intros t' Ht'.
    destruct (Nat.eq_dec t' (now + timeout)%nat) as [->|Hne]; [auto|].
    apply Hbefore. lia.
  - destruct Hstatus as (Ha & Hc).
    eexists EndOfStream, t, _. split; [reflexivity|]. split; [exact Ht|].
    split; [exact Hc|]. split; [reflexivity|].
    apply (closed_nothing_left tl Hwf (next_step h) t Hc Ha).
Qed.

(** ** The reader's loop *)

Section ReaderLoop.
Local Open Scope nat_scope.

Variable tl : Timeline.
Variable pass : nat -> Z -> list float -> ReadOutcome.
Variables timeout sleeptime : nat.
Variable busy : nat -> nat.

Let total : nat := length (seal_time tl).

Hypothesis Hwf : wf_timeline tl = true.
Hypothesis Hint : (Z.of_nat total <= INT_MAX)%Z.
Hypothesis Hpass :
  forall k buf, k < total -> exists buf', pass k (Z.of_nat k) buf = Checked buf'.

Lemma in_order_S k : in_order k ++ [(k, Z.of_nat k)] = in_order (S k).
Proof. unfold in_order. rewrite seq_S, fmap_app. reflexivity. Qed.

(** One turn of the loop. *)
Lemma loop_turn fuel a now buf :
  MainReaders_loop (S fuel) tl pass timeout sleeptime busy now
    (mkReader Idle a) (Z.of_nat a) buf (in_order a)
  = match wait tl a now timeout with
    | (OK, t) =>
        match pass a (Z.of_nat a) buf with
        | Checked buf' =>
            MainReaders_loop fuel tl pass timeout sleeptime busy
              (t + busy a + sleeptime) (mkReader Idle (S a))
              (wrap_int (Z.of_nat a + 1)) buf' (in_order (S a))
        | o => Threw o (in_order (S a))
        end
    | (status, t) => Finished status (in_order a) t
    end.
Proof.
  cbn [MainReaders_loop]. unfold BeginStep. cbn [ctl next_step].
  destruct (wait tl a now timeout) as [[] t]; try reflexivity.
  cbn [next_step]. rewrite in_order_S.
  destruct (pass a (Z.of_nat a) buf); reflexivity.
Qed.

Lemma counter_next a :
  a < total -> wrap_int (Z.of_nat a + 1) = Z.of_nat (S a).
Proof. intros Ha. rewrite wrap_int_small; unfold INT_MAX in *; lia. Qed.

(** Whatever the paces, the loop admits the steps in order from the first
    and ends on NotReady or EndOfStream, on EndOfStream having admitted
    them all. *)
Lemma loop_in_order fuel : forall a now buf,
  a <= total -> total - a < fuel ->
  exists status k t,
    MainReaders_loop fuel tl pass timeout sleeptime busy now
      (mkReader Idle a) (Z.of_nat a) buf (in_order a)
    = Finished status (in_order k) t /\
    a <= k <= total /\ status <> OK /\ now <= t /\
    (status = EndOfStream -> k = total /\ closed tl t = true) /\
    (status = NotReady -> available tl k t = false /\ closed tl t = false).
Proof.
  induction fuel as [|fuel IH]; intros a now buf Ha Hfuel; [lia|].
  rewrite loop_turn.
  pose proof (wait_spec tl a timeout now) as Hw.
  destruct (wait tl a now timeout) as [status t].
  destruct Hw as (Ht & _ & Hstatus). destruct status.
  - pose proof (available_lt tl a t Hstatus) as Hlt. fold total in Hlt.
    destruct (Hpass a buf Hlt) as [buf' ->].
    rewrite counter_next by exact Hlt.
    destruct (IH (S a) (t + busy a + sleeptime) buf' ltac:(lia) ltac:(lia))
      as (status & k & t' & E & Hk & Hne & Hnow & Hend).
    exists status, k, t'. split; [exact E|]. repeat split; try lia; tauto.
  - destruct Hstatus as (_ & Hav & Hcl).
    exists NotReady, a, t. split; [reflexivity|].
    repeat split; try lia; try discriminate; assumption.
  - destruct Hstatus as (Hav & Hcl).
    destruct (closed_nothing_left tl Hwf a t Hcl Hav) as [Hlen _].
    fold total in Hlen.
    exists EndOfStream, a, t. split; [reflexivity|].
    repeat split; try lia; try discriminate; assumption.
Qed.

(** After the close every call returns at once: the loop drains what is
    left and ends on EndOfStream. *)
Lemma loop_after_close tc fuel : forall a now buf,
  close_time tl = Some tc -> tc <= now ->
  a <= total -> total - a < fuel ->
  exists t,
    MainReaders_loop fuel tl pass timeout sleeptime busy now
      (mkReader Idle a) (Z.of_nat a) buf (in_order a)
    = Finished EndOfStream (in_order total) t.
Proof.
  intros a now buf Hclose Hnow Ha Hfuel.
  destruct (loop_in_order fuel a now buf Ha Hfuel)
    as (status & k & t & E & Hk & Hne & Ht & Hend & Hnot).
  destruct status; [congruence| |].
  - exfalso. destruct (Hnot eq_refl) as [_ Hc].
    unfold closed in Hc. rewrite Hclose in Hc.
    apply Nat.leb_gt in Hc. lia.
  - destruct (Hend eq_refl) as [-> _]. exists t. exact E.
Qed.

(** With a writer that is never more than the timeout late, the loop
    admits every step and ends on EndOfStream, whatever the reader's own
    pace. *)
Lemma loop_paced fuel : forall a now prev buf,
  paced_from timeout prev (drop a (seal_time tl)) (close_time tl) = true ->
  prev <= now -> a <= total -> total - a < fuel ->
  exists t,
    MainReaders_loop fuel tl pass timeout sleeptime busy now
      (mkReader Idle a) (Z.of_nat a) buf (in_order a)
    = Finished EndOfStream (in_order total) t.
Proof.
  induction fuel as [|fuel IH]; intros a now prev buf Hp Hprev Ha Hfuel; [lia|].
  rewrite loop_turn.
  pose proof (wait_spec tl a timeout now) as Hw.
  destruct (wait tl a now timeout) as [status t].
  destruct Hw as (Ht & _ & Hstatus).
  destruct (seal_time tl !! a) as [ts|] eqn:Ea.
  - rewrite (drop_S _ _ _ Ea) in Hp. simpl in Hp.
    apply andb_true_iff in Hp as [Hts Hp]. apply Nat.leb_le in Hts.
    pose proof (lookup_lt_Some _ _ _ Ea) as Hlt. fold total in Hlt.
    assert (Hav : forall u, available tl a u = (ts <=? u)).
    { intros u. unfold available. rewrite Ea. reflexivity. }
    destruct status.
    + destruct (Hpass a buf Hlt) as [buf' ->].
      rewrite counter_next by exact Hlt.
      rewrite Hav in Hstatus. apply Nat.leb_le in Hstatus.
      apply (IH (S a) _ ts buf' Hp); lia.
    + exfalso. destruct Hstatus as (-> & Hnav & _).
      rewrite Hav in Hnav. apply Nat.leb_gt in Hnav. lia.
    + exfalso. destruct Hstatus as (Hnav & Hcl).
      destruct (closed_nothing_left tl Hwf a t Hcl Hnav) as [Hlen _].
      fold total in Hlen. lia.
  - pose proof (proj1 (lookup_ge_None _ _) Ea) as Hge. fold total in Hge.
    rewrite drop_ge in Hp by (fold total; lia). simpl in Hp.
    destruct (close_time tl) as [tc|] eqn:Ec; [|discriminate].
    apply Nat.leb_le in Hp.
    destruct status.
    + exfalso. unfold available in Hstatus. rewrite Ea in Hstatus. discriminate.
    + exfalso. destruct Hstatus as (-> & _ & Hncl).
      unfold closed in Hncl. rewrite Ec in Hncl.
      apply Nat.leb_gt in Hncl. lia.
    + assert (a = total) as -> by lia. exists t. reflexivity.
Qed.

End ReaderLoop.

(** ** A group of writers *)

Section WriterGroup.
Local Open Scope nat_scope.

Lemma nondecreasing_cons a l :
  nondecreasing (a :: l) = true <->
  nondecreasing l = true /\ forall b, head l = Some b -> a <= b.
Proof.
  destruct l as [|b l]; simpl.
  - split; [intros _; split; [reflexivity|discriminate]|reflexivity].
  - rewrite andb_true_iff, Nat.leb_le. split.
    + intros [Hab Hl]. split; [exact Hl|]. intros b' [= <-]. exact Hab.
    + intros [Hl Hab]. split; [apply Hab; reflexivity|exact Hl].
Qed.

Lemma nondecreasing_zip_max a : forall b,
  nondecreasing a = true -> nondecreasing b = true ->
  nondecreasing (zip_with Nat.max a b) = true.
Proof.
  induction a as [|x a IH]; intros [|y b] Ha Hb; try reflexivity.
  apply nondecreasing_cons in Ha as [Ha Hx].
  apply nondecreasing_cons in Hb as [Hb Hy].
  cbn [zip_with]. apply nondecreasing_cons. split; [apply IH; assumption|].
  intros m Hm. destruct a as [|x' a], b as [|y' b]; try discriminate.
  simpl in Hm. injection Hm as <-.
  specialize (Hx x' eq_refl). specialize (Hy y' eq_refl). lia.
Qed.

Lemma bounded_zip_max c d a : forall b,
  forallb (fun ts => ts <=? c) a = true ->
  forallb (fun ts => ts <=? d) b = true ->
  forallb (fun ts => ts <=? Nat.max c d) (zip_with Nat.max a b) = true.
Proof.
  induction a as [|x a IH]; intros [|y b] Ha Hb; try reflexivity.
  simpl in Ha, Hb. apply andb_true_iff in Ha as [Hx Ha].
  apply andb_true_iff in Hb as [Hy Hb].
  apply Nat.leb_le in Hx. apply Nat.leb_le in Hy.
  cbn [zip_with forallb]. apply andb_true_iff. split.
  - apply Nat.leb_le. lia.
  - apply IH; assumption.
Qed.

Lemma group_fold_wf ws : forall seals close,
  wf_timeline (mkTimeline seals close) = true ->
  forallb wf_writer ws = true ->
  wf_timeline
    (mkTimeline
       (fold_left (fun acc w' => zip_with Nat.max acc (end_times w')) ws seals)
       (fold_left (fun acc w' => later acc (closed_at w')) ws close)) = true.
Proof.
  induction ws as [|w ws IH]; intros seals close Hacc Hws; [exact Hacc|].
  simpl in Hws. apply andb_true_iff in Hws as [Hw Hws].
  cbn [fold_left]. apply IH; [|exact Hws].
  unfold wf_timeline in *. cbn [seal_time close_time] in *.
  unfold wf_writer in Hw.
  apply andb_true_iff in Hacc as [Hs Hc]. apply andb_true_iff in Hw as [Hws' Hwc].
  apply andb_true_iff. split; [apply nondecreasing_zip_max; assumption|].
  destruct close as [c|], (closed_at w) as [d|]; try reflexivity.
  simpl. apply bounded_zip_max; assumption.
Qed.

Lemma group_timeline_wf ws :
  forallb wf_writer ws = true -> wf_timeline (group_timeline ws) = true.
Proof.
  destruct ws as [|w ws]; [reflexivity|]. simpl. intros H.
  apply andb_true_iff in H as [Hw Hws].
  apply group_fold_wf; [exact Hw|exact Hws].
Qed.

Lemma later_fold_Some ws : forall close tc,
  fold_left (fun acc w' => later acc (closed_at w')) ws close = Some tc ->
  (exists c, close = Some c /\ c <= tc) /\
  forall w, w ∈ ws -> exists c, closed_at w = Some c /\ c <= tc.
Proof.
  induction ws as [|w ws IH]; intros close tc H; simpl in H.
  - split; [exists tc; split; [exact H|lia]|]. intros w Hw. inversion Hw.
  - destruct (IH _ _ H) as [(m & Hm & Hle) Hrest].
    destruct close as [c|], (closed_at w) as [d|] eqn:Ed; try discriminate.
    simpl in Hm. injection Hm as <-.
    split; [exists c; split; [reflexivity|lia]|].
    intros w' Hw'. apply elem_of_cons in Hw' as [->|Hw'].
    + exists d. split; [exact Ed|lia].
    + apply Hrest, Hw'.
Qed.

(** The stream is closed only when every writer process has closed it. *)
Lemma group_closed_all ws tc :
  close_time (group_timeline ws) = Some tc ->
  ws <> [] /\ forall w, w ∈ ws -> exists c, closed_at w = Some c /\ c <= tc.
Proof.
  destruct ws as [|w ws]; [discriminate|]. simpl. intros H.
  split; [discriminate|].
  destruct (later_fold_Some ws _ _ H) as [(c & Hc & Hle) Hrest].
  intros w' Hw'. apply elem_of_cons in Hw' as [->|Hw'].
  - exists c. split; assumption.
  - apply Hrest, Hw'.
Qed.

End WriterGroup.

(** What the close of the writer side does to the readers of a stream. *)
Lemma close_propagation tl tc :
  wf_timeline tl = true -> close_time tl = Some tc ->
  Z.of_nat (length (seal_time tl)) <= INT_MAX ->
  let total := length (seal_time tl) in
  (forall timeout now h,
     ctl h = Idle -> (tc <= now)%nat ->
     BeginStep NextAvailable timeout tl now h
     = Ok (if (next_step h <? total)%nat
           then (OK, now, mkReader StepActive (next_step h))
           else (EndOfStream, now, h))) /\
  (forall pass timeout sleeptime busy now a buf,
     (forall k b, (k < total)%nat ->
                  exists b', pass k (Z.of_nat k) b = Checked b') ->
     (tc <= now)%nat -> (a <= total)%nat ->
     exists t,
       MainReaders_loop (S (total - a)) tl pass timeout sleeptime busy now
         (mkReader Idle a) (Z.of_nat a) buf (in_order a)
       = Finished EndOfStream (in_order total) t) /\
  (forall timeout now h,
     ctl h = Idle -> (now <= tc <= now + timeout)%nat ->
     exists status t h',
       BeginStep NextAvailable timeout tl now h = Ok (status, t, h') /\
       (now <= t <= tc)%nat /\ status <> NotReady /\
       ((total <= next_step h)%nat -> status = EndOfStream /\ t = tc)) /\
  (forall pass timeout sleeptime busy,
     (forall k b, (k < total)%nat ->
                  exists b', pass k (Z.of_nat k) b = Checked b') ->
     paced timeout tl = true ->
     exists t,
       MainReaders_loop (S total) tl pass timeout sleeptime busy 0
         (mkReader Idle 0) 0 [] []
       = Finished EndOfStream (in_order total) t).
Proof.
  intros Hwf Hclose Hint total.
  assert (Hclosed : forall t, closed tl t = (tc <=? t)%nat).
  { intros t. unfold closed. rewrite Hclose. reflexivity. }
  split; [|split; [|split]].
  - intros timeout now h Hidle Hnow.
    unfold BeginStep. rewrite Hidle.
    pose proof (wait_spec tl (next_step h) timeout now) as Hw.
    destruct (wait tl (next_step h) now timeout) as [status t].
    destruct Hw as (Ht & Hbefore & Hstatus).
    assert (t = now) as ->.
    { destruct (Nat.eq_dec t now) as [|Hne]; [assumption|exfalso].
      destruct (Hbefore now ltac:(lia)) as [_ Hc].
      rewrite Hclosed in Hc. apply Nat.leb_gt in Hc. lia. }
    destruct (next_step h <? total)%nat eqn:El.
    + apply Nat.ltb_lt in El. subst total.
      destruct (lookup_lt_is_Some_2 _ _ El) as [ts Ets].
      pose proof (seal_before_close tl Hwf tc _ ts Hclose Ets) as Hts.
      assert (Hav : available tl (next_step h) now = true).
      { unfold available. rewrite Ets. apply Nat.leb_le. lia. }
      destruct status; [reflexivity| |]; exfalso.
      * destruct Hstatus as (_ & Hnav & _). congruence.
      * destruct Hstatus as (Hnav & _). congruence.
    + apply Nat.ltb_ge in El. subst total.
      destruct status.
      * apply available_lt in Hstatus. lia.
      * destruct Hstatus as (_ & _ & Hc). rewrite Hclosed in Hc.
        apply Nat.leb_gt in Hc. lia.
      * reflexivity.
  - intros pass timeout sleeptime busy now a buf Hpass Hnow Ha.
    apply (loop_after_close tl pass timeout sleeptime busy Hwf Hint Hpass tc);
      try assumption. fold total. lia.
  - intros timeout now h Hidle Hnow.
    unfold BeginStep. rewrite Hidle.
    pose proof (wait_spec tl (next_step h) timeout now) as Hw.
    destruct (wait tl (next_step h) now timeout) as [status t].
    destruct Hw as (Ht & Hbefore & Hstatus).
    assert (Htc : (t <= tc)%nat).
    { destruct (le_lt_dec t tc) as [|Hlt]; [assumption|exfalso].
      destruct (Hbefore tc ltac:(lia)) as [_ Hc].
      rewrite Hclosed in Hc. apply Nat.leb_gt in Hc. lia. }
    assert (Hnr : status <> NotReady).
    { intros ->. destruct Hstatus as (-> & _ & Hc).
      rewrite Hclosed in Hc. apply Nat.leb_gt in Hc. lia. }
    assert (Hdone : (total <= next_step h)%nat -> status = EndOfStream /\ t = tc).
    { intros Hall. destruct status.
      - apply available_lt in Hstatus. subst total. lia.
      - congruence.
      - split; [reflexivity|]. destruct Hstatus as [_ Hc].
        rewrite Hclosed in Hc. apply Nat.leb_le in Hc. lia. }
    destruct status.
    + eexists OK, t, _. split; [reflexivity|].
      split; [lia|]. split; [exact Hnr|exact Hdone].
    + congruence.
    + eexists EndOfStream, t, _. split; [reflexivity|].
      split; [lia|]. split; [exact Hnr|exact Hdone].
  - intros pass timeout sleeptime busy Hpass Hpaced.
    apply (loop_paced tl pass timeout sleeptime busy Hwf Hint Hpass
             (S total) 0%nat 0%nat 0%nat []).
    + rewrite drop_0. exact Hpaced.
    + lia.
    + lia.
    + fold total. lia.
Qed.

(** C5. Writer-close propagation.  On a stream every writer process of
    which has closed, the last of them at tick [tc]: a [BeginStep] called
    after the close returns at once, OK while a Sealed step is left to
    admit and EndOfStream afterwards, so a reader that keeps calling it admits what is left and
    then gets EndOfStream; a reader parked in [BeginStep] at the close is
    released not later than the close, never with NotReady, and with
    EndOfStream at the close when it had admitted every step; this holds
    for every pace of the writer and of the reader, and with a writer that
    is never more than the timeout late the harness's loop ends on
    EndOfStream having admitted every step. *)
Theorem writer_close_propagation ws tc :
  forallb wf_writer ws = true ->
  close_time (group_timeline ws) = Some tc ->
  Z.of_nat (length (seal_time (group_timeline ws))) <= INT_MAX ->
  let tl := group_timeline ws in
  let total := length (seal_time tl) in
  (forall w, w ∈ ws -> exists c, closed_at w = Some c /\ (c <= tc)%nat) /\
  (forall timeout now h,
     ctl h = Idle -> (tc <= now)%nat ->
     BeginStep NextAvailable timeout tl now h
     = Ok (if (next_step h <? total)%nat
           then (OK, now, mkReader StepActive (next_step h))
           else (EndOfStream, now, h))) /\
  (forall pass timeout sleeptime busy now a buf,
     (forall k b, (k < total)%nat ->
                  exists b', pass k (Z.of_nat k) b = Checked b') ->
     (tc <= now)%nat -> (a <= total)%nat ->
     exists t,
       MainReaders_loop (S (total - a)) tl pass timeout sleeptime busy now
         (mkReader Idle a) (Z.of_nat a) buf (in_order a)
       = Finished EndOfStream (in_order total) t) /\
  (forall timeout now h,
     ctl h = Idle -> (now <= tc <= now + timeout)%nat ->
     exists status t h',
       BeginStep NextAvailable timeout tl now h = Ok (status, t, h') /\
       (now <= t <= tc)%nat /\ status <> NotReady /\
       ((total <= next_step h)%nat -> status = EndOfStream /\ t = tc)) /\
  (forall pass timeout sleeptime busy,
     (forall k b, (k < total)%nat ->
                  exists b', pass k (Z.of_nat k) b = Checked b') ->
     paced timeout tl = true ->
     exists t,
       MainReaders_loop (S total) tl pass timeout sleeptime busy 0
         (mkReader Idle 0) 0 [] []
       = Finished EndOfStream (in_order total) t).
Proof.
  intros Hws Hclose Hint tl total.
  split; [apply (group_closed_all ws tc Hclose)|].
  apply (close_propagation tl tc (group_timeline_wf ws Hws) Hclose Hint).
Qed.

(** The step with sequence number [k] of a run: it holds what every writer
    rank put in the turn [k] of its own loop, and the pass of a reader over
    it gets the reader's block of these values when the block is not
    empty, and is refused by the engine when it is. *)
Lemma harness_step p rank steps k :
  let gndx := npx_w p * 50 in
  let gndy := npy_w p * 60 in
  let g := reader_geometry gndx gndy (npx_r p) (npy_r p) rank in
  1 <= npx_w p -> 1 <= npy_w p -> 1 <= npx_r p -> 1 <= npy_r p ->
  npx_w p * npy_w p <= INT_MAX -> npx_r p * npy_r p <= INT_MAX ->
  g_ndx g * g_ndy g <= INT_MAX ->
  0 <= rank < npx_r p * npy_r p ->
  0 <= Z.of_nat k < steps ->
  exists payloads,
    sealed_step (npx_w p) (npy_w p) steps (Z.of_nat k) = Some payloads /\
    (forall wr, 0 <= wr < npx_w p * npy_w p ->
       exists wrun pl,
         MainWriters (npx_w p) (npy_w p) wr steps = Ok wrun /\
         wrun !! k = Some pl /\ pl ∈ payloads /\
         block_filled (writer_geometry (npx_w p) (npy_w p) wr) (Z.of_nat k)
                      (pl_buf pl)) /\
    (0 < g_ndx g -> 0 < g_ndy g ->
     forall buf, exists buf',
       reader_pass (npx_r p) (npy_r p) rank (Z.of_nat k) payloads buf
       = Checked buf' /\
       CheckData buf' gndx gndy (g_offsx g) (g_offsy g) (g_ndx g) (g_ndy g)
                 (Z.of_nat k) rank = true /\
       forall j i, 0 <= j < g_ndx g -> 0 <= i < g_ndy g ->
         buf' !! Z.to_nat (j * g_ndy g + i)
         = Some (GetValue gndx gndy (g_offsx g + j) (g_offsy g + i)
                          (Z.of_nat k))) /\
    (g_ndx g = 0 \/ g_ndy g = 0 ->
     forall buf,
       reader_pass (npx_r p) (npy_r p) rank (Z.of_nat k) payloads buf
       = EngineError InvalidSelection).
Proof.
  intros gndx gndy g Hxw Hyw Hxr Hyr Hnw Hnr Hblock Hrank Hk.
  destruct (sealed_step_spec (npx_w p) (npy_w p) steps (Z.of_nat k)
              Hxw Hyw Hnw Hk) as (payloads & Hsealed & _ & Hto).
  destruct (sealed_step_written (npx_w p) (npy_w p) steps (Z.of_nat k)
              Hxw Hyw Hnw Hk) as (payloads' & Hsealed' & Hw).
  rewrite Hsealed in Hsealed'. injection Hsealed' as <-.
  destruct (Hw payloads ltac:(reflexivity)) as [Hall Hex].
  exists payloads. split; [exact Hsealed|]. split; [|split].
  - intros wr Hwr.
    destruct (Hto wr Hwr) as (pl & Hin & Hc).
    destruct (contribution_spec (npx_w p) (npy_w p) steps (Z.of_nat k)
                Hxw Hyw Hnw Hk wr Hwr) as (buf & Hc' & Hfilled).
    rewrite Hc in Hc'. injection Hc' as ->.
    unfold contribution in Hc.
    destruct (MainWriters (npx_w p) (npy_w p) wr steps) as [wrun|e];
      [|discriminate].
    rewrite Nat2Z.id in Hc.
    eexists wrun, _. split; [reflexivity|]. split; [exact Hc|].
    split; [exact Hin|exact Hfilled].
  - intros Hpx Hpy buf.
    destruct (reader_pass_block (npx_w p) (npy_w p) (npx_r p) (npy_r p)
                (Z.of_nat k) rank payloads buf Hxw Hyw Hxr Hyr Hnw Hnr
                ltac:(lia) Hrank Hblock Hall Hex Hpx Hpy)
      as (buf' & Hpass & Hcells).
    destruct (reader_block_bounds (npx_w p) (npy_w p) (npx_r p) (npy_r p) rank
                Hxw Hyw Hxr Hyr Hnw Hnr Hrank)
      as (_ & Hox & _ & Hbx & Hoy & _ & Hby & _).
    fold gndx gndy g in Hcells, Hox, Hbx, Hoy, Hby.
    assert (Hgx : gndx < 2 ^ 64) by (subst gndx; unfold INT_MAX in *; nia).
    assert (Hgy : gndy < 2 ^ 64) by (subst gndy; unfold INT_MAX in *; nia).
    exists buf'. split; [exact Hpass|]. split; [|exact Hcells].
    apply CheckData_cells; try lia.
    intros j i Hj Hi. eexists. split; [apply Hcells; assumption|].
    apply GetValue_feqb; lia.
  - intros Hempty buf.
    apply (reader_pass_empty_block (npx_w p) (npy_w p) (npx_r p) (npy_r p)
             (Z.of_nat k) rank payloads buf Hxw Hyw Hall Hex Hempty).
Qed.

Lemma in_order_lookup n i :
  (i < n)%nat -> in_order n !! i = Some (i, Z.of_nat i).
Proof.
  intros Hi. unfold in_order. rewrite list_lookup_fmap.
  rewrite lookup_seq_lt by exact Hi. reflexivity.
Qed.

(** C3. Step ordering.  A [BeginStep] of the reader that returns OK
    admits the step after the ones admitted before, at a tick at which this
    step and every step before it is Sealed.  On a run of [steps] steps,
    for every reader process and whatever the paces of the writers and of
    the reader, the loop of [MainReaders] ends having admitted the steps with sequence
    numbers 0, 1, ..., n-1, in this order and without a gap, the i-th of
    them with the counter [step] at i.  It ends on NotReady or EndOfStream
    (on EndOfStream the stream is closed and n is the number of steps the
    writers sealed), or, for a reader whose block is empty, by the engine's
    refusal of the selection on the first step it admits.  The step
    admitted i-th holds what every writer rank put in the turn i of its
    own loop, and on every step the reader has checked, [CheckData], called
    with the counter at i, returns on a buffer that holds in every cell the
    value of the cell's global coordinate in the writers' step i. *)
Theorem step_ordering p numprocs wrank rank steps tl unit sleeptime busy :
  let gndx := npx_w p * 50 in
  let gndy := npy_w p * 60 in
  let g := reader_geometry gndx gndy (npx_r p) (npy_r p) rank in
  let run := MainReaders (S (Z.to_nat steps)) tl (npx_w p) (npy_w p) steps
                         (npx_r p) (npy_r p) rank unit sleeptime busy in
  1 <= npx_w p -> 1 <= npy_w p -> 1 <= npx_r p -> 1 <= npy_r p ->
  npx_w p * npy_w p <= INT_MAX -> npx_r p * npy_r p <= INT_MAX ->
  g_ndx g * g_ndy g <= INT_MAX ->
  TestCommon_role p numprocs wrank = Reader rank ->
  0 <= steps <= INT_MAX ->
  wf_timeline tl = true -> length (seal_time tl) = Z.to_nat steps ->
  (forall timeout now h t h',
     ctl h = Idle ->
     BeginStep NextAvailable timeout tl now h = Ok (OK, t, h') ->
     next_step h' = next_step h /\
     (forall j, (j <= next_step h)%nat -> available tl j t = true) /\
     EndStep h' = Ok (mkReader Idle (S (next_step h)))) /\
  exists n k : nat,
    (k <= n <= Z.to_nat steps)%nat /\
    ((exists status t,
        run = Finished status (in_order n) t /\ k = n /\ status <> OK /\
        (status = EndOfStream -> n = Z.to_nat steps /\ closed tl t = true) /\
        (status = NotReady ->
         available tl n t = false /\ closed tl t = false)) \/
     (run = Threw (EngineError InvalidSelection) (in_order n) /\
      n = 1%nat /\ k = 0%nat /\ (g_ndx g = 0 \/ g_ndy g = 0))) /\
    forall i, (i < n)%nat ->
      in_order n !! i = Some (i, Z.of_nat i) /\
      exists payloads,
        sealed_step (npx_w p) (npy_w p) steps (Z.of_nat i) = Some payloads /\
        (forall wr, 0 <= wr < npx_w p * npy_w p ->
           exists wrun pl,
             MainWriters (npx_w p) (npy_w p) wr steps = Ok wrun /\
             wrun !! i = Some pl /\ pl ∈ payloads /\
             block_filled (writer_geometry (npx_w p) (npy_w p) wr)
                          (Z.of_nat i) (pl_buf pl)) /\
        ((i < k)%nat ->
         forall buf, exists buf',
           reader_pass (npx_r p) (npy_r p) rank (Z.of_nat i) payloads buf
           = Checked buf' /\
           CheckData buf' gndx gndy (g_offsx g) (g_offsy g)
                     (g_ndx g) (g_ndy g) (Z.of_nat i) rank = true /\
           forall j i', 0 <= j < g_ndx g -> 0 <= i' < g_ndy g ->
             buf' !! Z.to_nat (j * g_ndy g + i')
             = Some (GetValue gndx gndy (g_offsx g + j) (g_offsy g + i')
                              (Z.of_nat i))).
Proof.
  intros gndx gndy g run Hxw Hyw Hxr Hyr Hnw Hnr Hblock Hrole Hsteps Hwf Hlen.
  pose proof (reader_role_rank p numprocs wrank rank Hxw Hyw Hxr Hyr Hnw Hnr Hrole)
    as Hrank.
  destruct (reader_block_bounds (npx_w p) (npy_w p) (npx_r p) (npy_r p) rank
              Hxw Hyw Hxr Hyr Hnw Hnr Hrank)
    as (_ & _ & Hnx & _ & _ & Hny & _).
  fold gndx gndy g in Hnx, Hny.
  pose proof (fun k Hk => harness_step p rank steps k Hxw Hyw Hxr Hyr Hnw Hnr
                            Hblock Hrank Hk) as Hstep.
  cbv zeta in Hstep. fold gndx gndy g in Hstep.
  assert (Hdata : forall n k i : nat,
            (n <= Z.to_nat steps)%nat -> (i < n)%nat ->
            ((i < k)%nat -> 0 < g_ndx g /\ 0 < g_ndy g) ->
            in_order n !! i = Some (i, Z.of_nat i) /\
            exists payloads,
              sealed_step (npx_w p) (npy_w p) steps (Z.of_nat i)
              = Some payloads /\
              (forall wr, 0 <= wr < npx_w p * npy_w p ->
                 exists wrun pl,
                   MainWriters (npx_w p) (npy_w p) wr steps = Ok wrun /\
                   wrun !! i = Some pl /\ pl ∈ payloads /\
                   block_filled (writer_geometry (npx_w p) (npy_w p) wr)
                                (Z.of_nat i) (pl_buf pl)) /\
              ((i < k)%nat ->
               forall buf, exists buf',
                 reader_pass (npx_r p) (npy_r p) rank (Z.of_nat i) payloads buf
                 = Checked buf' /\
                 CheckData buf' gndx gndy (g_offsx g) (g_offsy g)
                           (g_ndx g) (g_ndy g) (Z.of_nat i) rank = true /\
                 forall j i', 0 <= j < g_ndx g -> 0 <= i' < g_ndy g ->
                   buf' !! Z.to_nat (j * g_ndy g + i')
                   = Some (GetValue gndx gndy (g_offsx g + j) (g_offsy g + i')
                                    (Z.of_nat i)))).
  { intros n k i Hn Hi Hne. split; [apply in_order_lookup, Hi|].
    destruct (Hstep i ltac:(lia)) as (payloads & Hs & Hwr & Hgot & _).
    exists payloads. split; [exact Hs|]. split; [exact Hwr|].
    intros Hik. destruct (Hne Hik) as [Hpx Hpy]. apply Hgot; assumption. }
  split.
  { intros timeout now h t h' Hidle Hbegin.
    unfold BeginStep in Hbegin. rewrite Hidle in Hbegin.
    pose proof (wait_spec tl (next_step h) timeout now) as Hwait.
    destruct (wait tl (next_step h) now timeout) as [status t0].
    destruct Hwait as (_ & _ & Hstatus).
    destruct status; try discriminate.
    injection Hbegin as <- <-. cbn [next_step ctl].
    split; [reflexivity|]. split; [|reflexivity].
    intros j Hj. unfold available in *.
    destruct (seal_time tl !! next_step h) as [b|] eqn:Eb; [|discriminate].
    destruct (seal_time tl !! j) as [a|] eqn:Ea.
    - pose proof (seal_order tl Hwf j (next_step h) a b Hj Ea Eb).
      apply Nat.leb_le in Hstatus. apply Nat.leb_le. lia.
    - apply lookup_ge_None_1 in Ea. apply lookup_lt_Some in Eb. lia. }
  destruct (decide (0 < g_ndx g /\ 0 < g_ndy g)) as [[Hpx Hpy]|Hempty].
  - assert (Hpass : forall k buf, (k < length (seal_time tl))%nat ->
              exists buf',
                harness_pass (npx_w p) (npy_w p) steps (npx_r p) (npy_r p) rank
                             k (Z.of_nat k) buf = Checked buf').
    { intros k buf Hk.
      destruct (Hstep k ltac:(lia)) as (payloads & Hs & _ & Hgot & _).
      destruct (Hgot Hpx Hpy buf) as (buf' & Hb & _).
      exists buf'. unfold harness_pass. rewrite Hs. exact Hb. }
    destruct (loop_in_order tl _ (Z.to_nat reader_timeout * unit) sleeptime busy
                Hwf ltac:(lia) Hpass
                (S (Z.to_nat steps)) 0%nat 0%nat [] ltac:(lia) ltac:(lia))
      as (status & n & t & E & Hn & Hne & _ & Hend & Hnot).
    exists n, n. split; [lia|]. split.
    + left. exists status, t. split; [exact E|]. split; [reflexivity|].
      split; [exact Hne|].
      split; [intros Hs; destruct (Hend Hs); split; [lia|assumption]|].
      exact Hnot.
    + intros i Hi. apply Hdata; [lia|exact Hi|]. intros _. split; assumption.
  - assert (Hzero : g_ndx g = 0 \/ g_ndy g = 0) by lia.
    subst run. unfold MainReaders.
    pose proof (loop_turn tl
                  (harness_pass (npx_w p) (npy_w p) steps (npx_r p) (npy_r p)
                                rank)
                  (Z.to_nat reader_timeout * unit) sleeptime busy
                  (Z.to_nat steps) 0 0 []) as Hturn.
    change (Z.of_nat 0) with 0 in Hturn.
    change (in_order 0) with (@nil (nat * Z)) in Hturn.
    rewrite Hturn. clear Hturn.
    pose proof (wait_spec tl 0 (Z.to_nat reader_timeout * unit) 0) as Hwait.
    destruct (wait tl 0 0 (Z.to_nat reader_timeout * unit)) as [status t].
    destruct Hwait as (_ & _ & Hstatus).
    destruct status.
    + pose proof (available_lt tl 0 t Hstatus) as Hlt.
      destruct (Hstep 0%nat ltac:(lia)) as (payloads & Hs & _ & _ & Hrefused).
      pose proof (Hrefused Hzero []) as Hr.
      change (Z.of_nat 0) with 0 in Hr.
      unfold harness_pass. rewrite Hs, Hr.
      exists 1%nat, 0%nat. split; [lia|]. split.
      * right. split; [reflexivity|]. split; [reflexivity|].
        split; [reflexivity|exact Hzero].
      * intros i Hi. apply Hdata; [lia|exact Hi|]. intros Hik. lia.
    + exists 0%nat, 0%nat. split; [lia|]. split.
      * left. exists NotReady, t. split; [reflexivity|].
        split; [reflexivity|]. split; [discriminate|].
        split; [discriminate|].
        intros _. destruct Hstatus as (_ & Ha & Hc). split; assumption.
      * intros i Hi. lia.
    + exists 0%nat, 0%nat. split; [lia|]. split.
      * left. exists EndOfStream, t. split; [reflexivity|].
        split; [reflexivity|]. split; [discriminate|].
        split; [|discriminate].
        intros _. destruct Hstatus as (Ha & Hc).
        destruct (closed_nothing_left tl Hwf 0 t Hc Ha) as [Hle _].
        split; [lia|exact Hc].
      * intros i Hi. lia.
Qed.

(** * Further properties of the harness *)

(** ** The cell values *)

Lemma add64_nonneg a b : 0 <= add64 a b.
Proof.
  unfold add64, wrap64, SIZE_MOD.
  pose proof (Z.mod_pos_bound (a + b) (2 ^ 64) ltac:(lia)). lia.
Qed.

Lemma int_to_size_t_small k : 0 <= k <= INT_MAX -> int_to_size_t k = k.
Proof.
  intros H. unfold int_to_size_t. apply wrap64_small.
  pose proof INT_MAX_lt_size. lia.
Qed.

(** X1. The value every cell is given is a number with the sign bit clear:
    [GetValue] of a step that is not negative is never a NaN and never
    negative, and [!=] of it with itself is false. *)
Theorem GetValue_never_nan gndx gndy offsx offsy step :
  0 <= step -> 0 <= offsy ->
  let v := GetValue gndx gndy offsx offsy step in
  v <> S754_nan /\
  match v with
  | S754_zero s | S754_infinity s | S754_finite s _ _ => s = false
  | S754_nan => True
  end /\
  fneb v v = false.
Proof.
  intros Hstep Hy v.
  pose proof (GetValue_sign gndx gndy offsx offsy step Hstep Hy) as Hs.
  fold v in Hs.
  assert (Hr : feqb v v = true) by (apply (feqb_refl false); exact Hs).
  unfold fneb. rewrite Hr.
  destruct v; simpl in Hs; try contradiction;
    (split; [discriminate|]; split; [exact Hs|reflexivity]).
Qed.

(** ** The fill loop of the writers *)

(** X2. After the two loops of [MainWriters] the buffer is the row-major table
    of the block: the position k holds [GetValue] of the cell
    (k / ndy, k mod ndy), whatever the buffer held before. *)
Theorem fill_row_major gndx gndy offsx offsy ndx ndy step a :
  0 <= ndx -> 0 <= ndy -> ndx * ndy <= INT_MAX ->
  Z.of_nat (length a) = ndx * ndy ->
  fill gndx gndy offsx offsy ndx ndy step a
  = (fun k => GetValue gndx gndy (add64 offsx (k / ndy))
                       (add64 offsy (k mod ndy)) step)
    <$> seqZ 0 (ndx * ndy).
Proof.
  intros Hx Hy Hint Hlen.
  apply list_eq. intros n.
  rewrite list_lookup_fmap.
  destruct (decide (Z.of_nat n < ndx * ndy)) as [Hn|Hn].
  - destruct (row_major_index ndx ndy (Z.of_nat n) Hx Hy ltac:(lia))
      as (Hj & Hi & Hk).
    rewrite lookup_seqZ_lt by lia. simpl.
    pose proof (fill_lookup gndx gndy offsx offsy ndx ndy step a
                  Hx Hy Hint Hlen _ _ Hj Hi) as Hl.
    rewrite Hk, Nat2Z.id in Hl. rewrite Hl.
    rewrite !int_to_size_t_small by nia. reflexivity.
  - rewrite lookup_seqZ_ge by lia. simpl.
    apply lookup_ge_None_2.
    rewrite (fill_length gndx gndy offsx offsy ndx ndy step a Hx Hy Hint Hlen).
    lia.
Qed.

(** ** The check of the readers *)

(** X3. [CheckData] throws exactly when a cell of the block it is given
    differs from the value expected at the cell. *)
Theorem CheckData_throws_iff array gndx gndy offsx offsy ndx ndy step rank :
  0 <= ndx -> 0 <= ndy -> ndx * ndy <= INT_MAX ->
  ndx * ndy <= Z.of_nat (length array) ->
  (CheckData array gndx gndy offsx offsy ndx ndy step rank = false <->
   exists j i received,
     0 <= j < ndx /\ 0 <= i < ndy /\
     array !! Z.to_nat (j * ndy + i) = Some received /\
     fneb received (expected_value gndx gndy offsx offsy step j i) = true).
Proof.
  intros Hx Hy Hint Hlen. split.
  - apply CheckData_false_cell; assumption.
  - intros (j & i & v & Hj & Hi & Hv & Hne).
    destruct (CheckData array gndx gndy offsx offsy ndx ndy step rank) eqn:E;
      [|reflexivity].
    destruct (proj1 (CheckData_spec gndx gndy offsx offsy ndx ndy step rank
                       array Hx Hy Hint) E j i Hj Hi)
      as (v' & Hv' & Hok).
    unfold load in Hv'.
    destruct (j * ndy + i <? 0) eqn:E'; [discriminate|].
    rewrite Hv in Hv'. injection Hv' as <-.
    unfold fneb in Hne. rewrite Hok in Hne. discriminate.
Qed.

(** X4. A NaN among the cells of the block is never accepted: [CheckData]
    throws on it, whatever value is expected there. *)
Theorem CheckData_rejects_nan array gndx gndy offsx offsy ndx ndy step rank j i :
  0 <= ndx -> 0 <= ndy -> ndx * ndy <= INT_MAX ->
  0 <= j < ndx -> 0 <= i < ndy ->
  array !! Z.to_nat (j * ndy + i) = Some S754_nan ->
  CheckData array gndx gndy offsx offsy ndx ndy step rank = false.
Proof.
  intros Hx Hy Hint Hj Hi Hnan.
  destruct (CheckData array gndx gndy offsx offsy ndx ndy step rank) eqn:E;
    [|reflexivity].
  destruct (proj1 (CheckData_spec gndx gndy offsx offsy ndx ndy step rank array
                     Hx Hy Hint) E j i Hj Hi) as (v & Hv & Hok).
  unfold load in Hv.
  destruct (j * ndy + i <? 0) eqn:E'; [discriminate|].
  pose proof (eq_trans (eq_sym Hv) Hnan) as Hvn.
  injection Hvn as ->. discriminate Hok.
Qed.

(** X5. The block a writer has filled passes the check of a reader that holds
    the same block: [CheckData], called with the offsets, the extents and
    the step of the fill, returns on the filled buffer. *)
Theorem fill_passes_CheckData gndx gndy gndy' offsx offsy ndx ndy step rank a :
  0 <= ndx -> 0 <= ndy -> ndx * ndy <= INT_MAX ->
  Z.of_nat (length a) = ndx * ndy -> 0 <= step ->
  CheckData (fill gndx gndy offsx offsy ndx ndy step a)
            gndx gndy' offsx offsy ndx ndy step rank = true.
Proof.
  intros Hx Hy Hint Hlen Hstep.
  apply CheckData_spec; [exact Hx|exact Hy|exact Hint|].
  intros j i Hj Hi.
  eexists. split.
  - unfold load.
    destruct (j * ndy + i <? 0) eqn:E; [apply Z.ltb_lt in E; nia|].
    apply (fill_lookup gndx gndy offsx offsy ndx ndy step a
             Hx Hy Hint Hlen j i Hj Hi).
  - unfold expected_value.
    apply (GetValue_feqb gndx gndy' _ _ step Hstep). apply add64_nonneg.
Qed.

(** ** The run of a writer *)

(** A buffer that holds the block of [g] is the row-major table of the
    block. *)
Lemma block_filled_table g step buf :
  0 <= g_ndx g -> 0 <= g_ndy g -> block_filled g step buf ->
  buf = (fun k => GetValue (g_gndx g) (g_gndy g)
                    (g_offsx g + k / g_ndy g) (g_offsy g + k mod g_ndy g) step)
        <$> seqZ 0 (g_ndx g * g_ndy g).
Proof.
  intros Hx Hy [Hlen Hcells].
  apply list_eq. intros n. rewrite list_lookup_fmap.
  destruct (decide (Z.of_nat n < g_ndx g * g_ndy g)) as [Hn|Hn].
  - destruct (row_major_index (g_ndx g) (g_ndy g) (Z.of_nat n) Hx Hy ltac:(lia))
      as (Hj & Hi & Hk).
    rewrite lookup_seqZ_lt by lia. simpl.
    pose proof (Hcells _ _ Hj Hi) as Hl.
    rewrite Hk, Nat2Z.id in Hl. exact Hl.
  - rewrite lookup_seqZ_ge by lia. simpl.
    apply lookup_ge_None_2. lia.
Qed.

(** X6. The blocks of the writers tile the global array: every rank's block
    is 50 x 60 and lies inside the npx*50 x npy*60 array, two ranks whose
    blocks hold a common coordinate are the same rank, and every
    coordinate of the array is in the block of a rank. *)
Theorem writer_blocks_tile npx npy :
  1 <= npx -> 1 <= npy -> npx * npy <= INT_MAX ->
  (forall rank, 0 <= rank < npx * npy ->
     let g := writer_geometry npx npy rank in
     g_gndx g = npx * 50 /\ g_gndy g = npy * 60 /\
     g_ndx g = 50 /\ g_ndy g = 60 /\
     0 <= g_offsx g /\ g_offsx g + g_ndx g <= npx * 50 /\
     0 <= g_offsy g /\ g_offsy g + g_ndy g <= npy * 60) /\
  (forall r1 r2 x y,
     0 <= r1 < npx * npy -> 0 <= r2 < npx * npy ->
     covers (writer_geometry npx npy r1) x y ->
     covers (writer_geometry npx npy r2) x y -> r1 = r2) /\
  (forall x y, 0 <= x < npx * 50 -> 0 <= y < npy * 60 ->
     exists rank, 0 <= rank < npx * npy /\
                  covers (writer_geometry npx npy rank) x y).
Proof.
  intros Hx Hy Hn.
  split; [|split].
  - intros rank Hr g. subst g.
    rewrite (writer_geometry_eq npx npy rank Hx Hy Hr Hn). simpl.
    destruct (rank_position npx npy rank Hx Hr) as (Hm & Hd & _).
    repeat split; lia.
  - intros r1 r2 x y H1 H2.
    rewrite (writer_geometry_eq npx npy r1 Hx Hy H1 Hn).
    rewrite (writer_geometry_eq npx npy r2 Hx Hy H2 Hn).
    unfold covers. simpl. intros [Hx1 Hy1] [Hx2 Hy2].
    destruct (rank_position npx npy r1 Hx H1) as (_ & _ & E1).
    destruct (rank_position npx npy r2 Hx H2) as (_ & _ & E2).
    assert (r1 mod npx = r2 mod npx) by lia.
    assert (r1 / npx = r2 / npx) by lia.
    congruence.
  - intros x y Hxx Hyy.
    assert (Hq : 0 <= x / 50 < npx).
    { split; [apply Z.div_pos; lia|apply Z.div_lt_upper_bound; lia]. }
    assert (Hp : 0 <= y / 60 < npy).
    { split; [apply Z.div_pos; lia|apply Z.div_lt_upper_bound; lia]. }
    pose proof (Z.div_mod x 50 ltac:(lia)).
    pose proof (Z.mod_pos_bound x 50 ltac:(lia)).
    pose proof (Z.div_mod y 60 ltac:(lia)).
    pose proof (Z.mod_pos_bound y 60 ltac:(lia)).
    set (rank := y / 60 * npx + x / 50).
    assert (Hr : 0 <= rank < npx * npy) by (subst rank; nia).
    assert (Hm : rank mod npx = x / 50).
    { subst rank. symmetry. apply Z.mod_unique with (y / 60); lia. }
    assert (Hd : rank / npx = y / 60).
    { subst rank. symmetry. apply Z.div_unique with (x / 50); lia. }
    exists rank. split; [exact Hr|].
    rewrite (writer_geometry_eq npx npy rank Hx Hy Hr Hn).
    unfold covers. simpl. rewrite Hm, Hd. lia.
Qed.

(** X7. The run of a writer rank: [MainWriters] puts one payload in every
    step 0, 1, ..., steps-1 and nothing else (nothing at all when [steps]
    is not positive); the payload of a step is the variable "myArray" of
    shape npx*50 x npy*60, the selection of the rank's block and the
    row-major table of the values of the block's cells in that step. *)
Theorem MainWriters_run npx npy rank steps :
  1 <= npx -> 1 <= npy -> 0 <= rank < npx * npy -> npx * npy <= INT_MAX ->
  MainWriters npx npy rank steps
  = Ok ((fun step =>
           mkPayload (mkVariable "myArray" TFloat [npx * 50; npy * 60])
             (mkSelection [rank mod npx * 50; rank / npx * 60] [50; 60])
             ((fun k => GetValue (npx * 50) (npy * 60)
                          (rank mod npx * 50 + k / 60)
                          (rank / npx * 60 + k mod 60) step)
              <$> seqZ 0 (50 * 60)))
        <$> seqZ 0 steps).
Proof.
  intros Hx Hy Hr Hn.
  destruct (Z_lt_le_dec steps 0) as [Hneg|Hpos].
  - unfold MainWriters, for_range, seqZ.
    replace (Z.to_nat steps) with 0%nat by lia. reflexivity.
  - pose proof (MainWriters_payloads npx npy rank steps Hx Hy Hr Hn Hpos)
      as Hrun.
    cbv zeta in Hrun.
    rewrite (writer_geometry_eq npx npy rank Hx Hy Hr Hn) in Hrun.
    unfold myArray_var, geometry_selection in Hrun.
    cbn [g_gndx g_gndy g_offsx g_offsy g_ndx g_ndy] in Hrun.
    destruct Hrun as (pls & -> & Hlen & Hpls).
    f_equal.
    apply list_eq. intros n. rewrite list_lookup_fmap.
    destruct (decide (Z.of_nat n < steps)) as [Hlt|Hge].
    + rewrite lookup_seqZ_lt by lia.
      destruct (Hpls (Z.of_nat n) ltac:(lia)) as (buf & Hl & Hb).
      rewrite Nat2Z.id in Hl. rewrite Hl.
      apply block_filled_table in Hb;
        cbn [g_gndx g_gndy g_offsx g_offsy g_ndx g_ndy] in *; [|lia|lia].
      rewrite Hb. reflexivity.
    + rewrite lookup_seqZ_ge by lia.
      apply lookup_ge_None_2. lia.
Qed.

(** ** The blocks of the readers *)

(** X8. With more reader ranks along a dimension than the array has elements
    there, only the last rank along the dimension reads: its block spans
    the whole extent, and the block of every other rank is empty, at
    offset 0. *)
Theorem reader_geometry_excess_ranks gndx gndy npx npy rank :
  1 <= npx -> 1 <= npy -> 0 <= gndx < 2 ^ 64 -> 0 <= gndy < 2 ^ 64 ->
  0 <= rank < npx * npy -> npx * npy <= INT_MAX ->
  let g := reader_geometry gndx gndy npx npy rank in
  (gndx < npx ->
   g_offsx g = 0 /\
   g_ndx g = if rank mod npx =? npx - 1 then gndx else 0) /\
  (gndy < npy ->
   g_offsy g = 0 /\
   g_ndy g = if rank / npx =? npy - 1 then gndy else 0).
Proof.
  intros Hx Hy Hgx Hgy Hr Hn g. subst g.
  rewrite (reader_geometry_eq gndx gndy npx npy rank Hx Hy Hgx Hgy Hr Hn).
  simpl. split; intros Hlt.
  - rewrite (Z.div_small gndx npx) by lia.
    split; [lia|]. destruct (rank mod npx =? npx - 1); lia.
  - rewrite (Z.div_small gndy npy) by lia.
    split; [lia|]. destruct (rank / npx =? npy - 1); lia.
Qed.

(** X9. The blocks of the readers differ by the remainder only: along a
    dimension every rank starts at its position times gndx / npx and reads
    gndx / npx elements, and the last rank reads the gndx mod npx elements
    that are left as well. *)
Theorem reader_blocks_balanced gndx gndy npx npy rank :
  1 <= npx -> 1 <= npy -> 0 <= gndx < 2 ^ 64 -> 0 <= gndy < 2 ^ 64 ->
  0 <= rank < npx * npy -> npx * npy <= INT_MAX ->
  let g := reader_geometry gndx gndy npx npy rank in
  g_offsx g = gndx / npx * (rank mod npx) /\
  g_offsy g = gndy / npy * (rank / npx) /\
  g_ndx g = gndx / npx
            + (if rank mod npx =? npx - 1 then gndx mod npx else 0) /\
  g_ndy g = gndy / npy
            + (if rank / npx =? npy - 1 then gndy mod npy else 0).
Proof.
  intros Hx Hy Hgx Hgy Hr Hn g. subst g.
  rewrite (reader_geometry_eq gndx gndy npx npy rank Hx Hy Hgx Hgy Hr Hn).
  simpl.
  pose proof (Z.div_mod gndx npx ltac:(lia)).
  pose proof (Z.div_mod gndy npy ltac:(lia)).
  split; [reflexivity|]. split; [reflexivity|]. split.
  - destruct (rank mod npx =? npx - 1); lia.
  - destruct (rank / npx =? npy - 1); lia.
Qed.

(** Along one dimension, [n] ranks over [g] elements: every element is in
    the block of exactly one position, also when there are more positions
    than elements. *)
Lemma block_cover_any g n x :
  1 <= n -> 0 <= x < g ->
  let b := g / n in
  let off k := b * k in
  let cnt k := if k =? n - 1 then g - b * (n - 1) else b in
  exists k, 0 <= k < n /\ off k <= x < off k + cnt k /\
    forall k', 0 <= k' < n -> off k' <= x < off k' + cnt k' -> k' = k.
Proof.
  intros Hn Hx b off cnt.
  destruct (Z_le_gt_dec n g) as [Hle|Hgt].
  - destruct (block_exists g n ltac:(lia) x Hx) as [Hk Hc].
    exists (Z.min (x / (g / n)) (n - 1)).
    split; [exact Hk|]. split; [exact Hc|].
    intros k' Hk' Hc'. apply (block_unique g n ltac:(lia) k' x Hk' Hc').
  - assert (Eb : b = 0) by (subst b; apply Z.div_small; lia).
    exists (n - 1). subst off cnt. cbv beta. rewrite Eb.
    split; [lia|]. split.
    + rewrite Z.eqb_refl. lia.
    + intros k' Hk'. destruct (k' =? n - 1) eqn:E.
      * apply Z.eqb_eq in E. lia.
      * lia.
Qed.

(** X10. Whatever the decomposition of the readers, no element is read twice
    and none is left out: every coordinate of the global array is in the
    block of exactly one reader rank, also when there are more ranks along
    a dimension than elements. *)
Theorem reader_blocks_partition gndx gndy npx npy x y :
  1 <= npx -> 1 <= npy -> gndx < 2 ^ 64 -> gndy < 2 ^ 64 ->
  npx * npy <= INT_MAX ->
  0 <= x < gndx -> 0 <= y < gndy ->
  exists rank,
    0 <= rank < npx * npy /\
    covers (reader_geometry gndx gndy npx npy rank) x y /\
    forall rank', 0 <= rank' < npx * npy ->
      covers (reader_geometry gndx gndy npx npy rank') x y -> rank' = rank.
Proof.
  intros Hx Hy Hgx Hgy Hn Hxx Hyy.
  destruct (block_cover_any gndx npx x Hx Hxx) as (kx & Hkx & Hcx & Ux).
  destruct (block_cover_any gndy npy y Hy Hyy) as (ky & Hky & Hcy & Uy).
  set (rank := ky * npx + kx).
  assert (Hr : 0 <= rank < npx * npy) by (subst rank; nia).
  assert (Hm : rank mod npx = kx).
  { subst rank. symmetry. apply Z.mod_unique with ky; lia. }
  assert (Hd : rank / npx = ky).
  { subst rank. symmetry. apply Z.div_unique with kx; lia. }
  exists rank. split; [exact Hr|]. split.
  - rewrite reader_geometry_eq by lia.
    unfold covers. cbn [g_offsx g_offsy g_ndx g_ndy].
    rewrite Hm, Hd. split; [exact Hcx|exact Hcy].
  - intros rank' Hr'.
    rewrite reader_geometry_eq by lia.
    unfold covers. cbn [g_offsx g_offsy g_ndx g_ndy].
    intros [Hcx' Hcy'].
    destruct (rank_position npx npy rank' Hx Hr') as (Hm' & Hd' & E').
    pose proof (Ux _ Hm' Hcx') as Ex.
    pose proof (Uy _ Hd' Hcy') as Ey.
    subst rank. lia.
Qed.

(** X11. Readers decomposed as the writers are read what the writers wrote:
    with the same npx and npy on both sides, the block of a reader rank is
    the block of the writer of the same rank. *)
Theorem same_decomposition_same_blocks npx npy rank :
  1 <= npx -> 1 <= npy -> 0 <= rank < npx * npy -> npx * npy <= INT_MAX ->
  reader_geometry (npx * 50) (npy * 60) npx npy rank
  = writer_geometry npx npy rank.
Proof.
  intros Hx Hy Hr Hn.
  assert (Hbx : npx <= INT_MAX) by nia.
  assert (Hby : npy <= INT_MAX) by nia.
  unfold INT_MAX in *.
  rewrite reader_geometry_eq; try lia; [|unfold INT_MAX; lia].
  rewrite (writer_geometry_eq npx npy rank Hx Hy Hr) by (unfold INT_MAX; lia).
  replace (npx * 50 / npx) with 50 by (apply Z.div_unique with 0; lia).
  replace (npy * 60 / npy) with 60 by (apply Z.div_unique with 0; lia).
  f_equal; try lia.
  - destruct (rank mod npx =? npx - 1); lia.
  - destruct (rank / npx =? npy - 1); lia.
Qed.

(** ** The loop of a reader *)

(** The loop up to a failing pass: the reader either leaves the loop on a
    status other than OK with no more than [kfail] steps admitted, or
    throws on step [kfail]. *)
Lemma loop_until_failure tl pass timeout sleeptime busy kfail :
  Z.of_nat kfail < INT_MAX ->
  (forall k buf, (k < kfail)%nat ->
     exists buf', pass k (Z.of_nat k) buf = Checked buf') ->
  (forall buf buf', pass kfail (Z.of_nat kfail) buf <> Checked buf') ->
  forall fuel a now buf,
    (a <= kfail)%nat -> (kfail - a < fuel)%nat ->
    (exists status k t,
       MainReaders_loop fuel tl pass timeout sleeptime busy now
         (mkReader Idle a) (Z.of_nat a) buf (in_order a)
       = Finished status (in_order k) t /\
       (a <= k <= kfail)%nat /\ status <> OK) \/
    (exists buf',
       MainReaders_loop fuel tl pass timeout sleeptime busy now
         (mkReader Idle a) (Z.of_nat a) buf (in_order a)
       = Threw (pass kfail (Z.of_nat kfail) buf') (in_order (S kfail))).
Proof.
  intros Hint Hpass Hfail.
  induction fuel as [|fuel IH]; intros a now buf Ha Hfuel; [lia|].
  rewrite loop_turn.
  destruct (wait tl a now timeout) as [status t].
  destruct status.
  - destruct (decide (a = kfail)) as [->|Hne].
    + right. exists buf.
      destruct (pass kfail (Z.of_nat kfail) buf) eqn:E; try reflexivity.
      exfalso. exact (Hfail _ _ E).
    + destruct (Hpass a buf ltac:(lia)) as (buf' & ->).
      replace (wrap_int (Z.of_nat a + 1)) with (Z.of_nat (S a)).
      2:{ rewrite wrap_int_small; unfold INT_MAX in *; lia. }
      destruct (IH (S a) (t + busy a + sleeptime)%nat buf'
                  ltac:(lia) ltac:(lia))
        as [(status & k & t' & E & Hk & Hs)|(buf'' & E)].
      * left. exists status, k, t'. split; [exact E|]. split; [lia|exact Hs].
      * right. exists buf''. exact E.
  - left. exists NotReady, a, t. split; [reflexivity|].
    split; [lia|discriminate].
  - left. exists EndOfStream, a, t. split; [reflexivity|].
    split; [lia|discriminate].
Qed.

(** X13. A check that fails ends the reader: when the passes over the steps
    before [kfail] check and the pass over step [kfail] does not, the
    loop of [MainReaders] never admits a step after [kfail]; it either
    ends on NotReady or EndOfStream before it gets that far, or leaves by
    the exception of the pass over step [kfail], the counter [step] still
    at [kfail]. *)
Theorem MainReaders_stops_at_failure tl pass timeout sleeptime busy kfail fuel :
  Z.of_nat kfail < INT_MAX ->
  (forall k buf, (k < kfail)%nat ->
     exists buf', pass k (Z.of_nat k) buf = Checked buf') ->
  (forall buf buf', pass kfail (Z.of_nat kfail) buf <> Checked buf') ->
  (kfail < fuel)%nat ->
  (exists status k t,
     MainReaders_loop fuel tl pass timeout sleeptime busy 0
       (mkReader Idle 0) 0 [] []
     = Finished status (in_order k) t /\
     (k <= kfail)%nat /\ status <> OK) \/
  (exists buf,
     MainReaders_loop fuel tl pass timeout sleeptime busy 0
       (mkReader Idle 0) 0 [] []
     = Threw (pass kfail (Z.of_nat kfail) buf) (in_order (S kfail)) /\
     In (kfail, Z.of_nat kfail) (in_order (S kfail))).
Proof.
  intros Hint Hpass Hfail Hfuel.
  destruct (loop_until_failure tl pass timeout sleeptime busy kfail
              Hint Hpass Hfail fuel 0%nat 0%nat [] ltac:(lia) ltac:(lia))
    as [(status & k & t & E & Hk & Hs)|(buf & E)].
  - left. exists status, k, t. split; [exact E|]. split; [lia|exact Hs].
  - right. exists buf. split; [exact E|].
    unfold in_order. apply in_map_iff. exists kfail.
    split; [reflexivity|]. apply in_seq. lia.
Qed.

(** ** Who runs what *)

(** X14. [TestCommon] starts all the ranks of both decompositions or none:
    with too few processes every process skips the test; otherwise no
    process skips, every writer rank and every reader rank is taken by
    exactly one process (the writers first, then the readers, in the
    order of [wrank]), and the processes left over take no part. *)
Theorem TestCommon_roles p numprocs :
  1 <= npx_w p -> 1 <= npy_w p -> 1 <= npx_r p -> 1 <= npy_r p ->
  npx_w p * npy_w p + npx_r p * npy_r p <= INT_MAX ->
  let nw := npx_w p * npy_w p in
  let nr := npx_r p * npy_r p in
  (numprocs < nw + nr ->
   forall wrank, TestCommon_role p numprocs wrank = Skipped) /\
  (nw + nr <= numprocs ->
   (forall wrank, TestCommon_role p numprocs wrank <> Skipped) /\
   (forall rank wrank, 0 <= rank < nw -> 0 <= wrank ->
      (TestCommon_role p numprocs wrank = Writer rank <-> wrank = rank)) /\
   (forall rank wrank, 0 <= rank < nr -> 0 <= wrank ->
      (TestCommon_role p numprocs wrank = Reader rank <-> wrank = nw + rank)) /\
   (forall wrank, nw + nr <= wrank ->
      TestCommon_role p numprocs wrank = NotParticipating)).
Proof.
  intros Hxw Hyw Hxr Hyr Hsum nw nr.
  assert (Hnw : 1 <= nw) by (subst nw; nia).
  assert (Hnr : 1 <= nr) by (subst nr; nia).
  assert (Ew : nwriters p = nw).
  { unfold nwriters, size_t_to_int, mul64. fold nw.
    rewrite wrap64_small by (unfold INT_MAX in *; lia).
    apply wrap_int_small. unfold INT_MAX in *. lia. }
  assert (Er : nreaders p = nr).
  { unfold nreaders, size_t_to_int, mul64. fold nr.
    rewrite wrap64_small by (unfold INT_MAX in *; lia).
    apply wrap_int_small. unfold INT_MAX in *. lia. }
  assert (Es : wrap_int (nw + nr) = nw + nr).
  { apply wrap_int_small. fold nw nr in Hsum. unfold INT_MAX in *. lia. }
  unfold TestCommon_role. rewrite Ew, Er, Es.
  split.
  - intros Hfew wrank.
    destruct (numprocs <? nw + nr) eqn:E; [reflexivity|].
    apply Z.ltb_ge in E. lia.
  - intros Henough.
    destruct (numprocs <? nw + nr) eqn:E; [apply Z.ltb_lt in E; lia|].
    split; [|split; [|split]].
    + intros wrank.
      destruct (wrank <? nw); [discriminate|].
      destruct (wrank <? nw + nr); discriminate.
    + intros rank wrank Hr Hw.
      destruct (wrank <? nw) eqn:E1.
      * split; [intros [= ->]; reflexivity|intros ->; reflexivity].
      * apply Z.ltb_ge in E1.
        destruct (wrank <? nw + nr); (split; [discriminate|lia]).
    + intros rank wrank Hr Hw.
      destruct (wrank <? nw) eqn:E1.
      * apply Z.ltb_lt in E1. split; [discriminate|lia].
      * apply Z.ltb_ge in E1.
        destruct (wrank <? nw + nr) eqn:E2.
        -- split; [intros [= <-]; lia|intros ->; f_equal; lia].
        -- apply Z.ltb_ge in E2. split; [discriminate|lia].
    + intros wrank Hw.
      destruct (wrank <? nw) eqn:E1; [apply Z.ltb_lt in E1; lia|].
      destruct (wrank <? nw + nr) eqn:E2; [apply Z.ltb_lt in E2; lia|].
      reflexivity.
Qed.

(** * Concrete runs *)

(** ** Evaluations of the definitions *)

(** The cell (1, 1) of a 100 x 120 array in step 0: 100.001f. *)
Example GetValue_1_1 :
  GetValue 100 120 1 1 0 = S754_finite false 13107331 (-17).
Proof. reflexivity. Qed.

(** The last cell of a 100 x 120 array in step 9: 9000 + 9900 + 0.119. *)
Example GetValue_99_119 :
  GetValue 100 120 99 119 9 = S754_finite false 9676861 (-9).
Proof. reflexivity. Qed.

(** With gndx = 6 the cell (1, 1) holds 6.001f. *)
Example GetValue_row_scaled :
  GetValue 6 6 1 1 0 = S754_finite false 12585009 (-21).
Proof. reflexivity. Qed.

(** 100 x 120 read by 1 x 7 readers: the last rank takes rows 102..119. *)
Example reader_geometry_last :
  reader_geometry 100 120 1 7 6 = mkGeometry 100 120 0 102 100 18.
Proof. reflexivity. Qed.

(** 51 readers along 50 rows: rank 0 gets no row. *)
Example reader_geometry_empty :
  reader_geometry 50 60 51 1 0 = mkGeometry 50 60 0 0 0 60.
Proof. reflexivity. Qed.

(** Eight processes run 1 x 1 writers and 1 x 7 readers; the 3 x 5 test
    is skipped. *)
Example role_reader : TestCommon_role (mkRunParams 1 1 1 7) 8 3 = Reader 2.
Proof. reflexivity. Qed.

Example role_skipped : TestCommon_role (mkRunParams 3 5 1 1) 8 3 = Skipped.
Proof. reflexivity. Qed.

(** Two writers hold the left and the right half of a 2 x 4 array; a reader
    asks for the two middle columns. *)
Example redistribute_middle :
  let v := mkVariable "v" TInt32 [2; 4] in
  Get v (mkSelection [0; 1] [2; 2])
      [mkPayload v (mkSelection [0; 0] [2; 2]) [1; 2; 3; 4];
       mkPayload v (mkSelection [0; 2] [2; 2]) [5; 6; 7; 8]]
      [0; 0; 0; 0]
  = Ok [2; 5; 4; 7].
Proof. reflexivity. Qed.

(** A gap keeps what the destination held; an empty count is refused. *)
Example redistribute_gap :
  let v := mkVariable "v" TInt32 [2; 4] in
  Get v (mkSelection [0; 1] [2; 2])
      [mkPayload v (mkSelection [0; 0] [2; 2]) [1; 2; 3; 4]]
      [0; 0; 0; 0]
  = Ok [2; 0; 4; 0].
Proof. reflexivity. Qed.

Example redistribute_refused :
  let v := mkVariable "v" TInt32 [2; 4] in
  Get v (mkSelection [0; 1] [0; 2]) (@nil (StepPayload Z)) [] = Err InvalidSelection.
Proof. reflexivity. Qed.

(** With no step ever sealed, the wait ends with NotReady after the
    timeout. *)
Example wait_timeout : wait (mkTimeline [] None) 0 0 60 = (NotReady, 60%nat).
Proof. reflexivity. Qed.

(** The lower right block of the 2 by 2 example with 3 x 3 local arrays of
    the comment above [GetValue], step 0: the rows hold 18.003 .. 18.005,
    24.003 .. 24.005 and 30.003 .. 30.005, and the check of a reader with
    the same block returns. *)
Example fill_lower_right :
  fill 6 6 3 3 3 3 0 (replicate 9 fzero)
  = [GetValue 6 6 3 3 0; GetValue 6 6 3 4 0; GetValue 6 6 3 5 0;
     GetValue 6 6 4 3 0; GetValue 6 6 4 4 0; GetValue 6 6 4 5 0;
     GetValue 6 6 5 3 0; GetValue 6 6 5 4 0; GetValue 6 6 5 5 0].
Proof. reflexivity. Qed.

Example check_lower_right :
  CheckData (fill 6 6 3 3 3 3 0 (replicate 9 fzero)) 6 6 3 3 3 3 0 3 = true /\
  CheckData (fill 6 6 3 3 3 3 0 (replicate 9 fzero)) 6 6 3 3 3 3 1 3 = false.
Proof. split; reflexivity. Qed.

(** The loop of a reader on a stream of two steps sealed at ticks 10 and
    30 and closed at 40, with a body that always succeeds: with a timeout
    of 60 ticks both steps are admitted and the loop ends on EndOfStream;
    when the second step takes 90 ticks the reader gives up 60 ticks after
    the first. *)
Example loop_to_end :
  MainReaders_loop 3 (mkTimeline [10; 30]%nat (Some 40%nat))
    (fun _ _ myArray => Checked myArray) 60 0 (fun _ => 0%nat)
    0 (mkReader Idle 0) 0 [] []
  = Finished EndOfStream [(0%nat, 0); (1%nat, 1)] 40.
Proof. reflexivity. Qed.

Example loop_times_out :
  MainReaders_loop 3 (mkTimeline [10; 100]%nat (Some 110%nat))
    (fun _ _ myArray => Checked myArray) 60 0 (fun _ => 0%nat)
    0 (mkReader Idle 0) 0 [] []
  = Finished NotReady [(0%nat, 0)] 70.
Proof. reflexivity. Qed.

(** One writer, seven readers, one step sealed at tick 10, the stream
    closed at 20, one tick per unit of the timeout: reader 2 reads its
    50 x 8 block of the step, checks it and sees EndOfStream. *)
Example run_to_end :
  MainReaders 2 (mkTimeline [10]%nat (Some 20%nat)) 1 1 1 1 7 2
              1 0 (fun _ => 0%nat)
  = Finished EndOfStream [(0%nat, 0)] 20.
Proof. vm_compute. reflexivity. Qed.

(** Two writer processes: a step is sealed when the slower one has ended
    it, the stream is closed when both have closed. *)
Example group_of_two :
  group_timeline [mkWriterRun [3; 20]%nat (Some 25%nat);
                  mkWriterRun [8; 12]%nat (Some 13%nat)]
  = mkTimeline [8; 20]%nat (Some 25%nat).
Proof. reflexivity. Qed.

Example group_not_closed :
  group_timeline [mkWriterRun [3; 20]%nat (Some 25%nat);
                  mkWriterRun [8; 12]%nat None]
  = mkTimeline [8; 20]%nat None.
Proof. reflexivity. Qed.

(** ** The theorems at concrete inputs *)


Lemma example_scenario_value_formula_witness :
  In (mkScenario "MultipleSteps" 10 0 0) scenarios /\
  exists run pl,
    MainWriters 2 2 3 10 = Ok run /\ run !! 9%nat = Some pl /\
    pl_buf pl !! Z.to_nat 2999 = Some (GetValue 100 120 99 119 9).
Proof.
  assert (Hsc : In (mkScenario "MultipleSteps" 10 0 0) scenarios)
    by (simpl; auto).
  split; [exact Hsc|].
  pose proof (example_scenario_value_formula
                (mkScenario "MultipleSteps" 10 0 0) 2 2 3 9 1 7 6 Hsc) as H.
  cbn [sc_steps] in H.
  specialize (H ltac:(lia) ltac:(lia) ltac:(lia) ltac:(lia)
                ltac:(unfold INT_MAX; lia) ltac:(unfold INT_MAX; lia)
                ltac:(lia) ltac:(lia) ltac:(lia)).
  destruct H as (_ & _ & _ & (run & pl & Hrun & Hpl & Hcells) & _).
  exists run, pl. split; [exact Hrun|]. split; [exact Hpl|].
  destruct (Hcells 49 59) as [Hb _]; [lia|lia|]. exact Hb.
Defined.

Lemma step_ordering_witness :
  wf_timeline (mkTimeline [10; 30]%nat (Some 40%nat)) = true /\
  exists n k : nat,
    (k <= n <= 2)%nat /\
    ((exists status t,
        MainReaders 3 (mkTimeline [10; 30]%nat (Some 40%nat)) 1 1 2 1 7 2
                    1 0 (fun _ => 0%nat)
        = Finished status (in_order n) t /\ k = n /\ status <> OK) \/
     (MainReaders 3 (mkTimeline [10; 30]%nat (Some 40%nat)) 1 1 2 1 7 2
                  1 0 (fun _ => 0%nat)
      = Threw (EngineError InvalidSelection) (in_order n) /\
      n = 1%nat /\ k = 0%nat)).
Proof.
  split; [reflexivity|].
  pose proof (step_ordering (mkRunParams 1 1 1 7) 8 3 2 2
                (mkTimeline [10; 30]%nat (Some 40%nat)) 1 0 (fun _ => 0%nat))
    as H.
  cbv zeta in H. cbn [npx_w npy_w npx_r npy_r] in H.
  specialize (H ltac:(lia) ltac:(lia) ltac:(lia) ltac:(lia)
                ltac:(unfold INT_MAX; lia) ltac:(unfold INT_MAX; lia)).
  specialize (H ltac:(vm_compute; discriminate) eq_refl
                ltac:(unfold INT_MAX; lia) eq_refl eq_refl).
  destruct H as (_ & n & k & Hk & Hrun & _).
  exists n, k. split; [exact Hk|].
  destruct Hrun as [(status & t & E & Hkn & Hne & _)|(E & Hn & Hk0 & _)].
  - left. exists status, t. split; [exact E|]. split; [exact Hkn|exact Hne].
  - right. split; [exact E|]. split; [exact Hn|exact Hk0].
Defined.

Lemma BeginStep_status_contract_witness :
  wf_timeline (mkTimeline [] None) = true /\
  exists status t h',
    BeginStep NextAvailable 60 (mkTimeline [] None) 0 (mkReader Idle 0)
    = Ok (status, t, h') /\
    (0 <= t <= 0 + 60)%nat.
Proof.
  split; [reflexivity|].
  destruct (BeginStep_status_contract (mkTimeline [] None) 60 0
              (mkReader Idle 0) eq_refl eq_refl)
    as (_ & status & t & h' & E & Ht & _).
  exists status, t, h'. split; [exact E|exact Ht].
Defined.

Lemma writer_close_propagation_witness :
  let ws := [mkWriterRun [0; 5; 10]%nat (Some 15%nat);
             mkWriterRun [1; 4; 9]%nat (Some 12%nat)] in
  forallb wf_writer ws = true /\
  close_time (group_timeline ws) = Some 15%nat /\
  forall timeout now h,
    ctl h = Idle -> (15 <= now)%nat ->
    BeginStep NextAvailable timeout (group_timeline ws) now h
    = Ok (if (next_step h <? 3)%nat
          then (OK, now, mkReader StepActive (next_step h))
          else (EndOfStream, now, h)).
Proof.
  intros ws. split; [reflexivity|]. split; [reflexivity|].
  destruct (writer_close_propagation ws 15 eq_refl eq_refl
              ltac:(vm_compute; discriminate))
    as (_ & H & _).
  exact H.
Defined.

Lemma idempotent_redefinition_witness :
  exists h reg1,
    Define "A" TFloat [100; 120] empty_registry = Ok (h, reg1) /\
    let regn := Defines [("B", TDouble, [7]); ("A", TInt32, [1])] reg1 in
    Define "A" TFloat [100; 120] regn = Ok (h, regn) /\
    Define "A" TDouble [100; 120] regn = Err DuplicateDefinition.
Proof.
  exists 1%positive,
    (mkRegistry (<["A" := 1%positive]> ∅)
                (<[1%positive := mkVariable "A" TFloat [100; 120]]> ∅)
                2%positive).
  assert (E : Define "A" TFloat [100; 120] (Defines [] empty_registry)
              = Ok (1%positive,
                    mkRegistry (<["A" := 1%positive]> ∅)
                      (<[1%positive := mkVariable "A" TFloat [100; 120]]> ∅)
                      2%positive)) by reflexivity.
  pose proof (idempotent_redefinition [] "A" TFloat [100; 120] _ _
                [("B", TDouble, [7]); ("A", TInt32, [1])] E) as H.
  cbv zeta in H. destruct H as (_ & H1 & H2 & _).
  split; [exact E|]. cbv zeta. split; [exact H1|].
  apply H2. left. discriminate.
Defined.

Lemma reader_selections_tile_witness :
  (forall rank, 0 <= rank < 7 ->
     valid_selection [100; 120]
       (geometry_selection (reader_geometry 100 120 1 7 rank)) = true) /\
  (forall x y, 0 <= x < 100 -> 0 <= y < 120 ->
     exists rank, 0 <= rank < 7 /\
                  covers (reader_geometry 100 120 1 7 rank) x y).
Proof.
  destruct (reader_selections_tile 100 120 1 7
              ltac:(lia) ltac:(lia) ltac:(lia) ltac:(lia)
              ltac:(unfold INT_MAX; lia)) as (Hv & _ & Hc).
  split; [|exact Hc].
  intros rank Hr. apply (Hv rank). lia.
Defined.

Lemma DefineVariableInADIOS_post_witness :
  let variable := mkVariablePy "myArray" [50; 60] [100; 120] [0; 0] 0 false in
  exists adios' variable',
    DefineVariableInADIOS TFloat empty_registry variable
    = Ok (adios', variable') /\
    m_VariablePtr variable' <> 0 /\ m_IsVariableDefined variable' = true /\
    WriteVariableInADIOS TDouble adios' [] variable' [1; 2] = None.
Proof.
  intros variable.
  assert (E : DefineVariableInADIOS TFloat empty_registry variable
              = Ok (mkRegistry (<["myArray" := 1%positive]> ∅)
                      (<[1%positive := mkVariable "myArray" TFloat [100; 120]]> ∅)
                      2%positive,
                    mkVariablePy "myArray" [50; 60] [100; 120] [0; 0] 1 true))
    by reflexivity.
  destruct (DefineVariableInADIOS_post _ _ _ _ _ E)
    as (Hptr & Hdef & _ & _ & _ & _ & _ & Hother & _).
  eexists _, _. split; [exact E|]. split; [exact Hptr|]. split; [exact Hdef|].
  apply Hother. discriminate.
Defined.

(** ** Instances of the further properties *)

Lemma GetValue_never_nan_witness :
  GetValue 100 120 99 119 9 <> S754_nan /\
  fneb (GetValue 100 120 99 119 9) (GetValue 100 120 99 119 9) = false.
Proof.
  pose proof (GetValue_never_nan 100 120 99 119 9 ltac:(lia) ltac:(lia)) as H.
  cbv zeta in H. destruct H as (H1 & _ & H3). split; [exact H1|exact H3].
Defined.

Lemma fill_row_major_witness :
  fill 100 120 50 60 2 3 1 (replicate 6 fzero)
  = (fun k => GetValue 100 120 (add64 50 (k / 3)) (add64 60 (k mod 3)) 1)
    <$> seqZ 0 (2 * 3).
Proof.
  apply (fill_row_major 100 120 50 60 2 3 1 (replicate 6 fzero)
           ltac:(lia) ltac:(lia) ltac:(unfold INT_MAX; lia) eq_refl).
Defined.

Lemma MainWriters_run_witness :
  exists run,
    MainWriters 2 2 3 10 = Ok run /\ length run = 10%nat.
Proof.
  pose proof (MainWriters_run 2 2 3 10 ltac:(lia) ltac:(lia) ltac:(lia)
                ltac:(unfold INT_MAX; lia)) as H.
  eexists. split; [exact H|reflexivity].
Defined.

Lemma writer_blocks_tile_witness :
  exists rank, 0 <= rank < 3 * 5 /\ covers (writer_geometry 3 5 rank) 149 299.
Proof.
  pose proof (writer_blocks_tile 3 5 ltac:(lia) ltac:(lia)
                ltac:(unfold INT_MAX; lia)) as H.
  destruct H as (_ & _ & H). apply (H 149 299); lia.
Defined.

Lemma CheckData_throws_iff_witness :
  CheckData [fzero; fzero] 50 60 0 0 1 2 0 0 = false <->
  exists j i received,
    0 <= j < 1 /\ 0 <= i < 2 /\
    [fzero; fzero] !! Z.to_nat (j * 2 + i) = Some received /\
    fneb received (expected_value 50 60 0 0 0 j i) = true.
Proof.
  apply (CheckData_throws_iff [fzero; fzero] 50 60 0 0 1 2 0 0
           ltac:(lia) ltac:(lia) ltac:(unfold INT_MAX; lia)
           ltac:(simpl; lia)).
Defined.

Lemma CheckData_rejects_nan_witness :
  CheckData [fzero; S754_nan] 50 60 0 0 1 2 0 0 = false.
Proof.
  apply (CheckData_rejects_nan [fzero; S754_nan] 50 60 0 0 1 2 0 0 0 1
           ltac:(lia) ltac:(lia) ltac:(unfold INT_MAX; lia)
           ltac:(lia) ltac:(lia) eq_refl).
Defined.

Lemma fill_passes_CheckData_witness :
  CheckData (fill 100 120 50 60 2 3 1 (replicate 6 fzero))
            100 120 50 60 2 3 1 0 = true.
Proof.
  apply (fill_passes_CheckData 100 120 120 50 60 2 3 1 0 (replicate 6 fzero)
           ltac:(lia) ltac:(lia) ltac:(unfold INT_MAX; lia) eq_refl
           ltac:(lia)).
Defined.

Lemma reader_geometry_excess_ranks_witness :
  g_offsx (reader_geometry 50 60 51 1 0) = 0 /\
  g_ndx (reader_geometry 50 60 51 1 0)
  = (if 0 mod 51 =? 51 - 1 then 50 else 0).
Proof.
  pose proof (reader_geometry_excess_ranks 50 60 51 1 0
                ltac:(lia) ltac:(lia) ltac:(lia) ltac:(lia) ltac:(lia)
                ltac:(unfold INT_MAX; lia)) as H.
  cbv zeta in H. destruct H as [H _]. apply H. lia.
Defined.

Lemma reader_blocks_balanced_witness :
  g_offsy (reader_geometry 100 120 1 7 6) = 120 / 7 * (6 / 1) /\
  g_ndy (reader_geometry 100 120 1 7 6)
  = 120 / 7 + (if 6 / 1 =? 7 - 1 then 120 mod 7 else 0).
Proof.
  pose proof (reader_blocks_balanced 100 120 1 7 6
                ltac:(lia) ltac:(lia) ltac:(lia) ltac:(lia) ltac:(lia)
                ltac:(unfold INT_MAX; lia)) as H.
  cbv zeta in H. destruct H as (_ & H2 & _ & H4). split; [exact H2|exact H4].
Defined.

Lemma reader_blocks_partition_witness :
  exists rank,
    0 <= rank < 51 * 1 /\
    covers (reader_geometry 50 60 51 1 rank) 7 59 /\
    forall rank', 0 <= rank' < 51 * 1 ->
      covers (reader_geometry 50 60 51 1 rank') 7 59 -> rank' = rank.
Proof.
  apply (reader_blocks_partition 50 60 51 1 7 59
           ltac:(lia) ltac:(lia) ltac:(lia) ltac:(lia)
           ltac:(unfold INT_MAX; lia) ltac:(lia) ltac:(lia)).
Defined.

Lemma same_decomposition_same_blocks_witness :
  reader_geometry (2 * 50) (2 * 60) 2 2 3 = writer_geometry 2 2 3.
Proof.
  apply (same_decomposition_same_blocks 2 2 3 ltac:(lia) ltac:(lia)
           ltac:(lia) ltac:(unfold INT_MAX; lia)).
Defined.

Lemma MainReaders_stops_at_failure_witness :
  let pass := fun (k : nat) (_ : Z) (buf : list float) =>
                match k with
                | O => Checked buf
                | S _ => CheckFailed buf
                end in
  let tl := mkTimeline [0; 0; 0]%nat (Some 0%nat) in
  (exists status k t,
     MainReaders_loop 4 tl pass 60 0 (fun _ => 0%nat) 0
       (mkReader Idle 0) 0 [] []
     = Finished status (in_order k) t /\ (k <= 1)%nat /\ status <> OK) \/
  (exists buf,
     MainReaders_loop 4 tl pass 60 0 (fun _ => 0%nat) 0
       (mkReader Idle 0) 0 [] []
     = Threw (pass 1%nat (Z.of_nat 1) buf) (in_order 2) /\
     In (1%nat, Z.of_nat 1) (in_order 2)).
Proof.
  intros pass tl.
  apply (MainReaders_stops_at_failure tl pass 60 0 (fun _ => 0%nat) 1 4).
  - unfold INT_MAX. lia.
  - intros k buf Hk. exists buf. destruct k; [reflexivity|lia].
  - intros buf buf'. discriminate.
  - lia.
Defined.

Lemma TestCommon_roles_witness :
  TestCommon_role (mkRunParams 1 1 1 7) 8 3 = Reader 2 <-> 3 = 1 * 1 + 2.
Proof.
  pose proof (TestCommon_roles (mkRunParams 1 1 1 7) 8
                ltac:(simpl; lia) ltac:(simpl; lia) ltac:(simpl; lia)
                ltac:(simpl; lia) ltac:(simpl; unfold INT_MAX; lia)) as H.
  cbv zeta in H. cbn [npx_w npy_w npx_r npy_r] in H.
  destruct H as [_ H]. destruct (H ltac:(lia)) as (_ & _ & Hr & _).
  apply (Hr 2 3); lia.
Defined.
